(** * kabuki/batch_run.py: admission planner, command builder, scheduler loop

    A shallow embedding of [src/kabuki/batch_run.py].  Python [int]s are [Z],
    Python [float]s are the kernel's binary64 floats ([PrimFloat.float]),
    dictionaries with a fixed key set are records, and the [while True] loop
    of the planner is a fuelled recursion. *)

From Stdlib Require Import ZArith List Bool Lia String Ascii DecimalString.
From Stdlib Require Import DecimalNat DecimalFacts.
From Stdlib Require Import Floats.
From stdpp Require Import base option list strings.
Import ListNotations.

Local Open Scope Z_scope.

(** ** Python exceptions and a small error monad *)

Inductive exn : Type :=
| OverflowError   (* int too large to convert to float *)
| TypeError       (* 'NoneType' object is not subscriptable *)
| IndexError      (* list index out of range *)
| ValueError      (* shlex: no closing quotation *)
| SystemExit (code : Z)   (* argparse rejects a command line *)
| OSError (errno : Z)
| KeyboardInterrupt.

Inductive result (A : Type) : Type :=
| Ok (a : A)
| Raise (e : exn).
Arguments Ok {A} a.
Arguments Raise {A} e.

Definition rbind {A B} (r : result A) (k : A -> result B) : result B :=
  match r with
  | Ok a => k a
  | Raise e => Raise e
  end.

Notation "'try!' x := c 'in' k" := (rbind c (fun x => k))
  (at level 10, x name, c at level 100, k at level 200).

(** ** Numbers *)

(** [float(z)] for a Python int: the correctly rounded binary64 value, and
    [OverflowError] when that value is not finite.  This is the conversion
    Python applies to the int operand of a mixed int/float operation. *)
Definition float_of_int (z : Z) : result float :=
  let f := SF2Prim (binary_normalize prec emax z 0 false) in
  if PrimFloat.is_infinity f then Raise OverflowError else Ok f.

(** ** The value of a binary64 float

    A float that is not NaN stands for an integer multiple of [2^-1074],
    the spacing of the subnormal numbers, or for an infinity.  [Fin z] is
    the number [z * 2^-1074]. *)
Inductive xval : Type := NInf | Fin (z : Z) | PInf.

Definition xle (x y : xval) : Prop :=
  match x, y with
  | NInf, _ => True
  | _, PInf => True
  | Fin a, Fin b => a <= b
  | _, _ => False
  end.

Definition xlt (x y : xval) : Prop :=
  match x, y with
  | NInf, NInf => False
  | NInf, _ => True
  | PInf, _ => False
  | Fin a, Fin b => a < b
  | Fin _, PInf => True
  | Fin _, NInf => False
  end.

Definition xopp (x : xval) : xval :=
  match x with NInf => PInf | Fin z => Fin (- z) | PInf => NInf end.

(** The value of a float given by sign, mantissa and exponent; [None] for
    NaN. *)
Definition SF_value (f : spec_float) : option xval :=
  match f with
  | S754_nan => None
  | S754_infinity s => Some (if s then NInf else PInf)
  | S754_zero _ => Some (Fin 0)
  | S754_finite s m e => Some (Fin (cond_Zopp s (Zpos m * 2 ^ (e - emin))))
  end.

(** Rounding to nearest, ties to even, of a positive multiple [N] of
    [2^-1074] to 53 significant bits. *)
Definition round_pos (N : Z) : Z :=
  let k := Z.max (Z.log2 N + 1 - prec) 0 in
  let q := N / 2 ^ k in
  let r := N mod 2 ^ k in
  let up := if (2 ^ k <? 2 * r) || ((2 * r =? 2 ^ k) && Z.odd q) then 1 else 0 in
  (q + up) * 2 ^ k.

(** [2^1024] in units of [2^-1074]: what rounds that high overflows. *)
Definition huge : Z := 2 ^ (emax - emin).

Definition cap (v : Z) : xval := if v <? huge then Fin v else PInf.

(** The float nearest to [N * 2^-1074]. *)
Definition rnd (N : Z) : xval :=
  match N with
  | Z0 => Fin 0
  | Zpos _ => cap (round_pos N)
  | Zneg _ => xopp (cap (round_pos (- N)))
  end.

(** The record after shifting [N] right by [k] places: the quotient, and
    where the remainder stands with respect to one half. *)
Definition shifted (N k : Z) (mrs : shr_record) : Prop :=
  0 <= k
  /\ shr_m mrs = N / 2 ^ k
  /\ shr_r mrs = (2 ^ k <=? 2 * (N mod 2 ^ k))
  /\ shr_s mrs = negb ((N mod 2 ^ k =? 0) || (2 * (N mod 2 ^ k) =? 2 ^ k)).

(** The quotient of [N] by [2^k], rounded to nearest with ties to even. *)
Definition rounded (N k : Z) : Z :=
  N / 2 ^ k
  + (if (2 ^ k <? 2 * (N mod 2 ^ k))
        || ((2 * (N mod 2 ^ k) =? 2 ^ k) && Z.odd (N / 2 ^ k))
     then 1 else 0).

Definition sgn (s : bool) (x : xval) : xval := if s then xopp x else x.

(** The last two steps of [binary_round_aux]: renormalise after the
    rounding may have carried, then check the range. *)
Definition finish (s : bool) (m1 e1 : Z) : spec_float :=
  let '(mrs, e) := shr_fexp prec emax m1 e1 loc_Exact in
  match shr_m mrs with
  | Z0 => S754_zero s
  | Zpos m => if e <=? emax - prec then S754_finite s m e else S754_infinity s
  | Zneg _ => S754_nan
  end.

(** The difference of two values as IEEE subtraction returns it; [None]
    is NaN. *)
Definition xsub (a b : xval) : option xval :=
  match a, b with
  | Fin x, Fin y => Some (rnd (x - y))
  | PInf, PInf | NInf, NInf => None
  | PInf, _ => Some PInf
  | NInf, _ => Some NInf
  | Fin _, PInf => Some NInf
  | Fin _, NInf => Some PInf
  end.

(** The sum of two values as IEEE addition returns it; [None] is NaN. *)
Definition xadd (a b : xval) : option xval :=
  match a, b with
  | Fin x, Fin y => Some (rnd (x + y))
  | PInf, NInf | NInf, PInf => None
  | PInf, _ | _, PInf => Some PInf
  | NInf, _ | _, NInf => Some NInf
  end.

(** The value of a primitive float. *)
Definition float_value (f : float) : option xval := SF_value (Prim2SF f).

(** [x] is not above [y]: both are NaN, or neither is and the values are
    in order. *)
Definition float_le (x y : float) : Prop :=
  match float_value x, float_value y with
  | None, None => True
  | Some a, Some b => xle a b
  | _, _ => False
  end.

(** ** Data *)

(** A GPU entry of the probe's snapshot: keys [name], [mem], [free],
    [utilization]. *)
Record gpu_info : Type := mk_gpu_info {
  gi_name : string;
  gi_mem : Z;
  gi_free : Z;
  gi_utilization : float
}.

(** The probe's snapshot of a machine: keys [cpu_usage], [mem_free],
    [cpu_count], [gpus]. *)
Record machine_info : Type := mk_machine_info {
  mi_cpu_usage : float;
  mi_mem_free : Z;
  mi_cpu_count : Z;
  mi_gpus : list gpu_info
}.

(** A GPU entry once [init_machine_limit] has added the key [reserved]. *)
Record gpu : Type := mk_gpu {
  g_name : string;
  g_mem : Z;
  g_free : Z;
  g_utilization : float;
  g_reserved : Z
}.

(** The simulated machine once [init_machine_limit] has run: [cpu_count] has
    become a float and the key [reserved] exists. *)
Record machine_limit : Type := mk_machine_limit {
  cpu_usage : float;
  mem_free : Z;
  cpu_count : float;
  reserved : Z;
  gpus : list gpu
}.

(** The parsed command line ([argparse.Namespace]) of [main]. *)
Record args : Type := mk_args {
  args_copy_forward : list string;
  args_copy_backwards : list string;
  machines : list string;
  num_cpus : Z;
  memory_required : Z;
  reserve : bool;
  no_reserve_gpu : bool;
  no_gpu_required : bool;
  gpu_memory_required : Z;
  gpu_utilization : float;
  args_verbose : bool;
  dry_run : bool;
  kabuki_commands : bool;
  filename : string
}.

(** ** The admission planner *)

(** [any(p(gpu) for gpu in gpus)] *)
Definition any {A} (p : A -> bool) (l : list A) : bool := existsb p l.

Definition machine_limit_over (m : machine_limit) : bool :=
  (1 <? reserved m)
  || (cpu_count m <? -2)%float
  || (mem_free m <? 0)
  || any (fun g => g_free g <? 0) (gpus m)
  || any (fun g => (1.2 <? g_utilization g)%float) (gpus m)
  || any (fun g => 1 <? g_reserved g) (gpus m).

(** The condition of the scan at line 64: the candidate [g] becomes the
    choice when there is no choice yet, or the choice is reserved (a nonzero
    int is truthy), or charging it would leave no free memory, or it is
    strictly busier than the candidate. *)
Definition scan_replaces (a : args) (gpu_choice : option gpu) (g : gpu) : bool :=
  match gpu_choice with
  | None => true
  | Some c =>
      negb (g_reserved c =? 0)
      || (g_free c - gpu_memory_required a <=? 0)
      || (g_utilization g <? g_utilization c)%float
  end.

(** The [for i, gpu in enumerate(...)] loop of lines 63-66, started at
    position [i] with the loop variables [gpu_choice] and [gpu_idx]. *)
Fixpoint gpu_scan (a : args) (l : list gpu) (i : nat)
    (gpu_choice : option gpu) (gpu_idx : nat) : option gpu * nat :=
  match l with
  | [] => (gpu_choice, gpu_idx)
  | g :: rest =>
      if scan_replaces a gpu_choice g
      then gpu_scan a rest (S i) (Some g) i
      else gpu_scan a rest (S i) gpu_choice gpu_idx
  end.

(** Lines 67-70: the in-place updates of the chosen entry. *)
Definition charge_gpu (a : args) (c : gpu) : gpu :=
  let c1 := mk_gpu (g_name c) (g_mem c) (g_free c - gpu_memory_required a)
              (g_utilization c) (g_reserved c) in
  let c2 := mk_gpu (g_name c1) (g_mem c1) (g_free c1)
              (g_utilization c1 + gpu_utilization a)%float (g_reserved c1) in
  if no_reserve_gpu a then c2
  else mk_gpu (g_name c2) (g_mem c2) (g_free c2) (g_utilization c2)
         (g_reserved c2 + 1).

(** [gpu_choice] is a reference to the entry at position [gpu_idx] of the
    machine's list, so the updates land in the list at that position. *)
Definition subtract_process_req (m : machine_limit) (a : args)
    : result (machine_limit * nat) :=
  let reserved1 := if reserve a then reserved m + 1 else reserved m in
  try! n := float_of_int (num_cpus a) in
  let cpu_count1 := (cpu_count m - n)%float in
  let mem_free1 := mem_free m - memory_required a in
  if no_gpu_required a
  then Ok (mk_machine_limit (cpu_usage m) mem_free1 cpu_count1 reserved1 (gpus m), 0%nat)
  else
    match gpu_scan a (gpus m) 0 None 0 with
    | (None, _) => Raise TypeError
    | (Some c, gpu_idx) =>
        Ok (mk_machine_limit (cpu_usage m) mem_free1 cpu_count1 reserved1
              (<[gpu_idx := charge_gpu a c]> (gpus m)), gpu_idx)
    end.

Definition init_gpu (g : gpu_info) : gpu :=
  mk_gpu (gi_name g) (gi_mem g) (gi_free g) (gi_utilization g) 0.

Definition init_machine_limit (s : machine_info) : result machine_limit :=
  try! c := float_of_int (mi_cpu_count s) in
  Ok (mk_machine_limit (mi_cpu_usage s) (mi_mem_free s)
        (c * (1 - mi_cpu_usage s))%float 0 (map init_gpu (mi_gpus s))).

(** The [while True] loop of lines 91-95.  [None] means the fuel ran out
    before the loop left. *)
Fixpoint process_loop (fuel : nat) (m : machine_limit) (a : args)
    (gpu_choices : list nat) : option (result (list nat)) :=
  match fuel with
  | O => None
  | S fuel' =>
      match subtract_process_req m a with
      | Raise e => Some (Raise e)
      | Ok (m', gpu_choice) =>
          if machine_limit_over m' then Some (Ok gpu_choices)
          else process_loop fuel' m' a (gpu_choices ++ [gpu_choice])
      end
  end.

Definition get_process_limit (fuel : nat) (s : machine_info) (a : args)
    : option (result (list nat)) :=
  if (match mi_gpus s with [] => true | _ => false end)
     && negb (no_gpu_required a)
  then Some (Ok [])
  else
    match init_machine_limit s with
    | Raise e => Some (Raise e)
    | Ok m => process_loop fuel m a []
    end.

(** ** The docstring's machine and the default request *)

Definition example_info (n0 n1 : string) : machine_info :=
  mk_machine_info 0.124%float 30607 24
    [ mk_gpu_info n0 5934 5933 0.0%float;
      mk_gpu_info n1 5932 5931 0.0%float ].

Definition default_args : args :=
  mk_args [] [] [] 1 7000 false false false 1000 0.75%float
    false false false EmptyString.


(** The state after [n] charged units and the GPU index recorded by each. *)
Fixpoint charges (n : nat) (m : machine_limit) (a : args)
    : result (machine_limit * list nat) :=
  match n with
  | O => Ok (m, [])
  | S k =>
      match subtract_process_req m a with
      | Raise e => Raise e
      | Ok (m1, i) =>
          match charges k m1 a with
          | Raise e => Raise e
          | Ok (m2, l) => Ok (m2, i :: l)
          end
      end
  end.

(** ** Strings

    A Python [str] is modelled by [string]; its characters are the code
    points below 256. *)

(** [c.isspace()] on that range. *)
Definition py_isspace (c : ascii) : bool :=
  let n := nat_of_ascii c in
  ((9 <=? n)%nat && (n <=? 13)%nat) || ((28 <=? n)%nat && (n <=? 32)%nat)
  || (n =? 133)%nat || (n =? 160)%nat.

(** [s.split()]: the maximal runs of non-whitespace characters. *)
Fixpoint py_split_from (word : string) (s : string) : list string :=
  match s with
  | EmptyString => if String.eqb word "" then [] else [word]
  | String c rest =>
      if py_isspace c
      then (if String.eqb word "" then py_split_from "" rest
            else word :: py_split_from "" rest)
      else py_split_from (word +:+ String c "") rest
  end.

Definition py_split (s : string) : list string := py_split_from "" s.

Fixpoint py_lstrip (s : string) : string :=
  match s with
  | EmptyString => ""
  | String c rest => if py_isspace c then py_lstrip rest else s
  end.

Fixpoint py_rstrip (s : string) : string :=
  match s with
  | EmptyString => ""
  | String c rest =>
      let r := py_rstrip rest in
      if String.eqb r "" && py_isspace c then "" else String c r
  end.

(** [s.strip()] *)
Definition py_strip (s : string) : string := py_rstrip (py_lstrip s).

(** [needle in hay] *)
Fixpoint py_in (needle hay : string) : bool :=
  String.prefix needle hay ||
  match hay with
  | EmptyString => false
  | String _ rest => py_in needle rest
  end.

(** [sep.join(l)] *)
Definition py_join (sep : string) (l : list string) : string :=
  String.concat sep l.

(** [s.replace(old, new)] for one-character [old]. *)
Fixpoint py_replace_char (old : ascii) (new : string) (s : string) : string :=
  match s with
  | EmptyString => ""
  | String c rest =>
      (if Ascii.eqb c old then new else String c "")
      +:+ py_replace_char old new rest
  end.

(** [str(n)] for a non-negative int. *)
Definition py_str (n : nat) : string := NilZero.string_of_uint (Nat.to_uint n).

(** [l[i]] *)
Definition py_index {A} (l : list A) (i : nat) : result A :=
  match l !! i with
  | Some x => Ok x
  | None => Raise IndexError
  end.

(** ** The command builder *)

(** The namespace [basic_run.parse_args] returns. *)
Record basic_args : Type := mk_basic_args {
  ba_copy_forward : list string;
  ba_copy_backwards : list string;
  ba_machine : string;
  ba_job_name : string;
  ba_verbose : bool;
  ba_command : string
}.

(** [make_basic_run_command] reads [copy_forward], [copy_backwards] and
    [verbose] from whichever namespace it is handed. *)
Class RunArgs (A : Type) : Type := {
  copy_forward : A -> list string;
  copy_backwards : A -> list string;
  verbose : A -> bool
}.

#[export] Instance args_RunArgs : RunArgs args :=
  {| copy_forward := args_copy_forward;
     copy_backwards := args_copy_backwards;
     verbose := args_verbose |}.

#[export] Instance basic_args_RunArgs : RunArgs basic_args :=
  {| copy_forward := ba_copy_forward;
     copy_backwards := ba_copy_backwards;
     verbose := ba_verbose |}.

(** What the module takes from outside this file: the path
    [os.path.join(my_folder, 'basic_run.py')], Python's [shlex.split], and
    [basic_run.parse_args]. *)
Class Library : Type := {
  basic_run_py : string;
  shlex_split : string -> result (list string);
  parse_args : list string -> result basic_args
}.

Definition make_basic_run_command {A} `{RunArgs A}
    `{Library} (machine job_name export_prefix command : string)
    (gpu_choice : nat) (a : A) : list string :=
  let basic_cmd :=
    py_split ("python -u " +:+ basic_run_py
              +:+ " --copy-forward " +:+ py_join " " (copy_forward a)
              +:+ "  --copy-backwards " +:+ py_join " " (copy_backwards a)
              +:+ " --machine=" +:+ machine
              +:+ " --job-name=" +:+ job_name
              +:+ " " +:+ (if verbose a then "--verbose" else "")) in
  basic_cmd ++ [export_prefix +:+ " " +:+ command].

(** Lines 104-113: the text handed to [shlex.split]. *)
Definition kabuki_final_command (machine job_name command : string) (a : args)
    : string :=
  let final_command := command in
  let final_command :=
    if negb (py_in "--copy-forward" command)
    then final_command +:+ (" --copy-forward " +:+ py_join " " (copy_forward a) +:+ " ")
    else final_command in
  let final_command :=
    if negb (py_in "--copy-backwards" command)
    then final_command +:+ (" --copy-backwards " +:+ py_join " " (copy_backwards a) +:+ " ")
    else final_command in
  let final_command :=
    if negb (py_in "--job-name" command)
    then final_command +:+ (" --job-name " +:+ job_name +:+ " ")
    else final_command in
  let final_command :=
    if verbose a then final_command +:+ " --verbose " else final_command in
  final_command +:+ (" --machine " +:+ machine +:+ " ").

Definition make_kabuki_run_command `{Library}
    (machine job_name export_prefix command : string) (gpu_choice : nat)
    (a : args) : result (list string * string) :=
  let final_command := kabuki_final_command machine job_name command a in
  try! words := shlex_split final_command in
  let split_cmd := tail words in
  try! parse_results := parse_args split_cmd in
  let resulting_command :=
    make_basic_run_command machine (ba_job_name parse_results) export_prefix
      (ba_command parse_results) gpu_choice parse_results in
  Ok (resulting_command, ba_job_name parse_results).


(** ** The scheduler's world *)

Inductive signal : Type := SIGINT.

(** A [subprocess.Popen] object. *)
Record popen : Type := mk_popen {
  p_args : list string;
  p_stdout : string;
  p_stderr : string;
  p_returncode : option Z;     (* [None] until a poll or wait sees the exit *)
  p_signals : list signal      (* the [send_signal] calls made on it *)
}.

(** A slot is [None] or the tuple [(line_num, process)]; the process is a
    reference to a [Popen] object, its position in [popens]. *)
Definition slot : Type := option (nat * nat).

(** The variables of [main] that the loop and the handler share, and the
    part of the outside world they act on. *)
Record state : Type := mk_state {
  line_num : nat;
  job_names : list string;
  machine_procs : list (list slot);
  all_done : bool;
  waiting_only : bool;
  clock : nat;                 (* system calls made so far *)
  popens : list popen;         (* every Popen object created, by reference *)
  stdout : list string;        (* the lines printed *)
  opened : list string;        (* the files opened for appending *)
  sigint_ignored : bool
}.

(** What the operating system answers.  The first argument is the clock of
    the call, so an answer may change from one call to the next. *)
Class OS : Type := {
  (* [os.path.exists(path)] *)
  path_exists : nat -> string -> bool;
  (* the exit status [poll()] finds for a process, if it has exited *)
  poll_result : nat -> nat -> option Z;
  (* the exit status a blocking [wait()] returns; [None] if the process never
     exits *)
  wait_result : nat -> nat -> option Z;
  (* the exception a system call raises while SIGINT is not ignored: an
     external interrupt arriving in it, or its own failure *)
  raised : nat -> option exn
}.

Inductive outcome (A : Type) : Type :=
| Return (a : A) (st : state)
| Throw (e : exn) (st : state)
| Hang.                        (* blocked for ever *)
Arguments Return {A} a st.
Arguments Throw {A} e st.
Arguments Hang {A}.

Definition M (A : Type) : Type := state -> outcome A.

Definition ret {A} (a : A) : M A := fun st => Return a st.

Definition bind {A B} (c : M A) (k : A -> M B) : M B :=
  fun st =>
    match c st with
    | Return a st' => k a st'
    | Throw e st' => Throw e st'
    | Hang => Hang
    end.

Notation "'let!' x := c 'in' k" := (bind c (fun x => k))
  (at level 10, x name, c at level 100, k at level 200).
Notation "c ;;; k" := (bind c (fun _ => k))
  (at level 100, k at level 200, right associativity).

Definition throw {A} (e : exn) : M A := fun st => Throw e st.

Definition lift {A} (r : result A) : M A :=
  match r with
  | Ok a => ret a
  | Raise e => throw e
  end.

Definition gets {A} (f : state -> A) : M A := fun st => Return (f st) st.
Definition modify (f : state -> state) : M unit := fun st => Return tt (f st).

Definition set_line_num (n : nat) (st : state) : state :=
  mk_state n (job_names st) (machine_procs st) (all_done st) (waiting_only st)
    (clock st) (popens st) (stdout st) (opened st) (sigint_ignored st).
Definition set_job_names (l : list string) (st : state) : state :=
  mk_state (line_num st) l (machine_procs st) (all_done st) (waiting_only st)
    (clock st) (popens st) (stdout st) (opened st) (sigint_ignored st).
Definition set_machine_procs (l : list (list slot)) (st : state) : state :=
  mk_state (line_num st) (job_names st) l (all_done st) (waiting_only st)
    (clock st) (popens st) (stdout st) (opened st) (sigint_ignored st).
Definition set_all_done (b : bool) (st : state) : state :=
  mk_state (line_num st) (job_names st) (machine_procs st) b (waiting_only st)
    (clock st) (popens st) (stdout st) (opened st) (sigint_ignored st).
Definition set_waiting_only (b : bool) (st : state) : state :=
  mk_state (line_num st) (job_names st) (machine_procs st) (all_done st) b
    (clock st) (popens st) (stdout st) (opened st) (sigint_ignored st).
Definition set_clock (n : nat) (st : state) : state :=
  mk_state (line_num st) (job_names st) (machine_procs st) (all_done st)
    (waiting_only st) n (popens st) (stdout st) (opened st) (sigint_ignored st).
Definition set_popens (l : list popen) (st : state) : state :=
  mk_state (line_num st) (job_names st) (machine_procs st) (all_done st)
    (waiting_only st) (clock st) l (stdout st) (opened st) (sigint_ignored st).
Definition set_stdout (l : list string) (st : state) : state :=
  mk_state (line_num st) (job_names st) (machine_procs st) (all_done st)
    (waiting_only st) (clock st) (popens st) l (opened st) (sigint_ignored st).
Definition set_opened (l : list string) (st : state) : state :=
  mk_state (line_num st) (job_names st) (machine_procs st) (all_done st)
    (waiting_only st) (clock st) (popens st) (stdout st) l (sigint_ignored st).
Definition set_sigint_ignored (b : bool) (st : state) : state :=
  mk_state (line_num st) (job_names st) (machine_procs st) (all_done st)
    (waiting_only st) (clock st) (popens st) (stdout st) (opened st) b.

(** [procs[i]] of machine [mi], and the assignment [procs[i] = v]; the inner
    lists are shared with [machine_procs]. *)
Definition get_slot (mi i : nat) (st : state) : option slot :=
  machine_procs st !! mi ≫= (fun procs => procs !! i).

Definition set_slot (mi i : nat) (v : slot) (st : state) : state :=
  match machine_procs st !! mi with
  | Some procs => set_machine_procs (<[mi := <[i := v]> procs]> (machine_procs st)) st
  | None => st
  end.

Definition set_returncode (h : nat) (rc : Z) (st : state) : state :=
  match popens st !! h with
  | Some p =>
      set_popens (<[h := mk_popen (p_args p) (p_stdout p) (p_stderr p)
                           (Some rc) (p_signals p)]> (popens st)) st
  | None => st
  end.

Definition add_signal (h : nat) (sg : signal) (st : state) : state :=
  match popens st !! h with
  | Some p =>
      set_popens (<[h := mk_popen (p_args p) (p_stdout p) (p_stderr p)
                           (p_returncode p) (p_signals p ++ [sg])]> (popens st)) st
  | None => st
  end.

(** A system call: it raises what the world raises at this clock, or takes
    effect; either way the clock advances. *)
Definition syscall {A} `{OS} (f : nat -> state -> A * state) : M A :=
  fun st =>
    match raised (clock st) with
    | Some e => Throw e (set_clock (S (clock st)) st)
    | None =>
        let (a, st') := f (clock st) st in
        Return a (set_clock (S (clock st)) st')
    end.

Definition print (line : string) : M unit :=
  modify (fun st => set_stdout (stdout st ++ [line]) st).

Definition os_path_exists `{OS} (path : string) : M bool :=
  syscall (fun t st => (path_exists t path, st)).

Definition os_makedirs `{OS} (path : string) : M unit :=
  syscall (fun _ st => (tt, st)).

Definition time_sleep `{OS} : M unit :=
  syscall (fun _ st => (tt, st)).

Definition open_append `{OS} (path : string) : M string :=
  syscall (fun _ st => (path, set_opened (opened st ++ [path]) st)).

Definition subprocess_Popen `{OS} (cmd : list string) (out err : string) : M nat :=
  syscall (fun _ st =>
    (length (popens st),
     set_popens (popens st ++ [mk_popen cmd out err None []]) st)).

(** [process.poll()]: the stored return code if there is one, else what the
    world reports, which is then stored. *)
Definition popen_poll `{OS} (h : nat) : M (option Z) :=
  syscall (fun t st =>
    match popens st !! h with
    | Some p =>
        match p_returncode p with
        | Some rc => (Some rc, st)
        | None =>
            match poll_result t h with
            | Some rc => (Some rc, set_returncode h rc st)
            | None => (None, st)
            end
        end
    | None => (None, st)
    end).

(** [process.send_signal(sig)] and [process.wait()] as the handler calls
    them, with SIGINT ignored: neither raises; [wait] without a timeout
    returns once the process has exited and never otherwise. *)
Definition popen_send_signal (h : nat) (sg : signal) : M unit :=
  modify (fun st => set_clock (S (clock st)) (add_signal h sg st)).

Definition popen_wait `{OS} (h : nat) : M unit :=
  fun st =>
    match popens st !! h with
    | Some p =>
        match p_returncode p with
        | Some _ => Return tt (set_clock (S (clock st)) st)
        | None =>
            match wait_result (clock st) h with
            | Some rc => Return tt (set_clock (S (clock st)) (set_returncode h rc st))
            | None => Hang
            end
        end
    | None => Return tt (set_clock (S (clock st)) st)
    end.

(** ** The scheduling loop of [main] *)

Section Scheduler.
Context `{Library} `{OS}.
Variable a : args.
Variable lines : list string.

(** Lines 168-173: reap the slot's process if it has exited. *)
Definition reap (mi i : nat) (proc : slot) : M slot :=
  match proc with
  | Some (finished_num, h) =>
      let! rc := popen_poll h in
      match rc with
      | Some returncode =>
          let message := if (returncode =? 0)%Z then "finished" else "failed" in
          let! job_name := gets (fun st => py_index (job_names st) finished_num) in
          let! job_name := lift job_name in
          let! line := lift (py_index lines finished_num) in
          print (message +:+ ": " +:+ job_name +:+ "; " +:+ py_strip line) ;;;
          modify (set_slot mi i None) ;;;
          ret None
      | None => ret proc
      end
  | None => ret None
  end.

(** Lines 175-183: the command and the effective name of the job at
    [line_num]. *)
Definition build_job (mac : string) (gpu_choice : nat) (job_name line : string)
    : result (list string * string * string) :=
  let export_prefix :=
    if negb (reserve a) && negb (no_gpu_required a)
    then "export CUDA_VISIBLE_DEVICES=" +:+ py_str gpu_choice +:+ " &&"
    else "" in
  let command := py_strip line in
  if kabuki_commands a
  then
    try! r := make_kabuki_run_command mac job_name export_prefix command gpu_choice a in
    Ok (fst r, snd r, command)
  else
    Ok (make_basic_run_command mac job_name export_prefix command gpu_choice a,
        job_name, command).

(** Lines 185-197: skip the job if its marker exists, else start it. *)
Definition launch_or_skip (mi i ln : nat) (job_cmd : list string)
    (job_name command : string) : M slot :=
  let! ex := os_path_exists ("./job_results/" +:+ job_name) in
  if ex : bool
  then print ("skipping " +:+ command) ;;; ret None
  else
    (if verbose a || dry_run a then print (py_join " " job_cmd) else ret tt) ;;;
    if dry_run a then ret None
    else
      print ("started: " +:+ job_name +:+ ";  " +:+ command) ;;;
      let! stdout_file := open_append ("./job_results/" +:+ job_name +:+ ".out") in
      let! stderr_file := open_append ("./job_results/" +:+ job_name +:+ ".err") in
      let! process := subprocess_Popen job_cmd stdout_file stderr_file in
      time_sleep ;;;
      modify (set_slot mi i (Some (ln, process))) ;;;
      ret (Some (ln, process)).

(** Lines 175-200. *)
Definition dispatch (mac : string) (mi i gpu_choice : nat) : M slot :=
  let! ln := gets line_num in
  let! line := lift (py_index lines ln) in
  let! names := gets job_names in
  let! job_name := lift (py_index names ln) in
  let! job := lift (build_job mac gpu_choice job_name line) in
  let '(job_cmd, new_job_name, command) := job in
  (if kabuki_commands a
   then modify (fun st => set_job_names (<[ln := new_job_name]> (job_names st)) st)
   else ret tt) ;;;
  print new_job_name ;;;
  let! proc := launch_or_skip mi i ln job_cmd new_job_name command in
  modify (set_line_num (S ln)) ;;;
  modify (set_all_done false) ;;;
  modify (set_waiting_only false) ;;;
  ret proc.

(** Lines 168-203: the body of the inner [for]. *)
Definition slot_body (mac : string) (mi i gpu_choice : nat) (proc : slot)
    : M unit :=
  let! proc := reap mi i proc in
  let! ln := gets line_num in
  let! proc :=
    match proc with
    | None =>
        if (ln <? length lines)%nat then dispatch mac mi i gpu_choice
        else ret proc
    | Some _ => ret proc
    end in
  match proc with
  | Some _ => modify (set_all_done false)
  | None => ret tt
  end.

(** [for i, (gpu_choice, proc) in enumerate(zip(gpu_choices, procs))],
    from position [i] on; [procs] is read where the iteration stands. *)
Fixpoint slots_loop (mac : string) (mi i : nat) (gpu_choices : list nat)
    : M unit :=
  match gpu_choices with
  | [] => ret tt
  | gpu_choice :: rest =>
      let! proc := gets (get_slot mi i) in
      match proc with
      | None => ret tt
      | Some proc =>
          slot_body mac mi i gpu_choice proc ;;;
          slots_loop mac mi (S i) rest
      end
  end.

(** [for mac, gpu_choices, procs in zip(args.machines,
    machine_gpu_choices, machine_procs)], from machine [mi] on. *)
Fixpoint machines_loop (mi : nat) (macs : list string)
    (machine_gpu_choices : list (list nat)) : M unit :=
  match macs, machine_gpu_choices with
  | mac :: macs', gpu_choices :: rest =>
      let! n := gets (fun st => length (machine_procs st)) in
      if (mi <? n)%nat
      then slots_loop mac mi 0 gpu_choices ;;; machines_loop (S mi) macs' rest
      else ret tt
  | _, _ => ret tt
  end.

(** One turn of the [while not all_done] loop, lines 164-205. *)
Definition pass (machine_gpu_choices : list (list nat)) : M unit :=
  modify (set_all_done true) ;;;
  modify (set_waiting_only true) ;;;
  machines_loop 0 (machines a) machine_gpu_choices ;;;
  let! w := gets waiting_only in
  if w : bool then time_sleep else ret tt.

(** Lines 162-205.  [None]: the fuel ran out. *)
Fixpoint sched_loop (fuel : nat) (machine_gpu_choices : list (list nat))
    (st : state) : option (outcome unit) :=
  if all_done st then Some (Return tt st)
  else
    match fuel with
    | O => None
    | S fuel' =>
        match pass machine_gpu_choices st with
        | Return _ st' => sched_loop fuel' machine_gpu_choices st'
        | Throw e st' => Some (Throw e st')
        | Hang => Some Hang
        end
    end.

(** Every process held by a slot, machine by machine, slot by slot. *)
Definition held (st : state) : list nat :=
  mjoin ((fun procs => omap (fun proc : slot => snd <$> proc) procs)
           <$> machine_procs st).

Fixpoint for_each (f : nat -> M unit) (l : list nat) : M unit :=
  match l with
  | [] => ret tt
  | h :: rest => f h ;;; for_each f rest
  end.

(** Lines 206-218: the [except BaseException as be] handler. *)
Definition drain (be : exn) : M unit :=
  modify (set_sigint_ignored true) ;;;
  print "interrupting tasks" ;;;
  let! procs := gets held in
  for_each (fun h => popen_send_signal h SIGINT) procs ;;;
  print "waiting for tasks to terminate" ;;;
  let! procs := gets held in
  for_each popen_wait procs ;;;
  throw be.

(** Lines 160-218: the [try] statement. *)
Definition run_loop (fuel : nat) (machine_gpu_choices : list (list nat))
    (st : state) : option (outcome unit) :=
  let st := set_all_done false (set_line_num 0 st) in
  match sched_loop fuel machine_gpu_choices st with
  | Some (Throw be st') => Some (drain be st')
  | r => r
  end.

(** Lines 149 and 152-159: the slot arrays, the job names, the warnings and
    the results directory.  The two summary [print]s of lines 150-151 are
    left out: no property below reads them. *)
Definition initial_job_names : list string :=
  let save_filename := py_replace_char "/" "_" (filename a) in
  map (fun line_num => save_filename +:+ "." +:+ py_str (line_num + 1))
    (seq 0 (length lines)).

Fixpoint warn_existing (line_num : nat) (names : list string) : M unit :=
  match names with
  | [] => ret tt
  | job_name :: rest =>
      let! ex := os_path_exists ("./job_results/" +:+ job_name) in
      (if ex : bool
       then print ("WARNING: job results already exists for line "
                   +:+ py_str (line_num + 1)
                   +:+ ", skipping evaluation: delete if you wish to rerun")
       else ret tt) ;;;
      warn_existing (S line_num) rest
  end.

Definition setup (machine_gpu_choices : list (list nat)) : M unit :=
  let machine_proc_limits := map (fun c : list nat => length c) machine_gpu_choices in
  modify (set_machine_procs
            (map (fun limit => replicate limit (None : slot)) machine_proc_limits)) ;;;
  modify (set_job_names initial_job_names) ;;;
  warn_existing 0 initial_job_names ;;;
  os_makedirs "./job_results/".

(** Lines 149-218 of [main], given the planner's sequences (without the
    summary [print]s of lines 150-151). *)
Definition schedule (fuel : nat) (machine_gpu_choices : list (list nat))
    (st : state) : option (outcome unit) :=
  match setup machine_gpu_choices st with
  | Return _ st' => run_loop fuel machine_gpu_choices st'
  | Throw e st' => Some (Throw e st')
  | Hang => Some Hang
  end.

End Scheduler.

(** The world when [main] starts scheduling: nothing spawned yet. *)
Definition boot (t0 : nat) (out : list string) : state :=
  mk_state 0 [] [] false false t0 [] out [] false.


(** ** The scan as the specification words it

    A left-to-right fold over the numbered GPUs that keeps a running best
    choice.  [spec_replaces] is the replacement rule: the best is unset, or
    has a nonzero reserved count, or would be left with free memory at or
    below zero, or is strictly more utilized than the candidate. *)
Definition spec_replaces (a : args) (best : option (nat * gpu)) (cand : gpu) : Prop :=
  match best with
  | None => True
  | Some (_, b) =>
      g_reserved b <> 0
      \/ g_free b - gpu_memory_required a <= 0
      \/ (g_utilization cand <? g_utilization b)%float = true
  end.

#[export] Instance spec_replaces_dec a best cand : Decision (spec_replaces a best cand).
Proof.
  destruct best as [[i b]|]; simpl; [|left; exact I].
  destruct (Z.eq_dec (g_reserved b) 0) as [Hr|Hr]; [|left; now left].
  destruct (Z_le_dec (g_free b - gpu_memory_required a) 0) as [Hf|Hf];
    [left; right; now left|].
  destruct (g_utilization cand <? g_utilization b)%float eqn:Hu;
    [left; right; now right|].
  right. intros [?|[?|?]]; [contradiction|contradiction|congruence].
Defined.

Definition spec_scan (a : args) (l : list gpu) : option (nat * gpu) :=
  fold_left
    (fun best (cand : nat * gpu) =>
       if decide (spec_replaces a best (snd cand)) then Some cand else best)
    (imap pair l) None.

(** A GPU the scan keeps unless a strictly less utilized one follows:
    unreserved, and with free memory left over after the charge. *)
Definition gpu_usable (a : args) (g : gpu) : Prop :=
  g_reserved g = 0 /\ 0 < g_free g - gpu_memory_required a.

#[export] Instance gpu_usable_dec a g : Decision (gpu_usable a g).
Proof. unfold gpu_usable. apply _. Defined.

(** No entry of [l] that is reserved or short of memory is strictly less
    utilized than [b]. *)
Definition untempted (a : args) (b : gpu) (l : list gpu) : Prop :=
  forall g, g ∈ l -> ~ gpu_usable a g ->
    (g_utilization g <? g_utilization b)%float = false.


(** ** Concrete inputs *)

Definition C2_machine : machine_limit :=
  mk_machine_limit 0.5%float 100 4%float 0
    [ mk_gpu "g0" 10 10 0.5%float 0; mk_gpu "g1" 10 10 0.25%float 0 ].

Definition C2_machine_after : machine_limit :=
  mk_machine_limit 0.5%float (-6900) 3%float 0
    [ mk_gpu "g0" 10 10 0.5%float 0; mk_gpu "g1" 10 (-990) 1%float 1 ].

(** The default request with [--reserve]. *)
Definition reserve_args : args :=
  mk_args [] [] [] 1 7000 true false false 1000 0.75%float
    false false false EmptyString.

(** The docstring's machine after [init_machine_limit]. *)
Definition example_limit (n0 n1 : string) : machine_limit :=
  mk_machine_limit 0.124%float 30607 (24 * (1 - 0.124))%float 0
    [ mk_gpu n0 5934 5933 0.0%float 0; mk_gpu n1 5932 5931 0.0%float 0 ].

(** A machine whose first GPU is busier than its second, and a request
    that adds a quarter of a GPU per unit. *)
Definition busy_first_info : machine_info :=
  mk_machine_info 0.0%float 30000 24
    [ mk_gpu_info "g0" 6000 5000 0.5%float;
      mk_gpu_info "g1" 6000 5000 0.0%float ].

Definition quarter_args : args :=
  mk_args [] [] [] 1 1000 false false false 1000 0.25%float
    false false false EmptyString.

(** A machine whose first GPU has exactly the memory one unit asks for. *)
Definition exact_fit_info : machine_info :=
  mk_machine_info 0.0%float 30000 24
    [ mk_gpu_info "g0" 6000 1000 0.0%float;
      mk_gpu_info "g1" 6000 5000 0.0%float ].

(** A machine in mid-simulation: only the middle GPU is still unreserved. *)
Definition middle_free_limit : machine_limit :=
  mk_machine_limit 0.0%float 20000 20%float 0
    [ mk_gpu "g0" 6000 4000 0.25%float 1;
      mk_gpu "g1" 6000 5000 0.5%float 0;
      mk_gpu "g2" 6000 4000 0.75%float 1 ].

(** ** What self-invocation mode adds to a job text *)

(** The text the builder appended: [final_command[len(command):]]. *)
Definition kabuki_appended (machine job_name command : string) (a : args)
    : string :=
  let final_command := kabuki_final_command machine job_name command a in
  String.substring (String.length command)
    (String.length final_command - String.length command) final_command.

(** The flags the nested job text may carry. *)
Definition flag_vocabulary : list string :=
  ["--copy-forward"; "--copy-backwards"; "--job-name"; "--verbose"; "--machine"].

(** [text] unless the job text already contains [flag]. *)
Definition unless_present (flag text command : string) : string :=
  if py_in flag command then "" else text.

(** A batch run with [--verbose] and one file to copy each way. *)
Definition verbose_args : args :=
  mk_args ["data"] ["out"] ["beta"] 1 7000 false false false 1000 0.75%float
    true false true "jobs.txt".

(** ** Reasoning about scheduler code

    [triple P c Q E]: from a state that satisfies [P], the computation [c]
    returns [x] in a state that satisfies [Q x], or raises [e] in a state
    that satisfies [E e]; it does not block. *)
Definition triple {A} (P : state -> Prop) (c : M A)
    (Q : A -> state -> Prop) (E : exn -> state -> Prop) : Prop :=
  forall st, P st ->
    match c st with
    | Return x st' => Q x st'
    | Throw e st' => E e st'
    | Hang => False
    end.

(** The state a finished run ends in. *)
Definition final_state {A} (o : outcome A) : option state :=
  match o with
  | Return _ st => Some st
  | Throw _ st => Some st
  | Hang => None
  end.

(** Every process reference held by a slot points at a [Popen] object. *)
Definition handles_valid (st : state) : Prop :=
  forall h, h ∈ held st -> (h < length (popens st))%nat.

(** The process behind reference [h] was sent SIGINT and has been seen to
    exit. *)
Definition interrupted_and_exited (st : state) (h : nat) : Prop :=
  exists p, popens st !! h = Some p
    /\ SIGINT ∈ p_signals p /\ is_Some (p_returncode p).

(** From [st] to [st'] the slots are the same and no process loses a
    recorded signal or a recorded exit. *)
Definition drains_to (st st' : state) : Prop :=
  machine_procs st' = machine_procs st
  /\ sigint_ignored st' = sigint_ignored st
  /\ length (popens st') = length (popens st)
  /\ forall h p, popens st !! h = Some p ->
       exists p', popens st' !! h = Some p'
         /\ (SIGINT ∈ p_signals p -> SIGINT ∈ p_signals p')
         /\ (is_Some (p_returncode p) -> is_Some (p_returncode p')).

(** Every name a job can run under has its completion marker, at every
    moment of the run. *)
Definition all_marked `{Library} `{OS} (a : args) (lines : list string) : Prop :=
  forall (t : nat) (mac : string) (gpu_choice n : nat) line job_name job_cmd
         new_job_name command,
    lines !! n = Some line ->
    initial_job_names a lines !! n = Some job_name ->
    build_job a mac gpu_choice job_name line = Ok (job_cmd, new_job_name, command) ->
    path_exists t ("./job_results/" +:+ new_job_name) = true.

(** Nothing was spawned and every slot is empty. *)
Definition idle (st : state) : Prop := popens st = [] /\ held st = [].

(** The names of the jobs not yet dispatched are still the initial ones. *)
Definition names_pending (a : args) (lines : list string) (st : state) : Prop :=
  (line_num st <= length lines)%nat
  /\ forall n, (line_num st <= n)%nat ->
       job_names st !! n = initial_job_names a lines !! n.

(** What holds inside one turn of the loop that started at line [ln0], when
    all jobs are marked: either no job was taken yet and [all_done] still
    stands, or the line counter has moved on. *)
Definition progressing (a : args) (lines : list string) (ln0 : nat) (st : state)
    : Prop :=
  idle st /\ names_pending a lines st
  /\ (ln0 <= line_num st)%nat
  /\ (all_done st = true \/ (ln0 < line_num st)%nat).

(** A library whose parser rejects everything, for runs in plain mode. *)
Definition plain_library : Library :=
  {| basic_run_py := "/opt/kabuki/basic_run.py";
     shlex_split := fun s => Ok (py_split s);
     parse_args := fun _ => Raise (SystemExit 2) |}.

(** A world in which every marker exists. *)
Definition marked_os : OS :=
  {| path_exists := fun _ _ => true;
     poll_result := fun _ _ => None;
     wait_result := fun _ _ => None;
     raised := fun _ => None |}.

(** A world with no markers, in which the user interrupts the ninth system
    call and interrupted processes exit with status -2. *)
Definition interrupted_os : OS :=
  {| path_exists := fun _ _ => false;
     poll_result := fun _ _ => None;
     wait_result := fun _ _ => Some (-2);
     raised := fun t => if (t =? 8)%nat then Some KeyboardInterrupt else None |}.

(** A plain batch of two lines for the machine ["beta"]. *)
Definition plain_args : args :=
  mk_args [] [] ["beta"] 1 7000 false false false 1000 0.75%float
    false false false "jobs.txt".

Definition two_lines : list string := ["echo one"; "echo two"].

(** The state of that batch after [setup], and the state in which the
    interrupt of [interrupted_os] reaches the loop. *)
Definition interrupted_setup : state :=
  Eval vm_compute in
    match @setup interrupted_os plain_args two_lines [[0%nat]] (boot 0 []) with
    | Return _ st => st
    | _ => boot 0 []
    end.

Definition interrupted_state : state :=
  Eval vm_compute in
    match @sched_loop plain_library interrupted_os plain_args two_lines 5 [[0%nat]]
            (set_all_done false (set_line_num 0 interrupted_setup)) with
    | Some (Throw _ st) => st
    | _ => boot 0 []
    end.

(** ** Requests that differ in one component *)

Definition with_num_cpus (v : Z) (a : args) : args :=
  mk_args (args_copy_forward a) (args_copy_backwards a) (machines a) v
    (memory_required a) (reserve a) (no_reserve_gpu a) (no_gpu_required a)
    (gpu_memory_required a) (gpu_utilization a) (args_verbose a) (dry_run a)
    (kabuki_commands a) (filename a).

Definition with_memory_required (v : Z) (a : args) : args :=
  mk_args (args_copy_forward a) (args_copy_backwards a) (machines a) (num_cpus a)
    v (reserve a) (no_reserve_gpu a) (no_gpu_required a)
    (gpu_memory_required a) (gpu_utilization a) (args_verbose a) (dry_run a)
    (kabuki_commands a) (filename a).

Definition with_gpu_memory_required (v : Z) (a : args) : args :=
  mk_args (args_copy_forward a) (args_copy_backwards a) (machines a) (num_cpus a)
    (memory_required a) (reserve a) (no_reserve_gpu a) (no_gpu_required a)
    v (gpu_utilization a) (args_verbose a) (dry_run a)
    (kabuki_commands a) (filename a).

Definition with_gpu_utilization (v : float) (a : args) : args :=
  mk_args (args_copy_forward a) (args_copy_backwards a) (machines a) (num_cpus a)
    (memory_required a) (reserve a) (no_reserve_gpu a) (no_gpu_required a)
    (gpu_memory_required a) v (args_verbose a) (dry_run a)
    (kabuki_commands a) (filename a).

(** The second machine is the first with no more free memory. *)
Definition less_memory (m m' : machine_limit) : Prop :=
  cpu_usage m' = cpu_usage m /\ cpu_count m' = cpu_count m
  /\ reserved m' = reserved m /\ gpus m' = gpus m
  /\ mem_free m' <= mem_free m.

(** The second machine is the first with no more CPUs left. *)
Definition fewer_cpus (m m' : machine_limit) : Prop :=
  cpu_usage m' = cpu_usage m /\ mem_free m' = mem_free m
  /\ reserved m' = reserved m /\ gpus m' = gpus m
  /\ float_le (cpu_count m') (cpu_count m).

(** ** Two runs of the planner side by side *)

(** The GPU part of [machine_limit_over]. *)
Definition gpus_over (gs : list gpu) : bool :=
  any (fun g => g_free g <? 0) gs
  || any (fun g => (1.2 <? g_utilization g)%float) gs
  || any (fun g => 1 <? g_reserved g) gs.

(** A GPU entry that does not put the machine over capacity. *)
Definition within (g : gpu) : Prop :=
  0 <= g_free g /\ (1.2 <? g_utilization g)%float = false /\ g_reserved g <= 1.

#[export] Instance within_dec g : Decision (within g).
Proof. unfold within. apply _. Defined.

(** The counters of the machine that every charged unit moves the same way,
    whatever GPU it lands on. *)
Definition tally (m : machine_limit) : Z * float * Z :=
  (reserved m, cpu_count m, mem_free m).

Definition tally_step (a : args) (n : float) (t : Z * float * Z) : Z * float * Z :=
  let '(r, c, f) := t in
  (if reserve a then r + 1 else r, (c - n)%float, f - memory_required a).

Definition tally_over (t : Z * float * Z) : bool :=
  let '(r, c, f) := t in (1 <? r) || (c <? -2)%float || (f <? 0).

(** The entry at [i] is where the scan of [gs] ends if it ever holds it: it
    is the last one, or it is usable and nothing after it is strictly less
    utilized. *)
Definition stable (a : args) (gs : list gpu) (i : nat) : Prop :=
  exists g, gs !! i = Some g /\
    (S i = length gs \/
     (gpu_usable a g /\
      forall j h, (i < j)%nat -> gs !! j = Some h ->
        float_le (g_utilization g) (g_utilization h))).

(** An entry the scan can never end on again: it is not the last and is
    reserved or short of memory, or a dead entry after it is strictly less
    utilized. *)
Inductive dead (a : args) (gs : list gpu) : nat -> Prop :=
| dead_unusable i g :
    gs !! i = Some g -> (S i < length gs)%nat -> ~ gpu_usable a g -> dead a gs i
| dead_shadowed i j g h :
    (i < j)%nat -> gs !! i = Some g -> gs !! j = Some h -> dead a gs j ->
    (g_utilization h <? g_utilization g)%float = true -> dead a gs i.

(** [h] was charged as often as [g], by a request for no more memory. *)
Definition agree (h g : gpu) : Prop :=
  g_utilization h = g_utilization g /\ g_reserved h = g_reserved g
  /\ g_free g <= g_free h.

(** The GPUs [hs] of the run with the smaller memory request against the
    GPUs [gs] of the run with the larger request [b]: the smaller run is
    ahead only on entries that are dead in the larger one. *)
Definition lagging (b : args) (hs gs : list gpu) : Prop :=
  length hs = length gs /\
  forall i h g, hs !! i = Some h -> gs !! i = Some g ->
    float_le 0 (g_utilization g)
    /\ float_le (g_utilization g) (g_utilization h)
    /\ (agree h g \/ within h)
    /\ (~ dead b gs i -> agree h g).

(** ** Further inputs and predicates *)

(** The largest int that [float()] accepts without question: the largest
    finite binary64 number, [2^1024 - 2^971]. *)
Definition float_max : Z := 2 ^ 1024 - 2 ^ 971.

(** What a recorded GPU index may be: 0 for a request without GPU, else a
    position in the machine's list. *)
Definition index_ok (a : args) (n : nat) (i : nat) : Prop :=
  if no_gpu_required a then i = 0%nat else (i < n)%nat.

(** A request that takes nothing from the machine. *)
Definition free_request (a : args) : Prop :=
  no_gpu_required a = true /\ reserve a = false
  /\ num_cpus a = 0 /\ memory_required a = 0.

(** Three GPUs of which only the middle one is free. *)
Definition three_gpus : list gpu :=
  [ mk_gpu "g0" 6000 4000 0.25%float 1;
    mk_gpu "g1" 6000 5000 0.5%float 0;
    mk_gpu "g2" 6000 4000 0.75%float 1 ].

(** The machine of the docstring with more CPUs than a float can count. *)
Definition too_many_cpus : machine_info :=
  mk_machine_info 0.124%float 30607 (2 ^ 1024)
    [ mk_gpu_info "a" 5934 5933 0.0%float ].

(** The default request without GPU, asking for no CPU and no memory. *)
Definition nothing_args : args :=
  mk_args [] [] [] 0 0 false false true 1000 0.75%float
    false false false EmptyString.

(** No character of [s] is whitespace. *)
Fixpoint no_space (s : string) : bool :=
  match s with
  | EmptyString => true
  | String c rest => negb (py_isspace c) && no_space rest
  end.

(** A string that [split] returns as it is: not empty, no whitespace. *)
Definition py_word (s : string) : Prop := s <> "" /\ no_space s = true.

(** The words of the command line of lines 99-100 when no value put into it
    holds whitespace or is empty, before the job text. *)
Definition basic_argv `{Library} (machine job_name : string)
    (cf cb : list string) (v : bool) : list string :=
  ["python"; "-u"; basic_run_py; "--copy-forward"] ++ cf
  ++ ["--copy-backwards"] ++ cb
  ++ ["--machine=" +:+ machine; "--job-name=" +:+ job_name]
  ++ (if v then ["--verbose"] else []).

(** What [split] does with the word read so far when the word ends. *)
Definition flush (word : string) : list string :=
  if String.eqb word "" then [] else [word].

(** The [Popen] object that line 195 creates for a job. *)
Definition job_process (job_cmd : list string) (job_name : string) : popen :=
  mk_popen job_cmd ("./job_results/" +:+ job_name +:+ ".out")
    ("./job_results/" +:+ job_name +:+ ".err") None [].

(** A world with no markers in which the user interrupts the fifth system
    call, and a machine with one empty slot. *)
Definition sleep_interrupted_os : OS :=
  {| path_exists := fun _ _ => false;
     poll_result := fun _ _ => None;
     wait_result := fun _ _ => Some (-2);
     raised := fun t => if (t =? 4)%nat then Some KeyboardInterrupt else None |}.

Definition one_slot_state : state := set_machine_procs [[None]] (boot 0 []).

Definition orphan_state : state :=
  Eval vm_compute in
    match @launch_or_skip sleep_interrupted_os plain_args 0 0 0 ["echo"; "one"]
            "jobs.txt.1" "echo one" one_slot_state with
    | Throw _ st => st
    | _ => boot 0 []
    end.

(** The slot arrays have the sizes the planner gave them. *)
Definition slots_as_planned (machine_gpu_choices : list (list nat)) (st : state)
    : Prop :=
  length <$> machine_procs st = length <$> machine_gpu_choices.

(** From [st0] on, the line counter has not gone back nor past the last
    line, and the names of the lines already taken are unchanged. *)
Definition names_kept (lines : list string) (st0 st : state) : Prop :=
  (line_num st0 <= line_num st)%nat
  /\ ((line_num st0 <= length lines)%nat -> (line_num st <= length lines)%nat)
  /\ forall n, (n < line_num st0)%nat -> job_names st !! n = job_names st0 !! n.

(** A plain run over two marked lines, and the state it ends in. *)
Definition marked_final : state :=
  Eval vm_compute in
    match @schedule plain_library marked_os plain_args two_lines 3 [[0%nat]]
            (boot 0 []) with
    | Some (Return _ st) => st
    | _ => boot 0 []
    end.

(** The interrupted batch of two lines, entered with the first line already
    taken, and the state it is interrupted in. *)
Definition second_line_state : state :=
  set_all_done false (set_line_num 1 interrupted_setup).

Definition second_line_final : state :=
  Eval vm_compute in
    match @sched_loop plain_library interrupted_os plain_args two_lines 5 [[0%nat]]
            second_line_state with
    | Some (Throw _ st) => st
    | _ => boot 0 []
    end.

(** Nothing was spawned, no file was opened and every slot is empty. *)
Definition quiet (st : state) : Prop :=
  popens st = [] /\ held st = [] /\ opened st = [].

(** What holds inside one turn of a dry run that started at line [ln0]. *)
Definition rehearsing (lines : list string) (ln0 : nat) (st : state) : Prop :=
  quiet st /\ (line_num st <= length lines)%nat
  /\ (ln0 <= line_num st)%nat
  /\ (all_done st = true \/ (ln0 < line_num st)%nat).

(** The plain batch of two lines as a dry run, in a world without markers. *)
Definition dry_args : args :=
  mk_args [] [] ["beta"] 1 7000 false false false 1000 0.75%float
    false true false "jobs.txt".

Definition unmarked_os : OS :=
  {| path_exists := fun _ _ => false;
     poll_result := fun _ _ => None;
     wait_result := fun _ _ => None;
     raised := fun _ => None |}.

(** The slot [i] of machine [mi], if there is one, is empty and was left
    empty because no line remained. *)
Definition settled (lines : list string) (st : state) (mi i : nat) : Prop :=
  match get_slot mi i st with
  | None => True
  | Some None => (length lines <= line_num st)%nat
  | Some (Some _) => False
  end.

(** While [all_done] stands in a turn of the loop, every slot that the turn
    has passed, those before slot [i] of machine [mi], is settled. *)
Definition done_upto (lines : list string) (mi i : nat) (st : state) : Prop :=
  all_done st = true ->
  forall mi' i', (mi' < mi)%nat \/ (mi' = mi /\ (i' < i)%nat) -> settled lines st mi' i'.

Definition done_all (lines : list string) (st : state) : Prop :=
  all_done st = true -> forall mi i, settled lines st mi i.

(** ** Probing the machines: [run_all] and [find_all_machine_info] *)

(** What [communicate()] hands back once a process has exited: the bytes of
    its two pipes and its return code. *)
Record finished : Type := mk_finished {
  f_stdout : string;
  f_stderr : string;
  f_returncode : Z
}.

(** What the world answers to [communicate()]. *)
Inductive answer : Type :=
| Exits (f : finished)
| Interrupts (e : exn)       (* an exception arrives while waiting *)
| Never.                     (* the process does not exit *)

(** What can leave the probing functions besides the exceptions of the
    scheduler. *)
Inductive probe_exn : Type :=
| Escaped (e : exn)
| UnicodeDecodeError
| RuntimeError (message : string).

(** What the module takes from outside for probing: the machine
    configurations, [get_full_command], [basic_run.make_ssh_command],
    [parse_full_output], [json.dumps] (taken to accept the configurations,
    which are loaded from YAML), [bytes.decode("utf-8")], the text [print]
    shows for a [bytes] object, and the behaviour of the [k]-th process
    that is started. *)
Class Probe : Type := {
  machine_config : Type;
  get_full_command : string;
  make_ssh_command : machine_config -> string -> list string;
  (* applied to an output as it is: a string, or [None] *)
  parse_full_output : option string -> result machine_info;
  json_dumps : list (machine_config * string) -> string;
  decode_utf8 : string -> option string;
  bytes_repr : string -> string;
  (* the exception [Popen] raises for the [k]-th command, if any *)
  popen_raises : nat -> list string -> option exn;
  communicate : nat -> list string -> answer
}.

(** The result of a probing function and what it printed to [sys.stderr]. *)
Inductive ran (A : Type) : Type :=
| Returned (a : A) (err : list string)
| Raised (e : probe_exn) (err : list string)
| Blocks.
Arguments Returned {A} a err.
Arguments Raised {A} e err.
Arguments Blocks {A}.

Section Probing.
Context `{Probe}.

(** Lines 21-24: every command is started before any output is read. *)
Fixpoint spawn_all (k : nat) (commands : list (list string)) : option exn :=
  match commands with
  | [] => None
  | command :: rest =>
      match popen_raises k command with
      | Some e => Some e
      | None => spawn_all (S k) rest
      end
  end.

(** Lines 26-34, from the [k]-th process on. *)
Fixpoint collect (k : nat) (procs : list (list string))
    (outputs : list (option string)) (err : list string)
    : ran (list (option string)) :=
  match procs with
  | [] => Returned outputs err
  | command :: rest =>
      match communicate k command with
      | Never => Blocks
      | Interrupts e => Raised (Escaped e) err
      | Exits f =>
          let err := err ++ [bytes_repr (f_stderr f)] in
          if negb (f_returncode f =? 0)
          then collect (S k) rest (outputs ++ [None])
                 (err ++ [bytes_repr (f_stdout f)])
          else
            match decode_utf8 (f_stdout f) with
            | None => Raised UnicodeDecodeError err
            | Some out => collect (S k) rest (outputs ++ [Some out]) err
            end
      end
  end.

Definition run_all (commands : list (list string)) : ran (list (option string)) :=
  match spawn_all 0 commands with
  | Some e => Raised (Escaped e) []
  | None => collect 0 commands [] []
  end.

(** The truth value of an output: [None] and the empty string are false. *)
Definition truthy (out : option string) : bool :=
  match out with
  | None => false
  | Some s => negb (String.eqb s "")
  end.

(** Line 42: the machines whose output is [None], with their commands. *)
Definition fail_machines (outputs : list (option string))
    (machines : list machine_config) (commands : list (list string))
    : list (machine_config * string) :=
  omap (fun omc : option string * (machine_config * list string) =>
          match fst omc with
          | None => Some (fst (snd omc), py_join " " (snd (snd omc)))
          | Some _ => None
          end)
       (zip outputs (zip machines commands)).

(** Line 44: the comprehension stops at the first output the parser
    rejects. *)
Fixpoint parse_all (outputs : list (option string)) : result (list machine_info) :=
  match outputs with
  | [] => Ok []
  | out :: rest =>
      try! info := parse_full_output out in
      try! infos := parse_all rest in
      Ok (info :: infos)
  end.

Definition find_all_machine_info (machines : list machine_config)
    : ran (list machine_info) :=
  let cmd := get_full_command in
  let commands := map (fun mac => make_ssh_command mac cmd) machines in
  match run_all commands with
  | Returned outputs err =>
      if negb (forallb truthy outputs)
      then Raised (RuntimeError ("could not connect to machines: "
                                 +:+ json_dumps (fail_machines outputs machines commands)))
             err
      else
        match parse_all outputs with
        | Ok parsed_outs => Returned parsed_outs err
        | Raise e => Raised (Escaped e) err
        end
  | Raised e err => Raised e err
  | Blocks => Blocks
  end.

(** The output [run_all] records for a process that exited. *)
Definition recorded (f : finished) : option string :=
  if f_returncode f =? 0 then decode_utf8 (f_stdout f) else None.

End Probing.

(** Three machines: the first answers, the second exits with code 0
    and prints nothing, the third cannot be reached. *)
Definition lab_probe : Probe := {|
  machine_config := string;
  get_full_command := "query";
  make_ssh_command := fun mac cmd => ["ssh"; mac; cmd];
  parse_full_output := fun out =>
    match out with
    | Some _ => Ok (example_info "gpu0" "gpu1")
    | None => Raise TypeError
    end;
  json_dumps := fun failed => "[" +:+ py_join ", " (map fst failed) +:+ "]";
  decode_utf8 := Some;
  bytes_repr := fun s => "b'" +:+ s +:+ "'";
  popen_raises := fun _ _ => None;
  communicate := fun k _ =>
    match k with
    | 0%nat => Exits (mk_finished "cpus 24" "" 0)
    | 1%nat => Exits (mk_finished "" "" 0)
    | _ => Exits (mk_finished "" "denied" 255)
    end
|}.

Definition lab_commands : list (list string) :=
  [["ssh"; "alpha"; "query"]; ["ssh"; "beta"; "query"]; ["ssh"; "gamma"; "query"]].

(** * Properties *)

(** ** The planner's loop *)

Lemma process_loop_fuel_mono (fuel fuel' : nat) m a acc r :
  process_loop fuel m a acc = Some r -> (fuel <= fuel')%nat ->
  process_loop fuel' m a acc = Some r.
Proof.
  revert fuel' m acc.
  induction fuel as [|fuel IH]; intros fuel' m acc H Hle; [discriminate|].
  destruct fuel' as [|fuel']; [lia|].
  simpl in *.
  destruct (subtract_process_req m a) as [[m' i]|e]; [|exact H].
  destruct (machine_limit_over m'); [exact H|].
  apply IH; [exact H|lia].
Qed.

Lemma get_process_limit_fuel_mono (fuel fuel' : nat) s a r :
  get_process_limit fuel s a = Some r -> (fuel <= fuel')%nat ->
  get_process_limit fuel' s a = Some r.
Proof.
  unfold get_process_limit.
  destruct (_ && _); [auto|].
  destruct (init_machine_limit s); [|auto].
  apply process_loop_fuel_mono.
Qed.

(** The loop returns [l] exactly when some iteration [n+1] is the first one
    that is over capacity, and [l] extends the accumulator by the indices of
    the [n] iterations before it. *)
Lemma process_loop_spec (fuel : nat) m a acc l :
  process_loop fuel m a acc = Some (Ok l) <->
  exists n mn ln mo i,
    (n < fuel)%nat /\
    charges n m a = Ok (mn, ln) /\ l = acc ++ ln /\
    (forall k mk lk, (0 < k <= n)%nat -> charges k m a = Ok (mk, lk) ->
       machine_limit_over mk = false) /\
    subtract_process_req mn a = Ok (mo, i) /\ machine_limit_over mo = true.
Proof.
  revert m acc l.
  induction fuel as [|fuel IH]; intros m acc l.
  - split; [discriminate|]. intros (n & ? & ? & ? & ? & Hn & _). lia.
  - simpl. destruct (subtract_process_req m a) as [[m' i]|e] eqn:Hsub.
    + destruct (machine_limit_over m') eqn:Hover.
      * split.
        -- intros [= <-]. exists 0%nat, m, [], m', i. simpl.
           rewrite app_nil_r. repeat split; auto; try lia.
        -- intros (n & mn & ln & mo & i' & Hn & Hch & -> & Hall & Hs & Ho).
           destruct n as [|n].
           ++ simpl in Hch. injection Hch as <- <-. now rewrite app_nil_r.
           ++ exfalso. simpl in Hch. rewrite Hsub in Hch.
              assert (Hone : charges 1 m a = Ok (m', [i])) by (simpl; now rewrite Hsub).
              specialize (Hall 1%nat m' [i]). rewrite Hall in Hover; [discriminate|lia|exact Hone].
      * rewrite IH. split.
        -- intros (n & mn & ln & mo & i' & Hn & Hch & -> & Hall & Hs & Ho).
           exists (S n), mn, (i :: ln), mo, i'. simpl. rewrite Hsub, Hch.
           repeat split; auto; try lia.
           ++ now rewrite <- app_assoc.
           ++ intros k mk lk Hk Hck. destruct k as [|k]; [lia|].
              simpl in Hck. rewrite Hsub in Hck.
              destruct k as [|k].
              ** simpl in Hck. injection Hck as <- <-. exact Hover.
              ** destruct (charges (S k) m' a) as [[m2 l2]|] eqn:Hc2; [|discriminate].
                 injection Hck as <- <-. eapply (Hall (S k)); [lia|exact Hc2].
        -- intros (n & mn & ln & mo & i' & Hn & Hch & -> & Hall & Hs & Ho).
           destruct n as [|n].
           ++ simpl in Hch. injection Hch as <- <-.
              rewrite Hsub in Hs. injection Hs as <- <-. congruence.
           ++ simpl in Hch. rewrite Hsub in Hch.
              destruct (charges n m' a) as [[m2 l2]|] eqn:Hc2; [|discriminate].
              injection Hch as <- <-.
              exists n, m2, l2, mo, i'. repeat split; auto; try lia.
              ** now rewrite <- app_assoc.
              ** intros k mk lk Hk Hck. apply (Hall (S k) mk (i :: lk)); [lia|].
                 simpl. now rewrite Hsub, Hck.
    + split; [discriminate|].
      intros (n & mn & ln & mo & i' & Hn & Hch & -> & Hall & Hs & Ho).
      destruct n; simpl in Hch; [|now rewrite Hsub in Hch].
      injection Hch as <- <-. congruence.
Qed.

Lemma charges_length n m a mn ln :
  charges n m a = Ok (mn, ln) -> length ln = n.
Proof.
  revert m mn ln. induction n as [|n IH]; intros m mn ln; simpl.
  - now intros [= <- <-].
  - destruct (subtract_process_req m a) as [[m1 i]|]; [|discriminate].
    destruct (charges n m1 a) as [[m2 l]|] eqn:Hc; [|discriminate].
    intros [= <- <-]. simpl. f_equal. eauto.
Qed.


(** ** The scan *)

Lemma scan_replaces_spec a (best : option (nat * gpu)) cand :
  scan_replaces a (snd <$> best) cand = true <-> spec_replaces a best cand.
Proof.
  destruct best as [[i b]|]; simpl; [|tauto].
  rewrite !orb_true_iff, negb_true_iff, Z.eqb_neq, Z.leb_le. tauto.
Qed.

(** The loop variables stay in step: [gpu_choice] is the entry at
    [gpu_idx]. *)
Lemma gpu_scan_fold a (l : list gpu) (i : nat) (best : option (nat * gpu)) (idx0 : nat) :
  gpu_scan a l i (snd <$> best) (from_option fst idx0 best)
  = let r := fold_left
               (fun best (cand : nat * gpu) =>
                  if decide (spec_replaces a best (snd cand)) then Some cand else best)
               (imap (fun j => pair (i + j)%nat) l) best in
    (snd <$> r, from_option fst idx0 r).
Proof.
  revert i best. induction l as [|g l IH]; intros i best; simpl; [reflexivity|].
  rewrite Nat.add_0_r.
  destruct (decide (spec_replaces a best g)) as [Hd|Hd].
  - apply scan_replaces_spec in Hd. rewrite Hd.
    specialize (IH (S i) (Some (i, g))). simpl in IH. rewrite IH.
    f_equal; f_equal; f_equal; apply imap_ext; intros; simpl; f_equal; lia.
  - destruct (scan_replaces a (snd <$> best) g) eqn:Hs.
    { apply scan_replaces_spec in Hs. contradiction. }
    rewrite (IH (S i) best).
    f_equal; f_equal; f_equal; apply imap_ext; intros; simpl; f_equal; lia.
Qed.

Lemma gpu_scan_spec a (l : list gpu) :
  gpu_scan a l 0 None 0
  = (snd <$> spec_scan a l, from_option fst 0%nat (spec_scan a l)).
Proof. apply (gpu_scan_fold a l 0 None 0). Qed.

(** Whatever the fold holds is an entry of the list at its own position. *)
Lemma scan_fold_lookup a (l : list gpu) (i : nat) (best : option (nat * gpu))
    (whole : list gpu) idx c :
  (forall j g, l !! j = Some g -> whole !! (i + j)%nat = Some g) ->
  (forall j g, best = Some (j, g) -> whole !! j = Some g) ->
  fold_left
    (fun best (cand : nat * gpu) =>
       if decide (spec_replaces a best (snd cand)) then Some cand else best)
    (imap (fun j => pair (i + j)%nat) l) best = Some (idx, c) ->
  whole !! idx = Some c.
Proof.
  revert i best. induction l as [|g l IH]; intros i best Hl Hb; simpl.
  - intros ->. eauto.
  - rewrite Nat.add_0_r. intros Hf.
    eapply (IH (S i)); [| |erewrite imap_ext; [exact Hf|]].
    + intros j g' Hj. replace (S i + j)%nat with (i + S j)%nat by lia. now apply Hl.
    + intros j g'. destruct (decide _); [|now apply Hb].
      intros [= <- <-]. specialize (Hl 0%nat g eq_refl). now rewrite Nat.add_0_r in Hl.
    + intros; simpl; f_equal; lia.
Qed.

Lemma spec_scan_lookup a (l : list gpu) idx c :
  spec_scan a l = Some (idx, c) -> l !! idx = Some c.
Proof.
  apply (scan_fold_lookup a l 0 None l); [auto|discriminate].
Qed.

Lemma spec_scan_nonempty a g (l : list gpu) : is_Some (spec_scan a (g :: l)).
Proof.
  unfold spec_scan. simpl.
  generalize (imap (pair ∘ S) l). generalize (0%nat, g).
  intros p l0. revert p. induction l0 as [|q l0 IH]; intros p; simpl; [eauto|].
  destruct (decide _); apply IH.
Qed.

Lemma subtract_process_req_gpu m a m' idx :
  no_gpu_required a = false ->
  subtract_process_req m a = Ok (m', idx) ->
  exists c, spec_scan a (gpus m) = Some (idx, c)
    /\ gpus m' = <[idx := charge_gpu a c]> (gpus m).
Proof.
  intros Hg. unfold subtract_process_req.
  destruct (float_of_int (num_cpus a)) as [n|]; simpl; [|discriminate].
  rewrite Hg, gpu_scan_spec.
  destruct (spec_scan a (gpus m)) as [[i c]|]; simpl; [|discriminate].
  intros [= <- <-]. eauto.
Qed.

(** C2: for a request that needs a GPU, the unit is charged to the GPU that
    the specification's left-to-right fold selects; that entry loses
    [gpu_memory_required] of free memory and gains [gpu_utilization], and
    every other entry is left as it was. *)
Theorem C2_scan_then_charge (m : machine_limit) (a : args) m' idx :
  no_gpu_required a = false ->
  subtract_process_req m a = Ok (m', idx) ->
  exists c c',
    spec_scan a (gpus m) = Some (idx, c)
    /\ gpus m !! idx = Some c
    /\ gpus m' !! idx = Some c'
    /\ g_free c' = g_free c - gpu_memory_required a
    /\ g_utilization c' = (g_utilization c + gpu_utilization a)%float
    /\ length (gpus m') = length (gpus m)
    /\ forall j, j <> idx -> gpus m' !! j = gpus m !! j.
Proof.
  intros Hg Hs.
  destruct (subtract_process_req_gpu m a m' idx Hg Hs) as (c & Hscan & Hgpus).
  pose proof (spec_scan_lookup _ _ _ _ Hscan) as Hc.
  exists c, (charge_gpu a c). rewrite Hgpus.
  repeat split; auto.
  - apply list_lookup_insert_eq. now apply lookup_lt_Some in Hc.
  - unfold charge_gpu. now destruct (no_reserve_gpu a).
  - unfold charge_gpu. now destruct (no_reserve_gpu a).
  - apply length_insert.
  - intros j Hj. now apply list_lookup_insert_ne.
Qed.



Lemma C2_scan_then_charge_witness :
  no_gpu_required default_args = false
  /\ subtract_process_req C2_machine default_args = Ok (C2_machine_after, 1%nat)
  /\ exists c c',
       spec_scan default_args (gpus C2_machine) = Some (1%nat, c)
       /\ gpus C2_machine !! 1%nat = Some c
       /\ gpus C2_machine_after !! 1%nat = Some c'
       /\ g_free c' = g_free c - gpu_memory_required default_args
       /\ g_utilization c' = (g_utilization c + gpu_utilization default_args)%float
       /\ length (gpus C2_machine_after) = length (gpus C2_machine)
       /\ forall j, j <> 1%nat -> gpus C2_machine_after !! j = gpus C2_machine !! j.
Proof.
  split; [reflexivity|]. split; [vm_compute; reflexivity|].
  apply (C2_scan_then_charge C2_machine default_args C2_machine_after 1%nat);
    [reflexivity | vm_compute; reflexivity].
Defined.

(** ** The planner's results *)

(** C1: on the docstring's machine with the default request the planner
    returns the two assignments 0 and 1: more than one slot, and the GPU
    index of slot [i] is [i mod 2]. *)
Theorem C1_docstring_example (n0 n1 : string) (fuel : nat) :
  (3 <= fuel)%nat ->
  exists l,
    get_process_limit fuel (example_info n0 n1) default_args = Some (Ok l)
    /\ l = [0%nat; 1%nat]
    /\ (1 < length l)%nat
    /\ forall i x, l !! i = Some x -> x = (i mod 2)%nat.
Proof.
  intros Hfuel. exists [0%nat; 1%nat]. repeat split.
  - apply (get_process_limit_fuel_mono 3); [|exact Hfuel].
    vm_compute. reflexivity.
  - simpl. lia.
  - intros [|[|i]] x; simpl; try discriminate; now intros [= <-].
Qed.

Lemma C1_docstring_example_witness :
  (3 <= 3)%nat
  /\ exists l,
       get_process_limit 3 (example_info "GeForce RTX 2060" "GeForce RTX 2060")
         default_args = Some (Ok l)
       /\ l = [0%nat; 1%nat]
       /\ (1 < length l)%nat
       /\ forall i x, l !! i = Some x -> x = (i mod 2)%nat.
Proof.
  split; [lia|].
  apply (C1_docstring_example "GeForce RTX 2060" "GeForce RTX 2060" 3). lia.
Defined.

Lemma any_true_iff {A} (p : A -> bool) (l : list A) :
  any p l = true <-> exists x, x ∈ l /\ p x = true.
Proof.
  unfold any. rewrite existsb_exists.
  split; intros (x & Hx & Hp); exists x; split; auto; now apply list_elem_of_In.
Qed.

(** C3: the over-capacity test is the six-way disjunction with the
    constants [-2] and [1.2], and a returned sequence holds the indices of
    the iterations before the first one that is over capacity, whose own
    index is dropped. *)
Theorem C3_over_capacity_and_cut :
  (forall m : machine_limit,
     machine_limit_over m = true <->
       1 < reserved m
       \/ (cpu_count m <? -2)%float = true
       \/ mem_free m < 0
       \/ (exists g, g ∈ gpus m /\ g_free g < 0)
       \/ (exists g, g ∈ gpus m /\ (1.2 <? g_utilization g)%float = true)
       \/ (exists g, g ∈ gpus m /\ 1 < g_reserved g))
  /\ (forall (fuel : nat) (s : machine_info) (a : args) (m0 : machine_limit) (l : list nat),
        init_machine_limit s = Ok m0 ->
        (mi_gpus s = [] -> no_gpu_required a = true) ->
        (get_process_limit fuel s a = Some (Ok l) <->
         exists mn mo i,
           (length l < fuel)%nat
           /\ charges (length l) m0 a = Ok (mn, l)
           /\ (forall k mk lk, (0 < k <= length l)%nat ->
                 charges k m0 a = Ok (mk, lk) -> machine_limit_over mk = false)
           /\ subtract_process_req mn a = Ok (mo, i)
           /\ machine_limit_over mo = true)).
Proof.
  split.
  - intros m. unfold machine_limit_over.
    rewrite !orb_true_iff, !any_true_iff. setoid_rewrite Z.ltb_lt. tauto.
  - intros fuel s a m0 l Hinit Hgpus. unfold get_process_limit.
    replace ((match mi_gpus s with [] => true | _ => false end)
             && negb (no_gpu_required a)) with false.
    2:{ destruct (mi_gpus s); [rewrite Hgpus|]; auto. }
    rewrite Hinit, process_loop_spec. split.
    + intros (n & mn & ln & mo & i & Hn & Hch & -> & Hall & Hs & Ho).
      simpl. pose proof (charges_length _ _ _ _ _ Hch) as Hlen. subst n.
      exists mn, mo, i. repeat split; auto.
    + intros (mn & mo & i & Hn & Hch & Hall & Hs & Ho).
      exists (length l), mn, l, mo, i. repeat split; auto.
Qed.

(** C9: with no GPU on the machine and a request that needs one, the planner
    returns the empty sequence, before any iteration and without raising. *)
Theorem C9_no_gpu_machine (fuel : nat) (s : machine_info) (a : args) :
  mi_gpus s = [] ->
  no_gpu_required a = false ->
  get_process_limit fuel s a = Some (Ok []).
Proof.
  intros Hg Ha. unfold get_process_limit. now rewrite Hg, Ha.
Qed.

Lemma C9_no_gpu_machine_witness :
  mi_gpus (mk_machine_info 0.5%float 1000 8 []) = []
  /\ no_gpu_required default_args = false
  /\ get_process_limit 0 (mk_machine_info 0.5%float 1000 8 []) default_args
     = Some (Ok []).
Proof.
  split; [reflexivity|]. split; [reflexivity|].
  apply (C9_no_gpu_machine 0 (mk_machine_info 0.5%float 1000 8 []) default_args);
    reflexivity.
Defined.

Lemma subtract_process_req_reserved m a m' idx :
  subtract_process_req m a = Ok (m', idx) ->
  reserved m' = if reserve a then reserved m + 1 else reserved m.
Proof.
  unfold subtract_process_req.
  destruct (float_of_int (num_cpus a)); simpl; [|discriminate].
  destruct (no_gpu_required a); [now intros [= <- <-]|].
  destruct (gpu_scan a (gpus m) 0 None 0) as [[c|] i]; [|discriminate].
  now intros [= <- <-].
Qed.

Lemma init_machine_limit_reserved s m :
  init_machine_limit s = Ok m -> reserved m = 0.
Proof.
  unfold init_machine_limit.
  destruct (float_of_int (mi_cpu_count s)); simpl; [|discriminate].
  now intros [= <-].
Qed.

Lemma machine_limit_over_reserved m :
  1 < reserved m -> machine_limit_over m = true.
Proof.
  intros Hr. unfold machine_limit_over.
  apply Z.ltb_lt in Hr. now rewrite Hr.
Qed.

(** C10: with the whole-machine reservation set, the planner is done within
    two iterations, and a sequence it returns has at most one element. *)
Theorem C10_reserve_at_most_one (s : machine_info) (a : args) :
  reserve a = true ->
  (exists r, get_process_limit 2 s a = Some r)
  /\ forall fuel l, get_process_limit fuel s a = Some (Ok l) -> (length l <= 1)%nat.
Proof.
  intros Hres.
  assert (Htwo : exists r, get_process_limit 2 s a = Some r
                   /\ forall l, r = Ok l -> (length l <= 1)%nat).
  { unfold get_process_limit.
    destruct (_ && _); [exists (Ok []); split; [auto|intros l [= <-]; simpl; lia]|].
    destruct (init_machine_limit s) as [m0|e] eqn:Hinit;
      [|exists (Raise e); split; [auto|discriminate]].
    apply init_machine_limit_reserved in Hinit.
    simpl.
    destruct (subtract_process_req m0 a) as [[m1 i1]|e] eqn:H1;
      [|exists (Raise e); split; [auto|discriminate]].
    apply subtract_process_req_reserved in H1. rewrite Hres, Hinit in H1.
    destruct (machine_limit_over m1);
      [exists (Ok []); split; [auto|intros l [= <-]; simpl; lia]|].
    destruct (subtract_process_req m1 a) as [[m2 i2]|e] eqn:H2;
      [|exists (Raise e); split; [auto|discriminate]].
    apply subtract_process_req_reserved in H2. rewrite Hres, H1 in H2.
    rewrite machine_limit_over_reserved by (rewrite H2; lia).
    exists (Ok [i1]). split; [auto|intros l [= <-]; simpl; lia]. }
  destruct Htwo as (r & Hr & Hlen). split; [eauto|].
  intros fuel l Hl.
  apply Hlen.
  pose proof (get_process_limit_fuel_mono _ (Nat.max fuel 2) _ _ _ Hl (Nat.le_max_l _ _)) as E1.
  pose proof (get_process_limit_fuel_mono _ (Nat.max fuel 2) _ _ _ Hr (Nat.le_max_r _ _)) as E2.
  congruence.
Qed.

Lemma C10_reserve_at_most_one_witness :
  reserve reserve_args = true
  /\ (exists r, get_process_limit 2 (example_info "a" "b") reserve_args = Some r)
  /\ forall fuel l,
       get_process_limit fuel (example_info "a" "b") reserve_args = Some (Ok l) ->
       (length l <= 1)%nat.
Proof.
  split; [reflexivity|].
  apply (C10_reserve_at_most_one (example_info "a" "b") reserve_args). reflexivity.
Defined.

Lemma C3_over_capacity_and_cut_witness :
  init_machine_limit (example_info "a" "b") = Ok (example_limit "a" "b")
  /\ (mi_gpus (example_info "a" "b") = [] -> no_gpu_required default_args = true)
  /\ (get_process_limit 3 (example_info "a" "b") default_args
        = Some (Ok [0%nat; 1%nat]) <->
      exists mn mo i,
        (length [0%nat; 1%nat] < 3)%nat
        /\ charges (length [0%nat; 1%nat]) (example_limit "a" "b") default_args
           = Ok (mn, [0%nat; 1%nat])
        /\ (forall k mk lk, (0 < k <= length [0%nat; 1%nat])%nat ->
              charges k (example_limit "a" "b") default_args = Ok (mk, lk) ->
              machine_limit_over mk = false)
        /\ subtract_process_req mn default_args = Ok (mo, i)
        /\ machine_limit_over mo = true).
Proof.
  split; [vm_compute; reflexivity|]. split; [discriminate|].
  apply (proj2 C3_over_capacity_and_cut 3%nat (example_info "a" "b") default_args
           (example_limit "a" "b") [0%nat; 1%nat]);
    [vm_compute; reflexivity | discriminate].
Defined.

(** ** Which GPU the scan can pick *)

(** C4, refuted: in the second iteration on [busy_first_info] the first GPU
    is unreserved with memory to spare, yet the scan moves to the second,
    already reserved, GPU because it is less utilized; and on
    [exact_fit_info] the first GPU would be left with exactly zero free
    memory, which the scan counts as too little. *)
Lemma C4_reserved_gpu_chosen :
  (exists m l g c idx,
     init_machine_limit busy_first_info = Ok (mk_machine_limit 0 30000 24 0
        [ mk_gpu "g0" 6000 5000 0.5 0; mk_gpu "g1" 6000 5000 0 0 ])
     /\ charges 1 (mk_machine_limit 0 30000 24 0
          [ mk_gpu "g0" 6000 5000 0.5 0; mk_gpu "g1" 6000 5000 0 0 ])
          quarter_args = Ok (m, l)
     /\ machine_limit_over m = false
     /\ g ∈ gpus m /\ g_reserved g = 0
     /\ 0 <= g_free g - gpu_memory_required quarter_args
     /\ gpu_scan quarter_args (gpus m) 0 None 0 = (Some c, idx)
     /\ g_reserved c <> 0)
  /\ (exists m l g c idx,
     init_machine_limit exact_fit_info = Ok (mk_machine_limit 0 30000 24 0
        [ mk_gpu "g0" 6000 1000 0 0; mk_gpu "g1" 6000 5000 0 0 ])
     /\ charges 1 (mk_machine_limit 0 30000 24 0
          [ mk_gpu "g0" 6000 1000 0 0; mk_gpu "g1" 6000 5000 0 0 ])
          default_args = Ok (m, l)
     /\ machine_limit_over m = false
     /\ g ∈ gpus m /\ g_reserved g = 0
     /\ 0 <= g_free g - gpu_memory_required default_args
     /\ gpu_scan default_args (gpus m) 0 None 0 = (Some c, idx)
     /\ g_reserved c <> 0).
Proof.
  split.
  - exists (mk_machine_limit 0 29000 23 0
              [ mk_gpu "g0" 6000 5000 0.5 0; mk_gpu "g1" 6000 4000 0.25 1 ]),
           [1%nat], (mk_gpu "g0" 6000 5000 0.5 0),
           (mk_gpu "g1" 6000 4000 0.25 1), 1%nat.
    repeat split; try (vm_compute; reflexivity); try (vm_compute; discriminate).
    apply list_elem_of_here.
  - exists (mk_machine_limit 0 23000 23 0
              [ mk_gpu "g0" 6000 1000 0 0; mk_gpu "g1" 6000 4000 0.75 1 ]),
           [1%nat], (mk_gpu "g0" 6000 1000 0 0),
           (mk_gpu "g1" 6000 4000 0.75 1), 1%nat.
    repeat split; try (vm_compute; reflexivity); try (vm_compute; discriminate).
    apply list_elem_of_here.
Qed.

Lemma scan_replaces_usable a b g :
  gpu_usable a b ->
  scan_replaces a (Some b) g = (g_utilization g <? g_utilization b)%float.
Proof.
  intros [Hr Hf]. simpl. rewrite Hr. simpl.
  replace (g_free b - gpu_memory_required a <=? 0) with false; [reflexivity|].
  symmetry. apply Z.leb_gt. lia.
Qed.

Lemma scan_replaces_unusable a b g :
  ~ gpu_usable a b -> scan_replaces a (Some b) g = true.
Proof.
  intros Hn. simpl.
  destruct (Z.eqb_spec (g_reserved b) 0) as [Hr|Hr]; [|reflexivity].
  destruct (Z.leb_spec (g_free b - gpu_memory_required a) 0) as [Hf|Hf];
    [reflexivity|].
  exfalso. apply Hn. split; [exact Hr|lia].
Qed.

Lemma gpu_scan_keeps_usable a (l : list gpu) :
  forall (i : nat) (b : gpu) (j : nat) c idx,
    gpu_usable a b ->
    untempted a b l ->
    (forall l1 g l2, l = l1 ++ g :: l2 -> gpu_usable a g -> untempted a g l2) ->
    gpu_scan a l i (Some b) j = (Some c, idx) ->
    gpu_usable a c.
Proof.
  induction l as [|g l IH]; intros i b j c idx Hb Hsafe Hpair; cbn [gpu_scan].
  - now intros [= <- _].
  - rewrite scan_replaces_usable by exact Hb.
    destruct (g_utilization g <? g_utilization b)%float eqn:Hu.
    + assert (Hg : gpu_usable a g).
      { destruct (decide (gpu_usable a g)) as [Hg|Hg]; [exact Hg|].
        rewrite (Hsafe g) in Hu; [discriminate|apply list_elem_of_here|exact Hg]. }
      apply IH; [exact Hg|now apply (Hpair [] g l)|].
      intros l1 g' l2 ->. now apply (Hpair (g :: l1) g' l2).
    + apply IH; [exact Hb| |].
      * intros g' Hin. apply Hsafe. now apply list_elem_of_further.
      * intros l1 g' l2 ->. now apply (Hpair (g :: l1) g' l2).
Qed.

Lemma gpu_scan_finds_usable a (l : list gpu) :
  forall (i : nat) (best : option gpu) (j : nat) c idx,
    (forall b, best = Some b -> ~ gpu_usable a b) ->
    (exists g, g ∈ l /\ gpu_usable a g) ->
    (forall l1 g l2, l = l1 ++ g :: l2 -> gpu_usable a g -> untempted a g l2) ->
    gpu_scan a l i best j = (Some c, idx) ->
    gpu_usable a c.
Proof.
  induction l as [|g l IH]; intros i best j c idx Hbest (u & Hin & Hu) Hpair.
  - now apply elem_of_nil in Hin.
  - cbn [gpu_scan].
    assert (Hrep : scan_replaces a best g = true).
    { destruct best as [b|]; [|reflexivity].
      apply scan_replaces_unusable. now apply Hbest. }
    rewrite Hrep.
    destruct (decide (gpu_usable a g)) as [Hg|Hg].
    + apply gpu_scan_keeps_usable; [exact Hg|now apply (Hpair [] g l)|].
      intros l1 g' l2 ->. now apply (Hpair (g :: l1) g' l2).
    + apply IH.
      * now intros b [= <-].
      * apply elem_of_cons in Hin as [->|Hin]; [contradiction|eauto].
      * intros l1 g' l2 ->. now apply (Hpair (g :: l1) g' l2).
Qed.

(** C4 as amended: when some GPU is unreserved with free memory left over
    after the charge, and no GPU that is reserved or short of memory is
    strictly less utilized than a usable GPU before it, the scan chooses an
    unreserved GPU with free memory left over. *)
Theorem C4_scan_avoids_reserved (m : machine_limit) (a : args) c idx :
  (exists g, g ∈ gpus m /\ g_reserved g = 0 /\ 0 < g_free g - gpu_memory_required a) ->
  (forall (i j : nat) gi gj, (i < j)%nat ->
     gpus m !! i = Some gi -> gpus m !! j = Some gj ->
     gpu_usable a gi -> ~ gpu_usable a gj ->
     (g_utilization gj <? g_utilization gi)%float = false) ->
  gpu_scan a (gpus m) 0 None 0 = (Some c, idx) ->
  g_reserved c = 0 /\ 0 < g_free c - gpu_memory_required a.
Proof.
  intros Hex Hord Hscan.
  apply (gpu_scan_finds_usable a (gpus m) 0%nat None 0%nat c idx); auto.
  - discriminate.
  - intros l1 g l2 Hl Hg g' Hin Hg'.
    apply list_elem_of_lookup in Hin as [k Hk].
    apply (Hord (length l1) (S (length l1 + k))%nat g g'); auto; try lia.
    + rewrite Hl. now rewrite list_lookup_middle.
    + rewrite Hl. rewrite lookup_app_r by lia.
      replace (S (length l1 + k) - length l1)%nat with (S k) by lia. exact Hk.
Qed.

Lemma C4_scan_avoids_reserved_witness :
  (exists g, g ∈ gpus middle_free_limit /\ g_reserved g = 0
             /\ 0 < g_free g - gpu_memory_required default_args)
  /\ (forall (i j : nat) gi gj, (i < j)%nat ->
        gpus middle_free_limit !! i = Some gi ->
        gpus middle_free_limit !! j = Some gj ->
        gpu_usable default_args gi -> ~ gpu_usable default_args gj ->
        (g_utilization gj <? g_utilization gi)%float = false)
  /\ gpu_scan default_args (gpus middle_free_limit) 0 None 0
     = (Some (mk_gpu "g1" 6000 5000 0.5%float 0), 1%nat)
  /\ g_reserved (mk_gpu "g1" 6000 5000 0.5%float 0) = 0
  /\ 0 < g_free (mk_gpu "g1" 6000 5000 0.5%float 0)
         - gpu_memory_required default_args.
Proof.
  assert (H1 : exists g, g ∈ gpus middle_free_limit /\ g_reserved g = 0
                 /\ 0 < g_free g - gpu_memory_required default_args).
  { exists (mk_gpu "g1" 6000 5000 0.5%float 0). split; [|split; [reflexivity|reflexivity]].
    apply list_elem_of_further, list_elem_of_here. }
  assert (H2 : forall (i j : nat) gi gj, (i < j)%nat ->
        gpus middle_free_limit !! i = Some gi ->
        gpus middle_free_limit !! j = Some gj ->
        gpu_usable default_args gi -> ~ gpu_usable default_args gj ->
        (g_utilization gj <? g_utilization gi)%float = false).
  { intros i j gi gj Hij Hi Hj [Hr Hf] _.
    destruct i as [|[|[|i]]]; simpl in Hi; try discriminate;
      injection Hi as <-; simpl in Hr; try discriminate.
    destruct j as [|[|[|j]]]; simpl in Hj; try discriminate; try lia.
    injection Hj as <-. reflexivity. }
  split; [exact H1|]. split; [exact H2|]. split; [reflexivity|].
  apply (C4_scan_avoids_reserved middle_free_limit default_args
           (mk_gpu "g1" 6000 5000 0.5%float 0) 1%nat H1 H2).
  reflexivity.
Defined.

(** ** The command builder *)

Lemma append_cons c (s1 s2 : string) : String c s1 +:+ s2 = String c (s1 +:+ s2).
Proof. reflexivity. Qed.

Lemma string_app_assoc (s1 s2 s3 : string) :
  (s1 +:+ s2) +:+ s3 = s1 +:+ (s2 +:+ s3).
Proof.
  induction s1 as [|c s1 IH]; [reflexivity|].
  rewrite !append_cons. now rewrite IH.
Qed.

Lemma string_app_nil_r (s : string) : s +:+ "" = s.
Proof.
  induction s as [|c s IH]; [reflexivity|].
  rewrite append_cons. now rewrite IH.
Qed.

Lemma string_length_app (s1 s2 : string) :
  String.length (s1 +:+ s2) = (String.length s1 + String.length s2)%nat.
Proof.
  induction s1 as [|c s1 IH]; [reflexivity|].
  rewrite append_cons. simpl. now rewrite IH.
Qed.

Lemma substring_all (s : string) : String.substring 0 (String.length s) s = s.
Proof. induction s as [|c s IH]; simpl; [reflexivity|now rewrite IH]. Qed.

Lemma substring_after_prefix (s1 s2 : string) :
  String.substring (String.length s1)
    (String.length (s1 +:+ s2) - String.length s1) (s1 +:+ s2) = s2.
Proof.
  rewrite string_length_app.
  replace (String.length s1 + String.length s2 - String.length s1)%nat
    with (String.length s2) by lia.
  induction s1 as [|c s1 IH]; [apply substring_all|].
  rewrite append_cons. simpl. exact IH.
Qed.

Lemma prefix_app (s1 s2 : string) : String.prefix s1 (s1 +:+ s2) = true.
Proof.
  induction s1 as [|c s1 IH]; [now destruct s2|].
  rewrite append_cons. simpl.
  destruct (ascii_dec c c); [exact IH|contradiction].
Qed.

Lemma kabuki_final_command_pieces machine job_name command (a : args) :
  kabuki_final_command machine job_name command a
  = command
    +:+ (unless_present "--copy-forward"
           (" --copy-forward " +:+ py_join " " (args_copy_forward a) +:+ " ") command
    +:+ unless_present "--copy-backwards"
           (" --copy-backwards " +:+ py_join " " (args_copy_backwards a) +:+ " ") command
    +:+ unless_present "--job-name" (" --job-name " +:+ job_name +:+ " ") command
    +:+ (if args_verbose a then " --verbose " else "")
    +:+ " --machine " +:+ machine +:+ " ").
Proof.
  unfold kabuki_final_command, unless_present. simpl.
  destruct (py_in "--copy-forward" command),
           (py_in "--copy-backwards" command),
           (py_in "--job-name" command),
           (args_verbose a); cbn [negb];
    rewrite ?string_app_assoc; reflexivity.
Qed.

(** C6, refuted: the job text already names a machine and asks for
    verbosity, and the builder still appends both flags. *)
Lemma C6_machine_and_verbose_appended :
  let command := "kabuki --machine alpha --verbose train.sh" in
  In "--machine" flag_vocabulary /\ In "--verbose" flag_vocabulary
  /\ py_in "--machine" command = true
  /\ py_in "--verbose" command = true
  /\ kabuki_appended "beta" "jobs.txt.1" command verbose_args
     = " --copy-forward data  --copy-backwards out  --job-name jobs.txt.1  --verbose  --machine beta "
  /\ py_in "--machine" (kabuki_appended "beta" "jobs.txt.1" command verbose_args) = true
  /\ py_in "--verbose" (kabuki_appended "beta" "jobs.txt.1" command verbose_args) = true.
Proof. vm_compute. repeat split; auto 10. Qed.

(** C6 as amended: the job text is kept as it is and only extended at its
    end; the transfer lists and the job name are appended exactly when the
    text does not contain their flag, [--verbose] exactly when the batch is
    verbose, and [--machine] with the slot's machine always. *)
Theorem C6_appended_flags (machine job_name command : string) (a : args) :
  kabuki_final_command machine job_name command a
    = command +:+ kabuki_appended machine job_name command a
  /\ String.prefix command (kabuki_final_command machine job_name command a) = true
  /\ kabuki_appended machine job_name command a
     = unless_present "--copy-forward"
         (" --copy-forward " +:+ py_join " " (args_copy_forward a) +:+ " ") command
       +:+ unless_present "--copy-backwards"
         (" --copy-backwards " +:+ py_join " " (args_copy_backwards a) +:+ " ") command
       +:+ unless_present "--job-name" (" --job-name " +:+ job_name +:+ " ") command
       +:+ (if args_verbose a then " --verbose " else "")
       +:+ " --machine " +:+ machine +:+ " ".
Proof.
  assert (Happ : kabuki_appended machine job_name command a
     = unless_present "--copy-forward"
         (" --copy-forward " +:+ py_join " " (args_copy_forward a) +:+ " ") command
       +:+ unless_present "--copy-backwards"
         (" --copy-backwards " +:+ py_join " " (args_copy_backwards a) +:+ " ") command
       +:+ unless_present "--job-name" (" --job-name " +:+ job_name +:+ " ") command
       +:+ (if args_verbose a then " --verbose " else "")
       +:+ " --machine " +:+ machine +:+ " ").
  { unfold kabuki_appended. cbv zeta.
    rewrite kabuki_final_command_pieces. apply substring_after_prefix. }
  split; [|split].
  - rewrite Happ. apply kabuki_final_command_pieces.
  - rewrite kabuki_final_command_pieces. apply prefix_app.
  - exact Happ.
Qed.

(** ** The scheduler *)

Lemma triple_ret {A} (P : state -> Prop) (x : A) Q E :
  (forall st, P st -> Q x st) -> triple P (ret x) Q E.
Proof. intros HQ st HP. simpl. auto. Qed.

Lemma triple_bind {A B} (P : state -> Prop) (c : M A) (k : A -> M B)
    (R : A -> state -> Prop) Q E :
  triple P c R E -> (forall x, triple (R x) (k x) Q E) ->
  triple P (bind c k) Q E.
Proof.
  intros Hc Hk st HP. unfold bind. specialize (Hc st HP).
  destruct (c st) as [x st'|e st'|]; auto. now apply Hk.
Qed.

Lemma triple_weaken {A} (P P' : state -> Prop) (c : M A)
    (Q Q' : A -> state -> Prop) (E E' : exn -> state -> Prop) :
  triple P' c Q' E' ->
  (forall st, P st -> P' st) ->
  (forall x st, Q' x st -> Q x st) ->
  (forall e st, E' e st -> E e st) ->
  triple P c Q E.
Proof.
  intros Hc HP HQ HE st Hst. specialize (Hc st (HP st Hst)).
  destruct (c st); auto.
Qed.

Lemma triple_gets {A} (P : state -> Prop) (f : state -> A) Q E :
  (forall st, P st -> Q (f st) st) -> triple P (gets f) Q E.
Proof. intros HQ st HP. simpl. auto. Qed.

Lemma triple_modify (P : state -> Prop) (f : state -> state) Q E :
  (forall st, P st -> Q tt (f st)) -> triple P (modify f) Q E.
Proof. intros HQ st HP. simpl. auto. Qed.

Lemma triple_throw {A} (P : state -> Prop) (e : exn) (Q : A -> state -> Prop) E :
  (forall st, P st -> E e st) -> triple P (throw e) Q E.
Proof. intros HE st HP. simpl. auto. Qed.

Lemma triple_lift {A} (P : state -> Prop) (r : result A) Q E :
  (forall x st, r = Ok x -> P st -> Q x st) ->
  (forall e st, r = Raise e -> P st -> E e st) ->
  triple P (lift r) Q E.
Proof. intros HQ HE st HP. destruct r; simpl; auto. Qed.

Lemma triple_syscall `{OS} {A} (P : state -> Prop) (f : nat -> state -> A * state) Q E :
  (forall st, P st -> raised (clock st) = None ->
     Q (fst (f (clock st) st)) (set_clock (S (clock st)) (snd (f (clock st) st)))) ->
  (forall e st, P st -> raised (clock st) = Some e ->
     E e (set_clock (S (clock st)) st)) ->
  triple P (syscall f) Q E.
Proof.
  intros HQ HE st HP. unfold syscall.
  destruct (raised (clock st)) eqn:Hr; [now apply HE|].
  specialize (HQ st HP Hr). now destruct (f (clock st) st).
Qed.

(** *** The drain handler *)

Lemma drains_to_refl st : drains_to st st.
Proof. repeat split; eauto. Qed.

Lemma drains_to_trans st1 st2 st3 :
  drains_to st1 st2 -> drains_to st2 st3 -> drains_to st1 st3.
Proof.
  intros (Hm1 & Hi1 & Hl1 & Hp1) (Hm2 & Hi2 & Hl2 & Hp2). repeat split; try congruence.
  intros h p Hh. destruct (Hp1 h p Hh) as (p' & Hh' & Hs & Hr).
  destruct (Hp2 h p' Hh') as (p'' & Hh'' & Hs' & Hr'). eauto 10.
Qed.

Lemma drains_to_held st st' : drains_to st st' -> held st' = held st.
Proof. intros (Hm & _). unfold held. now rewrite Hm. Qed.

Lemma send_signal_drains (h : nat) st :
  exists st', popen_send_signal h SIGINT st = Return tt st'
    /\ drains_to st st'
    /\ ((h < length (popens st))%nat ->
        exists p, popens st' !! h = Some p /\ SIGINT ∈ p_signals p).
Proof.
  unfold popen_send_signal, modify, add_signal. eexists. split; [reflexivity|].
  destruct (popens st !! h) as [p|] eqn:Hp; simpl.
  - split; [repeat split|].
    + simpl. apply length_insert.
    + intros h' p' Hh'. simpl. destruct (decide (h = h')) as [<-|Hne].
      * rewrite list_lookup_insert_eq by (now apply lookup_lt_Some in Hp).
        eexists. split; [reflexivity|]. simpl.
        assert (p' = p) as -> by congruence.
        split; [|auto]. intros Hin. apply elem_of_app. now left.
      * rewrite list_lookup_insert_ne by exact Hne. eauto.
    + intros _. simpl. rewrite list_lookup_insert_eq by (now apply lookup_lt_Some in Hp).
      eexists. split; [reflexivity|]. simpl. apply elem_of_app. right.
      apply list_elem_of_here.
  - split; [exact (drains_to_refl st)|].
    intros Hlt. apply lookup_ge_None in Hp. lia.
Qed.

Lemma set_returncode_drains (h : nat) rc st :
  drains_to st (set_returncode h rc st)
  /\ ((h < length (popens st))%nat ->
      exists p, popens (set_returncode h rc st) !! h = Some p
                /\ is_Some (p_returncode p)).
Proof.
  unfold set_returncode.
  destruct (popens st !! h) as [p|] eqn:Hp; simpl.
  - split; [repeat split|].
    + simpl. apply length_insert.
    + intros h' p' Hh'. simpl. destruct (decide (h = h')) as [<-|Hne].
      * rewrite list_lookup_insert_eq by (now apply lookup_lt_Some in Hp).
        eexists. split; [reflexivity|]. simpl.
        assert (p' = p) as -> by congruence. split; eauto.
      * rewrite list_lookup_insert_ne by exact Hne. eauto.
    + intros _. simpl. rewrite list_lookup_insert_eq by (now apply lookup_lt_Some in Hp).
      eexists. split; [reflexivity|]. simpl. eauto.
  - split; [apply drains_to_refl|].
    intros Hlt. apply lookup_ge_None in Hp. lia.
Qed.

Lemma set_clock_drains n st st' : drains_to st st' -> drains_to st (set_clock n st').
Proof. intros Hd. exact Hd. Qed.

Lemma popen_wait_drains `{OS} (h : nat) st :
  match popen_wait h st with
  | Return _ st' =>
      drains_to st st'
      /\ ((h < length (popens st))%nat ->
          exists p, popens st' !! h = Some p /\ is_Some (p_returncode p))
  | Throw _ _ => False
  | Hang => (h < length (popens st))%nat /\ exists t, wait_result t h = None
  end.
Proof.
  unfold popen_wait.
  destruct (popens st !! h) as [p|] eqn:Hp.
  - destruct (p_returncode p) as [rc|] eqn:Hrc.
    + split; [exact (drains_to_refl st)|]. intros _. exists p. simpl. split; [exact Hp|].
      rewrite Hrc. eauto.
    + destruct (wait_result (clock st) h) as [rc|] eqn:Hw.
      * destruct (set_returncode_drains h rc st) as [Hd Hx]. split; [exact Hd|exact Hx].
      * split; [now apply lookup_lt_Some in Hp|eauto].
  - split; [exact (drains_to_refl st)|]. intros Hlt. apply lookup_ge_None in Hp. lia.
Qed.

Lemma send_all_drains (l : list nat) st :
  exists st', for_each (fun h => popen_send_signal h SIGINT) l st = Return tt st'
    /\ drains_to st st'
    /\ forall h, h ∈ l -> (h < length (popens st))%nat ->
         exists p, popens st' !! h = Some p /\ SIGINT ∈ p_signals p.
Proof.
  revert st. induction l as [|h l IH]; intros st; simpl.
  - exists st. split; [reflexivity|]. split; [apply drains_to_refl|].
    intros h Hin. now apply elem_of_nil in Hin.
  - unfold bind.
    destruct (send_signal_drains h st) as (st1 & -> & Hd1 & Hs1).
    destruct (IH st1) as (st2 & -> & Hd2 & Hs2).
    exists st2. split; [reflexivity|]. split; [eapply drains_to_trans; eauto|].
    intros h' Hin Hlt. apply elem_of_cons in Hin as [->|Hin].
    + destruct (Hs1 Hlt) as (p & Hp & Hsig).
      destruct Hd2 as (_ & _ & _ & Hp2). destruct (Hp2 h p Hp) as (p' & Hp' & Hs' & _).
      eauto.
    + apply Hs2; [exact Hin|]. destruct Hd1 as (_ & _ & -> & _). exact Hlt.
Qed.

Lemma wait_all_drains `{OS} (l : list nat) st :
  match for_each popen_wait l st with
  | Return _ st' =>
      drains_to st st'
      /\ forall h, h ∈ l -> (h < length (popens st))%nat ->
           exists p, popens st' !! h = Some p /\ is_Some (p_returncode p)
  | Throw _ _ => False
  | Hang => exists h t, h ∈ l /\ (h < length (popens st))%nat /\ wait_result t h = None
  end.
Proof.
  revert st. induction l as [|h l IH]; intros st; simpl.
  - split; [apply drains_to_refl|]. intros h Hin. now apply elem_of_nil in Hin.
  - unfold bind. pose proof (popen_wait_drains h st) as Hw.
    destruct (popen_wait h st) as [[] st1|e st1|]; [|contradiction|].
    + destruct Hw as [Hd1 Hx1]. specialize (IH st1).
      destruct (for_each popen_wait l st1) as [[] st2|e st2|]; [|contradiction|].
      * destruct IH as [Hd2 Hx2]. split; [eapply drains_to_trans; eauto|].
        intros h' Hin Hlt. apply elem_of_cons in Hin as [->|Hin].
        -- destruct (Hx1 Hlt) as (p & Hp & Hrc).
           destruct Hd2 as (_ & _ & _ & Hp2). destruct (Hp2 h p Hp) as (p' & Hp' & _ & Hr').
           eauto.
        -- apply Hx2; [exact Hin|]. destruct Hd1 as (_ & _ & -> & _). exact Hlt.
      * destruct IH as (h' & t & Hin & Hlt & Hnone). exists h', t.
        split; [now apply list_elem_of_further|]. split; [|exact Hnone].
        destruct Hd1 as (_ & _ & <- & _). exact Hlt.
    + destruct Hw as (Hlt & t & Hnone). exists h, t.
      split; [apply list_elem_of_here|]. split; assumption.
Qed.

(** The handler never returns normally.  When it raises, it raises the
    exception it was given, the slots are as they were, and every process a
    slot holds has been sent SIGINT and has exited.  When it blocks, a
    process in a slot never exits. *)
Lemma drain_spec `{OS} (be : exn) st :
  handles_valid st ->
  match drain be st with
  | Return _ _ => False
  | Throw e st' =>
      e = be /\ machine_procs st' = machine_procs st /\ sigint_ignored st' = true
      /\ forall h, h ∈ held st' -> interrupted_and_exited st' h
  | Hang => exists h t, h ∈ held st /\ wait_result t h = None
  end.
Proof.
  intros Hvalid. unfold drain, bind, modify, print, gets, throw. simpl.
  set (st0 := set_stdout _ (set_sigint_ignored true st)).
  assert (Hheld0 : held st0 = held st) by reflexivity.
  destruct (send_all_drains (held st0) st0) as (st1 & -> & Hd1 & Hs1).
  set (st2 := set_stdout _ st1).
  assert (Hd2 : drains_to st0 st2) by exact Hd1.
  pose proof (drains_to_held _ _ Hd2) as Hheld2.
  pose proof (wait_all_drains (held st2) st2) as Hw.
  destruct (for_each popen_wait (held st2) st2) as [[] st3|e st3|]; [|contradiction|].
  - destruct Hw as [Hd3 Hx3]. split; [reflexivity|].
    pose proof (drains_to_trans _ _ _ Hd2 Hd3) as Hd.
    split; [apply Hd|]. split.
    { destruct Hd as (_ & -> & _). reflexivity. }
    intros h Hin. rewrite (drains_to_held _ _ Hd), Hheld0 in Hin.
    pose proof (Hvalid h Hin) as Hlt.
    destruct (Hs1 h) as (p1 & Hp1 & Hsig1); [now rewrite Hheld0|exact Hlt|].
    destruct (Hx3 h) as (p3 & Hp3 & Hrc3).
    { now rewrite Hheld2, Hheld0. }
    { destruct Hd2 as (_ & _ & -> & _). exact Hlt. }
    destruct Hd3 as (_ & _ & _ & Hp). destruct (Hp h p1 Hp1) as (p' & Hp' & Hs' & _).
    exists p3. split; [exact Hp3|]. split; [|exact Hrc3].
    assert (p' = p3) as <- by congruence. auto.
  - destruct Hw as (h & t & Hin & _ & Hnone). exists h, t.
    split; [|exact Hnone]. now rewrite Hheld2, Hheld0 in Hin.
Qed.

(** *** Slots and the processes they hold *)

Lemma elem_of_held st h :
  h ∈ held st <-> exists mi i ln, get_slot mi i st = Some (Some (ln, h)).
Proof.
  unfold held, get_slot. rewrite list_elem_of_join. split.
  - intros (l & Hh & Hl). apply list_elem_of_fmap in Hl as (procs & -> & Hprocs).
    apply list_elem_of_omap in Hh as (proc & Hproc & Hsnd).
    apply list_elem_of_lookup in Hprocs as [mi Hmi].
    apply list_elem_of_lookup in Hproc as [i Hi].
    destruct proc as [[ln h']|]; [|discriminate]. simpl in Hsnd.
    injection Hsnd as ->. exists mi, i, ln. rewrite Hmi. simpl. exact Hi.
  - intros (mi & i & ln & Hs).
    destruct (machine_procs st !! mi) as [procs|] eqn:Hmi; [|discriminate].
    simpl in Hs. exists (omap (fun proc : slot => snd <$> proc) procs). split.
    + apply list_elem_of_omap. exists (Some (ln, h)). split; [|reflexivity].
      eapply list_elem_of_lookup_2; eauto.
    + apply list_elem_of_fmap. exists procs. split; [reflexivity|].
      eapply list_elem_of_lookup_2; eauto.
Qed.

Lemma get_slot_set_slot_eq mi i v st :
  is_Some (get_slot mi i st) -> get_slot mi i (set_slot mi i v st) = Some v.
Proof.
  unfold get_slot, set_slot. intros [s Hs].
  destruct (machine_procs st !! mi) as [procs|] eqn:Hmi; [|discriminate].
  simpl in *. rewrite list_lookup_insert_eq by (now apply lookup_lt_Some in Hmi).
  simpl. apply list_lookup_insert_eq. now apply lookup_lt_Some in Hs.
Qed.

Lemma get_slot_set_slot mi i v mi' i' st s :
  get_slot mi' i' (set_slot mi i v st) = Some s ->
  (mi' = mi /\ i' = i /\ s = v) \/ get_slot mi' i' st = Some s.
Proof.
  unfold get_slot, set_slot.
  destruct (machine_procs st !! mi) as [procs|] eqn:Hmi; [|auto].
  simpl. destruct (decide (mi = mi')) as [<-|Hne].
  - rewrite list_lookup_insert_eq by (now apply lookup_lt_Some in Hmi).
    rewrite Hmi. simpl. destruct (decide (i = i')) as [<-|Hni].
    + intros Hs. left. apply lookup_lt_Some in Hs as Hlt. rewrite length_insert in Hlt.
      rewrite list_lookup_insert_eq in Hs by exact Hlt. split; [auto|]. split; congruence.
    + rewrite list_lookup_insert_ne by exact Hni. auto.
  - rewrite list_lookup_insert_ne by exact Hne. auto.
Qed.

Lemma handles_valid_set_slot_None mi i st :
  handles_valid st -> handles_valid (set_slot mi i None st).
Proof.
  intros Hv h Hin. apply elem_of_held in Hin as (mi' & i' & ln & Hs).
  apply get_slot_set_slot in Hs as [(_ & _ & ?)|Hs]; [discriminate|].
  replace (popens (set_slot mi i None st)) with (popens st)
    by (unfold set_slot; now destruct (machine_procs st !! mi)).
  apply Hv, elem_of_held. eauto.
Qed.

Lemma handles_valid_set_slot_Some mi i ln h st :
  handles_valid st -> (h < length (popens st))%nat ->
  handles_valid (set_slot mi i (Some (ln, h)) st).
Proof.
  intros Hv Hlt h' Hin. apply elem_of_held in Hin as (mi' & i' & ln' & Hs).
  replace (popens (set_slot mi i (Some (ln, h)) st)) with (popens st)
    by (unfold set_slot; now destruct (machine_procs st !! mi)).
  apply get_slot_set_slot in Hs as [(_ & _ & [= -> ->])|Hs]; [exact Hlt|].
  apply Hv, elem_of_held. eauto.
Qed.

Lemma handles_valid_popens st st' :
  machine_procs st' = machine_procs st ->
  (length (popens st) <= length (popens st'))%nat ->
  handles_valid st -> handles_valid st'.
Proof.
  intros Hm Hl Hv h Hin.
  assert (Hin' : h ∈ held st) by (unfold held in *; now rewrite <- Hm).
  specialize (Hv h Hin'). lia.
Qed.

Lemma set_returncode_length h rc st :
  length (popens (set_returncode h rc st)) = length (popens st).
Proof.
  unfold set_returncode. destruct (popens st !! h); [|reflexivity].
  simpl. apply length_insert.
Qed.

Lemma set_returncode_machine_procs h rc st :
  machine_procs (set_returncode h rc st) = machine_procs st.
Proof. unfold set_returncode. now destruct (popens st !! h). Qed.

(** *** Slots only ever hold processes that were started *)

Section HandlesValid.
Context `{Library} `{OS}.
Variable a : args.
Variable lines : list string.

Local Abbreviation V := handles_valid.
Local Abbreviation VQ := (fun _ => handles_valid).
Local Abbreviation VE := (fun _ : exn => handles_valid).

Local Ltac valid_frame :=
  cbv beta in *;
  match goal with
  | Hv : handles_valid ?st |- handles_valid _ =>
      apply (handles_valid_popens st); [reflexivity|simpl; lia|exact Hv]
  end.

Lemma valid_print s : triple V (print s) VQ VE.
Proof. apply triple_modify. intros st Hv. valid_frame. Qed.

Lemma valid_clock {A} (f : nat -> state -> A * state) :
  (forall t st, snd (f t st) = st) -> triple V (syscall f) VQ VE.
Proof.
  intros Hf. apply triple_syscall.
  - intros st Hv _. rewrite Hf. valid_frame.
  - intros e st Hv _. valid_frame.
Qed.

Lemma valid_poll h : triple V (popen_poll h) VQ VE.
Proof.
  apply triple_syscall.
  - intros st Hv _.
    apply (handles_valid_popens st); [| |exact Hv].
    + destruct (popens st !! h) as [p|]; [|reflexivity].
      destruct (p_returncode p); [reflexivity|].
      destruct (poll_result (clock st) h); [|reflexivity].
      simpl. apply set_returncode_machine_procs.
    + destruct (popens st !! h) as [p|]; [|simpl; lia].
      destruct (p_returncode p); [simpl; lia|].
      destruct (poll_result (clock st) h); [|simpl; lia].
      simpl. rewrite set_returncode_length. lia.
  - intros e st Hv _. valid_frame.
Qed.

Lemma valid_reap mi i proc : triple V (reap lines mi i proc) VQ VE.
Proof.
  unfold reap. destruct proc as [[finished_num h]|]; [|now apply triple_ret].
  apply triple_bind with (R := VQ); [apply valid_poll|]. intros [returncode|]; [|now apply triple_ret].
  apply triple_bind with (R := VQ); [apply triple_gets; intros st Hv; exact Hv|]. intros r1.
  apply triple_bind with (R := VQ); [apply triple_lift; intros; assumption|]. intros job_name.
  apply triple_bind with (R := VQ); [apply triple_lift; intros; assumption|]. intros line.
  apply triple_bind with (R := VQ); [apply valid_print|]. intros _.
  apply triple_bind with (R := VQ);
    [apply triple_modify; intros st Hv; apply (handles_valid_set_slot_None mi i st Hv)|].
  intros _. now apply triple_ret.
Qed.

Lemma valid_launch_or_skip mi i ln job_cmd job_name command :
  triple V (launch_or_skip a mi i ln job_cmd job_name command) VQ VE.
Proof.
  unfold launch_or_skip.
  apply triple_bind with (R := VQ); [apply valid_clock; reflexivity|]. intros [|].
  { apply triple_bind with (R := VQ); [apply valid_print|]. intros _. now apply triple_ret. }
  apply triple_bind with (R := VQ).
  { destruct (verbose a || dry_run a); [apply valid_print|now apply triple_ret]. }
  intros _. destruct (dry_run a); [now apply triple_ret|].
  apply triple_bind with (R := VQ); [apply valid_print|]. intros _.
  eapply triple_bind.
  { apply triple_syscall with (Q := VQ).
    - intros st Hv _. valid_frame.
    - intros e st Hv _. valid_frame. }
  intros stdout_file.
  eapply triple_bind.
  { apply triple_syscall with (Q := VQ).
    - intros st Hv _. valid_frame.
    - intros e st Hv _. valid_frame. }
  intros stderr_file.
  eapply triple_bind.
  { apply triple_syscall
      with (Q := fun h st => handles_valid st /\ (h < length (popens st))%nat).
    - intros st Hv _. simpl. split; [|rewrite length_app; simpl; lia].
      apply (handles_valid_popens st); [reflexivity| |exact Hv].
      simpl. rewrite length_app. lia.
    - intros e st Hv _. valid_frame. }
  intros process.
  eapply triple_bind.
  { apply triple_syscall
      with (Q := fun _ st => handles_valid st /\ (process < length (popens st))%nat).
    - intros st [Hv Hlt] _. split; [valid_frame|exact Hlt].
    - intros e st [Hv Hlt] _. valid_frame. }
  intros [].
  eapply triple_bind.
  { apply triple_modify with (Q := VQ). intros st [Hv Hlt].
    now apply handles_valid_set_slot_Some. }
  intros []. now apply triple_ret.
Qed.

Lemma valid_set (f : state -> state) :
  (forall st, machine_procs (f st) = machine_procs st) ->
  (forall st, popens (f st) = popens st) ->
  triple V (modify f) VQ VE.
Proof.
  intros Hm Hp. apply triple_modify. intros st Hv.
  apply (handles_valid_popens st); [apply Hm|rewrite Hp; lia|exact Hv].
Qed.

Lemma valid_dispatch mac mi i gpu_choice :
  triple V (dispatch a lines mac mi i gpu_choice) VQ VE.
Proof.
  unfold dispatch.
  apply triple_bind with (R := VQ); [apply triple_gets; intros st Hv; exact Hv|]. intros ln.
  apply triple_bind with (R := VQ); [apply triple_lift; intros; assumption|]. intros line.
  apply triple_bind with (R := VQ); [apply triple_gets; intros st Hv; exact Hv|]. intros names.
  apply triple_bind with (R := VQ); [apply triple_lift; intros; assumption|]. intros job_name.
  apply triple_bind with (R := VQ); [apply triple_lift; intros; assumption|].
  intros [[job_cmd new_job_name] command].
  apply triple_bind with (R := VQ).
  { destruct (kabuki_commands a); [apply valid_set; reflexivity|now apply triple_ret]. }
  intros _.
  apply triple_bind with (R := VQ); [apply valid_print|]. intros _.
  apply triple_bind with (R := VQ); [apply valid_launch_or_skip|]. intros proc.
  apply triple_bind with (R := VQ); [apply valid_set; reflexivity|]. intros _.
  apply triple_bind with (R := VQ); [apply valid_set; reflexivity|]. intros _.
  apply triple_bind with (R := VQ); [apply valid_set; reflexivity|]. intros _.
  now apply triple_ret.
Qed.

Lemma valid_slot_body mac mi i gpu_choice proc :
  triple V (slot_body a lines mac mi i gpu_choice proc) VQ VE.
Proof.
  unfold slot_body.
  apply triple_bind with (R := VQ); [apply valid_reap|]. intros proc1.
  apply triple_bind with (R := VQ); [apply triple_gets; intros st Hv; exact Hv|]. intros ln.
  apply triple_bind with (R := VQ).
  { destruct proc1; [now apply triple_ret|].
    destruct (ln <? length lines)%nat; [apply valid_dispatch|now apply triple_ret]. }
  intros [p|]; [apply valid_set; reflexivity|now apply triple_ret].
Qed.

Lemma valid_slots_loop mac mi gpu_choices :
  forall i, triple V (slots_loop a lines mac mi i gpu_choices) VQ VE.
Proof.
  induction gpu_choices as [|gpu_choice rest IH]; intros i; simpl;
    [now apply triple_ret|].
  apply triple_bind with (R := VQ); [apply triple_gets; intros st Hv; exact Hv|].
  intros [proc|]; [|now apply triple_ret].
  apply triple_bind with (R := VQ); [apply valid_slot_body|]. intros _. apply IH.
Qed.

Lemma valid_machines_loop macs :
  forall mi machine_gpu_choices,
    triple V (machines_loop a lines mi macs machine_gpu_choices) VQ VE.
Proof.
  induction macs as [|mac macs IH]; intros mi [|gpu_choices rest]; simpl;
    try (now apply triple_ret).
  apply triple_bind with (R := VQ); [apply triple_gets; intros st Hv; exact Hv|]. intros n.
  destruct (mi <? n)%nat; [|now apply triple_ret].
  apply triple_bind with (R := VQ); [apply valid_slots_loop|]. intros _. apply IH.
Qed.

Lemma valid_pass machine_gpu_choices :
  triple V (pass a lines machine_gpu_choices) VQ VE.
Proof.
  unfold pass.
  apply triple_bind with (R := VQ); [apply valid_set; reflexivity|]. intros _.
  apply triple_bind with (R := VQ); [apply valid_set; reflexivity|]. intros _.
  apply triple_bind with (R := VQ); [apply valid_machines_loop|]. intros _.
  apply triple_bind with (R := VQ); [apply triple_gets; intros st Hv; exact Hv|].
  intros [|]; [apply valid_clock; reflexivity|now apply triple_ret].
Qed.

Lemma valid_sched_loop fuel machine_gpu_choices :
  forall st o,
    handles_valid st ->
    sched_loop a lines fuel machine_gpu_choices st = Some o ->
    match final_state o with Some st' => handles_valid st' | None => True end.
Proof.
  induction fuel as [|fuel IH]; intros st o Hv; simpl.
  - destruct (all_done st); [|discriminate]. now intros [= <-].
  - destruct (all_done st); [now intros [= <-]|].
    pose proof (valid_pass machine_gpu_choices st Hv) as Hp.
    destruct (pass a lines machine_gpu_choices st) as [[] st'|e st'|].
    + now apply IH.
    + now intros [= <-].
    + now intros [= <-].
Qed.

End HandlesValid.

Lemma held_all_None (limits : list nat) st :
  machine_procs st = map (fun limit => replicate limit (None : slot)) limits ->
  held st = [].
Proof.
  intros Hm. apply elem_of_nil_inv. intros h Hin.
  apply elem_of_held in Hin as (mi & i & ln & Hs).
  unfold get_slot in Hs. rewrite Hm in Hs.
  change (map ?f limits) with (f <$> limits) in Hs.
  rewrite list_lookup_fmap in Hs.
  destruct (limits !! mi) as [n|]; [|discriminate]. simpl in Hs.
  apply lookup_replicate in Hs as [? _]. discriminate.
Qed.

Lemma warn_existing_frame `{OS} (P : state -> Prop) names :
  (forall st n, P st -> P (set_clock n st)) ->
  (forall st l, P st -> P (set_stdout l st)) ->
  forall n, triple P (warn_existing n names) (fun _ => P) (fun _ => P).
Proof.
  intros Hclock Hout.
  induction names as [|job_name rest IH]; intros n; simpl;
    [now apply triple_ret|].
  apply triple_bind with (R := fun _ => P).
  { apply triple_syscall; intros; now apply Hclock. }
  intros ex.
  apply triple_bind with (R := fun _ => P).
  { destruct ex; [apply triple_modify|apply triple_ret]; intros; auto. }
  intros _. apply IH.
Qed.

(** After [setup], every slot is empty, the job names are the initial ones
    and what was spawned before is unchanged. *)
Lemma setup_spec `{OS} a lines machine_gpu_choices (spawned : list popen) :
  let fresh st :=
    machine_procs st
    = map (fun limit => replicate limit (None : slot))
        (map (fun c : list nat => length c) machine_gpu_choices)
    /\ job_names st = initial_job_names a lines
    /\ popens st = spawned in
  triple (fun st => popens st = spawned) (setup a lines machine_gpu_choices)
    (fun _ => fresh) (fun _ => fresh).
Proof.
  intros fresh. unfold setup.
  apply triple_bind
    with (R := fun _ st =>
           machine_procs st
           = map (fun limit => replicate limit (None : slot))
               (map (fun c : list nat => length c) machine_gpu_choices)
           /\ popens st = spawned);
    [apply triple_modify; intros; split; [reflexivity|assumption]|]. intros _.
  apply triple_bind with (R := fun _ => fresh);
    [apply triple_modify; intros st [? ?]; repeat split; assumption|]. intros _.
  apply triple_bind with (R := fun _ => fresh).
  { apply (warn_existing_frame fresh); intros st ? Hf; exact Hf. }
  intros _. apply triple_syscall; intros; assumption.
Qed.

(** C8: when an exception escapes the scheduling loop, the handler signals
    every process held by a slot, waits for each without a timeout, and
    raises that same exception again; when it does, every process held by a
    slot has been sent SIGINT and has exited.  If instead it never returns,
    some held process never exits. *)
Theorem C8_drain_on_exception `{Library} `{OS} (a : args) (lines : list string)
    (fuel : nat) (machine_gpu_choices : list (list nat)) (st0 st st1 : state)
    (be : exn) :
  setup a lines machine_gpu_choices st0 = Return tt st ->
  sched_loop a lines fuel machine_gpu_choices
    (set_all_done false (set_line_num 0 st)) = Some (Throw be st1) ->
  match drain be st1 with
  | Return _ _ => False
  | Throw e st' =>
      schedule a lines fuel machine_gpu_choices st0 = Some (Throw e st')
      /\ e = be
      /\ machine_procs st' = machine_procs st1
      /\ sigint_ignored st' = true
      /\ forall h, h ∈ held st' -> interrupted_and_exited st' h
  | Hang =>
      schedule a lines fuel machine_gpu_choices st0 = Some Hang
      /\ exists h t, h ∈ held st1 /\ wait_result t h = None
  end.
Proof.
  intros Hsetup Hloop.
  assert (Hrun : schedule a lines fuel machine_gpu_choices st0 = Some (drain be st1)).
  { unfold schedule, run_loop. now rewrite Hsetup, Hloop. }
  assert (Hv1 : handles_valid st1).
  { pose proof (setup_spec a lines machine_gpu_choices (popens st0) st0 eq_refl) as Hs.
    rewrite Hsetup in Hs. destruct Hs as (Hs & _).
    assert (Hv : handles_valid (set_all_done false (set_line_num 0 st))).
    { intros h Hin. replace (held _) with (held st) in Hin by reflexivity.
      rewrite (held_all_None _ _ Hs) in Hin. now apply elem_of_nil in Hin. }
    exact (valid_sched_loop a lines fuel machine_gpu_choices _ _ Hv Hloop). }
  pose proof (drain_spec be st1 Hv1) as Hd.
  destruct (drain be st1) as [[] st'|e st'|]; [exact Hd| |].
  - destruct Hd as (He & Hm & Hi & Hx). auto.
  - auto.
Qed.

(** *** Resuming over existing markers *)

Lemma launch_or_skip_marked `{OS} (a : args) (mi i ln : nat) job_cmd job_name command st :
  path_exists (clock st) ("./job_results/" +:+ job_name) = true ->
  match launch_or_skip a mi i ln job_cmd job_name command st with
  | Return proc st' =>
      proc = None /\ popens st' = popens st
      /\ machine_procs st' = machine_procs st
      /\ stdout st' = stdout st ++ ["skipping " +:+ command]
      /\ line_num st' = line_num st /\ job_names st' = job_names st
      /\ all_done st' = all_done st
  | Throw _ st' =>
      popens st' = popens st /\ machine_procs st' = machine_procs st
  | Hang => False
  end.
Proof.
  intros Hex. unfold launch_or_skip, bind, os_path_exists, syscall.
  destruct (raised (clock st)); [now split|].
  rewrite Hex. simpl. repeat split.
Qed.

Section Marked.
Context `{Library} `{OS}.
Variable a : args.
Variable lines : list string.
Hypothesis Hmarked : all_marked a lines.

Lemma idle_frame st st' :
  popens st' = popens st -> machine_procs st' = machine_procs st ->
  idle st -> idle st'.
Proof.
  intros Hp Hm [Hpop Hheld]. split; [congruence|].
  unfold held in *. now rewrite Hm.
Qed.

Lemma dispatch_marked mac mi i gpu_choice st :
  idle st -> names_pending a lines st ->
  match dispatch a lines mac mi i gpu_choice st with
  | Return proc st' =>
      proc = None /\ idle st' /\ names_pending a lines st'
      /\ line_num st' = S (line_num st) /\ (line_num st < length lines)%nat
  | Throw _ st' => idle st'
  | Hang => False
  end.
Proof.
  intros Hidle [Hle Hnames].
  unfold dispatch, bind, gets, lift, py_index.
  destruct (lines !! line_num st) as [line|] eqn:Hline; [|exact Hidle].
  simpl.
  destruct (job_names st !! line_num st) as [job_name|] eqn:Hname; [|exact Hidle].
  simpl.
  destruct (build_job a mac gpu_choice job_name line) as [[[job_cmd nm] command]|e]
    eqn:Hjob; [|exact Hidle].
  simpl.
  assert (Hinit : initial_job_names a lines !! line_num st = Some job_name).
  { rewrite <- Hnames by lia. exact Hname. }
  pose proof (fun t => Hmarked t mac gpu_choice (line_num st) line job_name
                         job_cmd nm command Hline Hinit Hjob) as Hex.
  apply lookup_lt_Some in Hline as Hlt.
  set (st1 := match (if kabuki_commands a
                     then modify (fun st => set_job_names (<[line_num st := nm]> (job_names st)) st)
                     else ret tt) st with
              | Return _ s => s | Throw _ s => s | Hang => st end).
  assert (H1 : (if kabuki_commands a
                then modify (fun st0 => set_job_names (<[line_num st := nm]> (job_names st0)) st0)
                else ret tt) st = Return tt st1).
  { unfold st1. now destruct (kabuki_commands a). }
  rewrite H1. unfold print, modify.
  set (st2 := set_stdout (stdout st1 ++ [nm]) st1).
  assert (Hp2 : popens st2 = popens st) by (unfold st2, st1; now destruct (kabuki_commands a)).
  assert (Hm2 : machine_procs st2 = machine_procs st)
    by (unfold st2, st1; now destruct (kabuki_commands a)).
  assert (Hl2 : line_num st2 = line_num st)
    by (unfold st2, st1; now destruct (kabuki_commands a)).
  assert (Hn2 : forall n, n <> line_num st -> job_names st2 !! n = job_names st !! n).
  { intros n Hn. unfold st2, st1. destruct (kabuki_commands a); simpl; [|reflexivity].
    now apply list_lookup_insert_ne. }
  pose proof (launch_or_skip_marked a mi i (line_num st) job_cmd nm command st2
                (Hex (clock st2))) as Hls.
  destruct (launch_or_skip a mi i (line_num st) job_cmd nm command st2)
    as [proc st3|e st3|]; [| |contradiction].
  - destruct Hls as (-> & Hp3 & Hm3 & _ & Hl3 & Hn3 & _). simpl.
    split; [reflexivity|]. split; [|split; [|split; [reflexivity|exact Hlt]]].
    + apply (idle_frame st); [simpl; congruence|simpl; congruence|exact Hidle].
    + split; [simpl; lia|]. simpl. intros n Hn.
      rewrite Hn3, Hn2 by lia. apply Hnames. lia.
  - destruct Hls as (Hp3 & Hm3).
    apply (idle_frame st); [congruence|congruence|exact Hidle].
Qed.

Lemma idle_slot st mi i (proc : slot) :
  idle st -> get_slot mi i st = Some proc -> proc = None.
Proof.
  intros [_ Hheld] Hs. destruct proc as [[ln h]|]; [|reflexivity].
  assert (Hin : h ∈ held st) by (apply elem_of_held; eauto).
  rewrite Hheld in Hin. now apply elem_of_nil in Hin.
Qed.

Lemma slot_body_marked ln0 mac mi i gpu_choice :
  triple (progressing a lines ln0) (slot_body a lines mac mi i gpu_choice None)
    (fun _ => progressing a lines ln0) (fun _ => idle).
Proof.
  intros st (Hidle & Hnames & Hle & Hprog).
  unfold slot_body, bind, reap, ret, gets.
  destruct (line_num st <? length lines)%nat.
  - pose proof (dispatch_marked mac mi i gpu_choice st Hidle Hnames) as Hd.
    destruct (dispatch a lines mac mi i gpu_choice st) as [proc st'|e st'|];
      [|exact Hd|contradiction].
    destruct Hd as (-> & Hidle' & Hnames' & Hln & Hlt).
    repeat split; try apply Hidle'; try apply Hnames'; [lia|right; lia].
  - repeat split; try apply Hidle; try apply Hnames; assumption.
Qed.

Lemma slots_loop_marked ln0 mac mi gpu_choices :
  forall i,
    triple (progressing a lines ln0) (slots_loop a lines mac mi i gpu_choices)
      (fun _ => progressing a lines ln0) (fun _ => idle).
Proof.
  induction gpu_choices as [|gpu_choice rest IH]; intros i; simpl;
    [now apply triple_ret|].
  apply triple_bind
    with (R := fun proc st => progressing a lines ln0 st /\ get_slot mi i st = proc).
  { apply triple_gets. auto. }
  intros [proc|]; [|apply triple_ret; now intros st [HJ _]].
  intros st [HJ Hs].
  assert (proc = None) as -> by (eapply idle_slot; [apply HJ|exact Hs]).
  exact (triple_bind (progressing a lines ln0) _ _
           (fun _ => progressing a lines ln0) _ _
           (slot_body_marked ln0 mac mi i gpu_choice) (fun _ => IH (S i)) st HJ).
Qed.

Lemma machines_loop_marked ln0 macs :
  forall mi machine_gpu_choices,
    triple (progressing a lines ln0)
      (machines_loop a lines mi macs machine_gpu_choices)
      (fun _ => progressing a lines ln0) (fun _ => idle).
Proof.
  induction macs as [|mac macs IH]; intros mi [|gpu_choices rest]; simpl;
    try (now apply triple_ret).
  apply triple_bind with (R := fun _ => progressing a lines ln0);
    [apply triple_gets; auto|]. intros n.
  destruct (mi <? n)%nat; [|now apply triple_ret].
  apply triple_bind with (R := fun _ => progressing a lines ln0);
    [apply slots_loop_marked|]. intros _. apply IH.
Qed.

(** A turn of the loop over marked jobs: nothing is spawned, and either the
    turn took no job and leaves [all_done] set, or the line counter grew. *)
Lemma pass_marked machine_gpu_choices st :
  idle st -> names_pending a lines st ->
  match pass a lines machine_gpu_choices st with
  | Return _ st' =>
      idle st' /\ names_pending a lines st'
      /\ (all_done st' = true \/ (line_num st < line_num st')%nat)
  | Throw _ st' => idle st'
  | Hang => False
  end.
Proof.
  intros Hidle Hnames.
  assert (Ht : triple (fun s => s = st) (pass a lines machine_gpu_choices)
                 (fun _ => progressing a lines (line_num st)) (fun _ => idle)).
  { unfold pass.
    apply triple_bind with (R := fun _ s => s = set_all_done true st);
      [apply triple_modify; now intros s ->|]. intros _.
    apply triple_bind with (R := fun _ => progressing a lines (line_num st)).
    { apply triple_modify. intros s ->. repeat split; try apply Hidle; try apply Hnames.
      - simpl. lia.
      - now left. }
    intros _.
    apply triple_bind with (R := fun _ => progressing a lines (line_num st));
      [apply machines_loop_marked|]. intros _.
    apply triple_bind
      with (R := fun _ => progressing a lines (line_num st));
      [apply triple_gets; auto|].
    intros [|]; [|now apply triple_ret].
    apply triple_syscall.
    - intros s HJ _. exact HJ.
    - intros e s HJ _. apply HJ. }
  specialize (Ht st eq_refl).
  destruct (pass a lines machine_gpu_choices st) as [[] st'|e st'|]; [|exact Ht|].
  - destruct Ht as (? & ? & ? & ?). auto.
  - exact Ht.
Qed.

Lemma sched_loop_marked machine_gpu_choices :
  forall fuel st,
    idle st -> names_pending a lines st ->
    (length lines - line_num st < fuel)%nat ->
    exists o st',
      sched_loop a lines fuel machine_gpu_choices st = Some o
      /\ final_state o = Some st' /\ idle st'.
Proof.
  induction fuel as [|fuel IH]; intros st Hidle Hnames Hfuel; [lia|].
  simpl. destruct (all_done st) eqn:Hdone; [exists (Return tt st), st; auto|].
  pose proof (pass_marked machine_gpu_choices st Hidle Hnames) as Hp.
  destruct (pass a lines machine_gpu_choices st) as [[] st'|e st'|];
    [|exists (Throw e st'), st'; auto|contradiction].
  destruct Hp as (Hidle' & Hnames' & [Hdone'|Hlt]).
  - exists (Return tt st'), st'. split; [|auto].
    destruct fuel; simpl; now rewrite Hdone'.
  - apply IH; [exact Hidle'|exact Hnames'|].
    destruct Hnames' as [Hle _]. lia.
Qed.

Lemma drain_idle be st :
  idle st -> exists st', drain be st = Throw be st' /\ idle st'.
Proof.
  intros [Hpop Hheld]. unfold drain, bind, modify, print, gets, throw.
  simpl.
  replace (held (set_stdout _ (set_sigint_ignored true st))) with (held st)
    by reflexivity.
  rewrite Hheld. simpl.
  replace (held (set_stdout _ (set_stdout _ (set_sigint_ignored true st))))
    with (held st) by reflexivity.
  rewrite Hheld. simpl. eexists. split; [reflexivity|]. split; assumption.
Qed.

(** With every job marked, scheduling ends within one turn per line plus
    one, whatever is raised on the way, and ends with nothing spawned. *)
Lemma schedule_marked machine_gpu_choices st0 :
  popens st0 = [] ->
  exists o st',
    schedule a lines (S (length lines)) machine_gpu_choices st0 = Some o
    /\ final_state o = Some st' /\ popens st' = [] /\ held st' = [].
Proof.
  intros Hpop. unfold schedule.
  pose proof (setup_spec a lines machine_gpu_choices [] st0 Hpop) as Hs.
  destruct (setup a lines machine_gpu_choices st0) as [[] st|e st|];
    [| |contradiction].
  - destruct Hs as (Hprocs & Hnames & Hpop1).
    assert (Hidle : idle (set_all_done false (set_line_num 0 st))).
    { split; [exact Hpop1|]. apply (held_all_None _ _ Hprocs). }
    assert (Hpend : names_pending a lines (set_all_done false (set_line_num 0 st))).
    { split; simpl; [lia|]. intros n _. now rewrite Hnames. }
    destruct (sched_loop_marked machine_gpu_choices (S (length lines)) _ Hidle Hpend)
      as (o & st' & Hloop & Hfin & Hidle'); [simpl; lia|].
    unfold run_loop. rewrite Hloop.
    destruct o as [[] st1|be st1|]; [| |discriminate].
    + exists (Return tt st1), st'. split; [reflexivity|]. split; [exact Hfin|exact Hidle'].
    + injection Hfin as ->.
      destruct (drain_idle be st' Hidle') as (st2 & Hd & Hidle2).
      exists (Throw be st2), st2. rewrite Hd. split; [reflexivity|].
      split; [reflexivity|exact Hidle2].
  - destruct Hs as (Hprocs & Hnames & Hpop1).
    exists (Throw e st), st. split; [reflexivity|]. split; [reflexivity|].
    split; [exact Hpop1|apply (held_all_None _ _ Hprocs)].
Qed.

End Marked.

Lemma C8_drain_on_exception_witness :
  @setup interrupted_os plain_args two_lines [[0%nat]] (boot 0 [])
    = Return tt interrupted_setup
  /\ @sched_loop plain_library interrupted_os plain_args two_lines 5 [[0%nat]]
       (set_all_done false (set_line_num 0 interrupted_setup))
     = Some (Throw KeyboardInterrupt interrupted_state)
  /\ held interrupted_state = [0%nat]
  /\ match @drain interrupted_os KeyboardInterrupt interrupted_state with
     | Return _ _ => False
     | Throw e st' =>
         @schedule plain_library interrupted_os plain_args two_lines 5 [[0%nat]]
           (boot 0 []) = Some (Throw e st')
         /\ e = KeyboardInterrupt
         /\ machine_procs st' = machine_procs interrupted_state
         /\ sigint_ignored st' = true
         /\ forall h, h ∈ held st' -> interrupted_and_exited st' h
     | Hang =>
         @schedule plain_library interrupted_os plain_args two_lines 5 [[0%nat]]
           (boot 0 []) = Some Hang
         /\ exists h t, h ∈ held interrupted_state
                        /\ @wait_result interrupted_os t h = None
     end.
Proof.
  split; [vm_compute; reflexivity|]. split; [vm_compute; reflexivity|].
  split; [vm_compute; reflexivity|].
  apply (@C8_drain_on_exception plain_library interrupted_os plain_args two_lines
           5 [[0%nat]] (boot 0 []) interrupted_setup interrupted_state
           KeyboardInterrupt);
    vm_compute; reflexivity.
Defined.

Lemma dispatch_skips `{Library} `{OS} (a : args) (lines : list string)
    mac mi i gpu_choice st line job_name job_cmd new_job_name command :
  lines !! line_num st = Some line ->
  job_names st !! line_num st = Some job_name ->
  build_job a mac gpu_choice job_name line = Ok (job_cmd, new_job_name, command) ->
  path_exists (clock st) ("./job_results/" +:+ new_job_name) = true ->
  match dispatch a lines mac mi i gpu_choice st with
  | Return proc st' =>
      proc = None /\ popens st' = popens st
      /\ machine_procs st' = machine_procs st
      /\ line_num st' = S (line_num st)
      /\ stdout st' = stdout st ++ [new_job_name; "skipping " +:+ command]
  | Throw _ st' =>
      popens st' = popens st /\ machine_procs st' = machine_procs st
  | Hang => False
  end.
Proof.
  intros Hline Hname Hjob Hex.
  unfold dispatch, bind, gets, lift, py_index.
  rewrite Hline. simpl. rewrite Hname. simpl. rewrite Hjob. simpl.
  set (st1 := match (if kabuki_commands a
                     then modify (fun st0 => set_job_names
                                    (<[line_num st := new_job_name]> (job_names st0)) st0)
                     else ret tt) st with
              | Return _ s => s | Throw _ s => s | Hang => st end).
  assert (H1 : (if kabuki_commands a
                then modify (fun st0 => set_job_names
                               (<[line_num st := new_job_name]> (job_names st0)) st0)
                else ret tt) st = Return tt st1).
  { unfold st1. now destruct (kabuki_commands a). }
  rewrite H1. unfold print, modify.
  set (st2 := set_stdout (stdout st1 ++ [new_job_name]) st1).
  assert (Hp2 : popens st2 = popens st) by (unfold st2, st1; now destruct (kabuki_commands a)).
  assert (Hm2 : machine_procs st2 = machine_procs st)
    by (unfold st2, st1; now destruct (kabuki_commands a)).
  assert (Ho2 : stdout st2 = stdout st ++ [new_job_name])
    by (unfold st2, st1; now destruct (kabuki_commands a)).
  assert (Hc2 : clock st2 = clock st) by (unfold st2, st1; now destruct (kabuki_commands a)).
  rewrite <- Hc2 in Hex.
  pose proof (launch_or_skip_marked a mi i (line_num st) job_cmd new_job_name
                command st2 Hex) as Hls.
  destruct (launch_or_skip a mi i (line_num st) job_cmd new_job_name command st2)
    as [proc st3|e st3|]; [| |contradiction].
  - destruct Hls as (-> & Hp3 & Hm3 & Ho3 & _). simpl.
    repeat split; try congruence.
    rewrite Ho3, Ho2, <- app_assoc. reflexivity.
  - destruct Hls as (Hp3 & Hm3). split; congruence.
Qed.

(** C7: a job whose effective name has its marker when the scheduler gets
    to it is skipped: the line is consumed, "skipping" is printed, the slot
    stays empty and nothing is spawned.  A run in which every effective
    name has its marker ends within one turn per line plus one, with nothing
    spawned and every slot empty. *)
Theorem C7_marked_jobs_are_skipped `{Library} `{OS} (a : args) (lines : list string) :
  (forall mac mi i gpu_choice st line job_name job_cmd new_job_name command,
     lines !! line_num st = Some line ->
     job_names st !! line_num st = Some job_name ->
     build_job a mac gpu_choice job_name line = Ok (job_cmd, new_job_name, command) ->
     path_exists (clock st) ("./job_results/" +:+ new_job_name) = true ->
     match dispatch a lines mac mi i gpu_choice st with
     | Return proc st' =>
         proc = None /\ popens st' = popens st
         /\ machine_procs st' = machine_procs st
         /\ line_num st' = S (line_num st)
         /\ stdout st' = stdout st ++ [new_job_name; "skipping " +:+ command]
     | Throw _ st' =>
         popens st' = popens st /\ machine_procs st' = machine_procs st
     | Hang => False
     end)
  /\ (all_marked a lines ->
      forall machine_gpu_choices t0 out,
      exists o st',
        schedule a lines (S (length lines)) machine_gpu_choices (boot t0 out) = Some o
        /\ final_state o = Some st' /\ popens st' = [] /\ held st' = []).
Proof.
  split.
  - intros. eapply dispatch_skips; eauto.
  - intros Hmarked machine_gpu_choices t0 out.
    now apply schedule_marked.
Qed.

Lemma C7_marked_jobs_are_skipped_witness :
  @all_marked plain_library marked_os plain_args two_lines
  /\ exists o st',
       @schedule plain_library marked_os plain_args two_lines
         (S (length two_lines)) [[0%nat]] (boot 0 []) = Some o
       /\ final_state o = Some st' /\ popens st' = [] /\ held st' = [].
Proof.
  assert (Hm : @all_marked plain_library marked_os plain_args two_lines)
    by (intros t mac gpu_choice n line job_name job_cmd new_job_name command _ _ _;
        reflexivity).
  split; [exact Hm|].
  apply (proj2 (@C7_marked_jobs_are_skipped plain_library marked_os plain_args
                  two_lines) Hm [[0%nat]] 0%nat []).
Defined.

(** ** Binary64 arithmetic

    How [Prim2SF] values round, subtract and compare, from the
    specification of the primitive operations. *)

Lemma emin_value : emin = -1074.
Proof. reflexivity. Qed.

Lemma digits2_pos_bounds (p : positive) :
  2 ^ (Zpos (digits2_pos p) - 1) <= Zpos p < 2 ^ Zpos (digits2_pos p).
Proof.
  induction p as [p IH|p IH|]; simpl digits2_pos.
  - rewrite Pos2Z.inj_succ. replace (Z.succ (Zpos (digits2_pos p)) - 1) with (Z.succ (Zpos (digits2_pos p) - 1)) by lia.
    rewrite !Z.pow_succ_r by lia. lia.
  - rewrite Pos2Z.inj_succ. replace (Z.succ (Zpos (digits2_pos p)) - 1) with (Z.succ (Zpos (digits2_pos p) - 1)) by lia.
    rewrite !Z.pow_succ_r by lia. lia.
  - simpl. lia.
Qed.

Lemma digits2_pos_log2 (p : positive) :
  Zpos (digits2_pos p) = Z.log2 (Zpos p) + 1.
Proof.
  pose proof (digits2_pos_bounds p) as [Hlo Hhi].
  assert (Z.log2 (Zpos p) = Zpos (digits2_pos p) - 1) as ->; [|lia].
  apply Z.log2_unique; [lia|]. split; [exact Hlo|].
  replace (Z.succ (Zpos (digits2_pos p) - 1)) with (Zpos (digits2_pos p)) by lia.
  exact Hhi.
Qed.

Lemma shl_align_spec (mx : positive) (ex ex' : Z) :
  (ex' < ex -> shl_align mx ex ex' = (Z.to_pos (Zpos mx * 2 ^ (ex - ex')), ex'))
  /\ (ex <= ex' -> shl_align mx ex ex' = (mx, ex)).
Proof.
  unfold shl_align. destruct (ex' - ex) as [|d|d] eqn:Hd.
  - split; [lia|reflexivity].
  - split; [lia|reflexivity].
  - split; [|lia]. intros _. f_equal.
    replace (ex - ex') with (Zpos d) by lia.
    pose proof (Zpower.shift_pos_correct d mx) as Hs. unfold Zpower.shift_pos in Hs.
    apply Pos2Z.inj. rewrite Hs.
    change (Z.pow_pos 2 d) with (2 ^ Zpos d).
    rewrite Z2Pos.id; [lia|]. apply Z.mul_pos_pos; [lia|]. apply Z.pow_pos_nonneg; lia.
Qed.

Lemma iter_pos_nat {A} (f : A -> A) (p : positive) (x : A) :
  SpecFloat.iter_pos f p x = Nat.iter (Pos.to_nat p) f x.
Proof.
  revert x. induction p as [p IH|p IH|]; intros x; cbn [SpecFloat.iter_pos].
  - rewrite !IH, Pos2Nat.inj_xI, Nat.iter_succ_r.
    replace (2 * Pos.to_nat p)%nat with (Pos.to_nat p + Pos.to_nat p)%nat by lia.
    now rewrite Nat.iter_add.
  - rewrite !IH, Pos2Nat.inj_xO.
    replace (2 * Pos.to_nat p)%nat with (Pos.to_nat p + Pos.to_nat p)%nat by lia.
    now rewrite Nat.iter_add.
  - reflexivity.
Qed.

Lemma shifted_0 (N : Z) : shifted N 0 (Build_shr_record N false false).
Proof.
  unfold shifted. cbn [shr_m shr_r shr_s].
  rewrite Z.pow_0_r, Z.div_1_r, Z.mod_1_r. repeat split; reflexivity.
Qed.

Lemma shr_1_shifted (N k : Z) mrs :
  0 <= N -> shifted N k mrs -> shifted N (k + 1) (shr_1 mrs).
Proof.
  intros HN (Hk & Hm & Hr & Hs).
  destruct mrs as [m r s]. simpl in Hm, Hr, Hs.
  assert (Hpow : 0 < 2 ^ k) by (apply Z.pow_pos_nonneg; lia).
  assert (Hpow1 : 2 ^ (k + 1) = 2 * 2 ^ k) by (rewrite Z.pow_add_r; lia).
  pose proof (Z.div_mod N (2 ^ k) ltac:(lia)) as Hdm.
  pose proof (Z.mod_pos_bound N (2 ^ k) Hpow) as Hb.
  assert (Hm0 : 0 <= m) by (subst m; apply Z.div_pos; lia).
  set (q := N / 2 ^ k) in *. set (rem := N mod 2 ^ k) in *.
  assert (Hq : N / 2 ^ (k + 1) = m / 2 /\ N mod 2 ^ (k + 1) = (m mod 2) * 2 ^ k + rem).
  { rewrite Hpow1.
    pose proof (Z.div_mod m 2 ltac:(lia)) as Hm2.
    pose proof (Z.mod_pos_bound m 2 ltac:(lia)) as Hb2.
    assert (HN2 : N = (m / 2) * (2 * 2 ^ k) + ((m mod 2) * 2 ^ k + rem)) by (subst m; nia).
    assert (Hrange : 0 <= (m mod 2) * 2 ^ k + rem < 2 * 2 ^ k) by nia.
    destruct (Z.div_mod_unique (2 * 2 ^ k) (N / (2 * 2 ^ k)) (m / 2)
                (N mod (2 * 2 ^ k)) ((m mod 2) * 2 ^ k + rem)) as [E1 E2];
      [left; apply Z.mod_pos_bound; lia | left; lia
      | rewrite <- Z.div_mod by lia; lia |].
    split; assumption. }
  destruct Hq as [Hq1 Hq2].
  unfold shifted. split; [lia|]. rewrite Hq1, Hq2, Hpow1.
  assert (Hshape : exists m' b,
            shr_1 {| shr_m := m; shr_r := r; shr_s := s |}
            = Build_shr_record m' b (r || s) /\ m = 2 * m' + Z.b2z b).
  { destruct m as [|[p|p|]|p]; try lia; eexists _, _;
      (split; [reflexivity|]); cbn [Z.b2z]; lia. }
  destruct Hshape as (m' & b & -> & Hmb). cbn [shr_m shr_r shr_s].
  assert (Hdiv : m / 2 = m' /\ m mod 2 = Z.b2z b).
  { destruct (Z.div_mod_unique 2 (m / 2) m' (m mod 2) (Z.b2z b)) as [E1 E2];
      [left; apply Z.mod_pos_bound; lia | left; destruct b; simpl; lia
      | rewrite <- Z.div_mod by lia; lia |]. split; assumption. }
  destruct Hdiv as [Hd1 Hd2]. rewrite Hd1, Hd2.
  split; [reflexivity|]. split.
  - destruct b; cbn [Z.b2z]; symmetry; [apply Z.leb_le|apply Z.leb_gt]; lia.
  - rewrite Hr, Hs.
    destruct b; cbn [Z.b2z];
    destruct (Z.leb_spec (2 ^ k) (2 * rem)), (Z.eqb_spec rem 0), (Z.eqb_spec (2 * rem) (2 ^ k));
      simpl; symmetry;
      rewrite ?negb_true_iff, ?negb_false_iff, ?orb_true_iff, ?orb_false_iff, ?Z.eqb_eq, ?Z.eqb_neq;
      lia.
Qed.

Lemma iter_shr_1_shifted (N k : Z) mrs (n : nat) :
  0 <= N -> shifted N k mrs ->
  shifted N (k + Z.of_nat n) (Nat.iter n shr_1 mrs).
Proof.
  intros HN Hs. induction n as [|n IH].
  - simpl. now rewrite Z.add_0_r.
  - rewrite Nat2Z.inj_succ. cbn [Nat.iter nat_rect].
    replace (k + Z.succ (Z.of_nat n)) with (k + Z.of_nat n + 1) by lia.
    now apply shr_1_shifted.
Qed.

Lemma shr_shifted (N e n : Z) :
  0 <= N -> 0 <= n ->
  shifted N n (fst (shr (Build_shr_record N false false) e n))
  /\ snd (shr (Build_shr_record N false false) e n) = e + n.
Proof.
  intros HN Hn. unfold shr. destruct n as [|p|p]; [| |lia].
  - simpl. split; [apply shifted_0|lia].
  - cbn [fst snd]. split; [|reflexivity].
    rewrite iter_pos_nat.
    replace (Zpos p) with (0 + Z.of_nat (Pos.to_nat p)) by (rewrite positive_nat_Z; lia).
    apply iter_shr_1_shifted; [exact HN|apply shifted_0].
Qed.

Lemma round_nearest_even_shifted (N k : Z) mrs :
  shifted N k mrs ->
  round_nearest_even (shr_m mrs) (loc_of_shr_record mrs) = rounded N k.
Proof.
  intros (Hk & Hm & Hr & Hs). destruct mrs as [m r s].
  cbn [shr_m shr_r shr_s] in *. unfold rounded. rewrite <- Hm.
  assert (Hpow : 0 < 2 ^ k) by (apply Z.pow_pos_nonneg; lia).
  pose proof (Z.mod_pos_bound N (2 ^ k) Hpow) as Hb.
  set (rem := N mod 2 ^ k) in *.
  destruct (Z.leb_spec (2 ^ k) (2 * rem)) as [H1|H1];
    destruct (Z.eqb_spec rem 0) as [H2|H2];
    destruct (Z.eqb_spec (2 * rem) (2 ^ k)) as [H3|H3];
    destruct (Z.ltb_spec (2 ^ k) (2 * rem)) as [H4|H4];
    subst r s; try lia; cbn [negb orb andb loc_of_shr_record round_nearest_even];
    try lia.
  rewrite <- Z.negb_even. destruct (Z.even m); simpl; lia.
Qed.

Lemma rounded_scale (a n j : Z) :
  0 <= n -> 0 <= j -> rounded (a * 2 ^ j) (n + j) = rounded a n.
Proof.
  intros Hn Hj. unfold rounded.
  assert (Hpn : 0 < 2 ^ n) by (apply Z.pow_pos_nonneg; lia).
  assert (Hpj : 0 < 2 ^ j) by (apply Z.pow_pos_nonneg; lia).
  rewrite Z.pow_add_r by lia.
  rewrite Z.div_mul_cancel_r by lia.
  rewrite Zmult_mod_distr_r.
  set (q := a / 2 ^ n). set (r := a mod 2 ^ n).
  replace (2 ^ n * 2 ^ j <? 2 * (r * 2 ^ j)) with (2 ^ n <? 2 * r).
  2:{ destruct (Z.ltb_spec (2 ^ n) (2 * r)); symmetry; [apply Z.ltb_lt|apply Z.ltb_ge]; nia. }
  replace (2 * (r * 2 ^ j) =? 2 ^ n * 2 ^ j) with (2 * r =? 2 ^ n).
  2:{ destruct (Z.eqb_spec (2 * r) (2 ^ n)); symmetry; [apply Z.eqb_eq|apply Z.eqb_neq]; nia. }
  reflexivity.
Qed.

Lemma round_pos_rounded (N : Z) :
  round_pos N
  = rounded N (Z.max (Z.log2 N + 1 - prec) 0) * 2 ^ Z.max (Z.log2 N + 1 - prec) 0.
Proof. reflexivity. Qed.

Lemma digits2_pos_unique (p : positive) (d : Z) :
  2 ^ (d - 1) <= Zpos p < 2 ^ d -> Zpos (digits2_pos p) = d.
Proof.
  intros [Hlo Hhi]. rewrite digits2_pos_log2.
  assert (Hd : 0 < d).
  { destruct (Z.le_gt_cases d 0) as [H|H]; [|exact H].
    assert (2 ^ d <= 2 ^ 0) by (destruct (Z.eq_dec d 0) as [->|]; [lia|rewrite Z.pow_neg_r by lia; simpl; lia]).
    simpl in *. lia. }
  rewrite (Z.log2_unique (Zpos p) (d - 1)); [lia|lia|].
  replace (Z.succ (d - 1)) with d by lia. auto.
Qed.

Lemma binary_round_aux_finish s mx ex lx :
  binary_round_aux prec emax s mx ex lx
  = finish s (round_nearest_even (shr_m (fst (shr_fexp prec emax mx ex lx)))
                (loc_of_shr_record (fst (shr_fexp prec emax mx ex lx))))
      (snd (shr_fexp prec emax mx ex lx)).
Proof.
  unfold binary_round_aux, finish.
  destruct (shr_fexp prec emax mx ex lx) as [mrs' e']. reflexivity.
Qed.

Lemma fexp_value (e : Z) : fexp prec emax e = Z.max (e - 53) (-1074).
Proof. reflexivity. Qed.

Lemma pow2_pos (k : Z) : 0 <= k -> 0 < 2 ^ k.
Proof. intros. apply Z.pow_pos_nonneg; lia. Qed.

Lemma pow2_split (a b : Z) : 0 <= a -> 0 <= b -> 2 ^ (a + b) = 2 ^ a * 2 ^ b.
Proof. intros. apply Z.pow_add_r; lia. Qed.

Lemma huge_value : huge = 2 ^ 2098.
Proof. reflexivity. Qed.

Lemma finish_spec (s : bool) (m1 E : Z) :
  -1074 <= E ->
  0 < m1 <= 2 ^ 53 ->
  (forall p, m1 = Zpos p -> m1 < 2 ^ 53 -> fexp prec emax (Zpos (digits2_pos p) + E) = E) ->
  (-1074 < E -> 2 ^ 52 <= m1) ->
  valid_binary (finish s m1 E) = true
  /\ SF_value (finish s m1 E) = Some (sgn s (cap (m1 * 2 ^ (E + 1074)))).
Proof.
  intros HE [Hpos Hle] Hcanon Hnormal.
  destruct m1 as [|p|p]; try lia.
  destruct (Z.eq_dec (Zpos p) (2 ^ 53)) as [Hcarry|Hno].
  - (* the rounding carried into a 54th digit *)
    assert (Hp : p = Z.to_pos (2 ^ 53)) by (apply Pos2Z.inj; rewrite Hcarry; reflexivity).
    subst p. unfold finish, shr_fexp.
    cbn [Zdigits2 shr_record_of_loc].
    replace (Zpos (digits2_pos (Z.to_pos (2 ^ 53)))) with 54 by reflexivity.
    rewrite fexp_value. replace (Z.max (54 + E - 53) (-1074) - E) with 1 by lia.
    cbn [shr SpecFloat.iter_pos fst snd].
    replace (shr_m (shr_1 {| shr_m := Zpos (Z.to_pos (2 ^ 53)); shr_r := false; shr_s := false |}))
      with (Zpos (Z.to_pos (2 ^ 52))) by reflexivity.
    replace (emax - prec) with 971 by reflexivity.
    replace (Zpos (Z.to_pos (2 ^ 53))) with (2 ^ 53) by reflexivity.
    assert (Hval : 2 ^ 53 * 2 ^ (E + 1074) = 2 ^ (E + 1127))
      by (rewrite <- pow2_split by lia; f_equal; lia).
    rewrite Hval. unfold cap. rewrite huge_value.
    destruct (Z.leb_spec (E + 1) 971) as [Hfin|Hinf].
    + split.
      * cbn [SpecFloat.valid_binary]. unfold bounded, canonical_mantissa.
        replace (Zpos (digits2_pos (Z.to_pos (2 ^ 52)))) with 53 by reflexivity.
        rewrite fexp_value. apply andb_true_iff. split; [apply Z.eqb_eq; lia|apply Z.leb_le].
        replace (emax - prec) with 971 by reflexivity. lia.
      * cbn [SF_value]. rewrite emin_value.
        replace (Zpos (Z.to_pos (2 ^ 52))) with (2 ^ 52) by reflexivity.
        replace (2 ^ 52 * 2 ^ (E + 1 - -1074)) with (2 ^ (E + 1127))
          by (rewrite <- pow2_split by lia; f_equal; lia).
        replace (2 ^ (E + 1127) <? 2 ^ 2098) with true
          by (symmetry; apply Z.ltb_lt, Z.pow_lt_mono_r; lia).
        now destruct s.
    + split; [reflexivity|]. cbn [SF_value].
      replace (2 ^ (E + 1127) <? 2 ^ 2098) with false
        by (symmetry; apply Z.ltb_ge, Z.pow_le_mono_r; lia).
      now destruct s.
  - (* no carry: the mantissa already fits *)
    assert (Hlt : Zpos p < 2 ^ 53) by lia.
    specialize (Hcanon p eq_refl Hlt).
    unfold finish, shr_fexp. cbn [Zdigits2 shr_record_of_loc].
    rewrite Hcanon, Z.sub_diag. cbn [shr shr_m].
    replace (emax - prec) with 971 by reflexivity.
    unfold cap. rewrite huge_value.
    assert (Hp2 : 0 < 2 ^ (E + 1074)) by (apply pow2_pos; lia).
    destruct (Z.leb_spec E 971) as [Hfin|Hinf].
    + assert (Hsmall : Zpos p * 2 ^ (E + 1074) < 2 ^ 2098).
      { apply Z.lt_le_trans with (2 ^ 53 * 2 ^ (E + 1074)); [nia|].
        rewrite <- pow2_split by lia. apply Z.pow_le_mono_r; lia. }
      split.
      * cbn [SpecFloat.valid_binary]. unfold bounded, canonical_mantissa.
        rewrite Hcanon, Z.eqb_refl. simpl. apply Z.leb_le.
        replace (emax - prec) with 971 by reflexivity. exact Hfin.
      * cbn [SF_value]. rewrite emin_value.
        replace (E - -1074) with (E + 1074) by lia.
        replace (Zpos p * 2 ^ (E + 1074) <? 2 ^ 2098) with true
          by (symmetry; now apply Z.ltb_lt).
        now destruct s.
    + assert (Hbig : 2 ^ 2098 <= Zpos p * 2 ^ (E + 1074)).
      { apply Z.le_trans with (2 ^ 52 * 2 ^ (E + 1074)); [|specialize (Hnormal ltac:(lia)); nia].
        rewrite <- pow2_split by lia. apply Z.pow_le_mono_r; lia. }
      split; [reflexivity|]. cbn [SF_value].
      replace (Zpos p * 2 ^ (E + 1074) <? 2 ^ 2098) with false
        by (symmetry; now apply Z.ltb_ge).
      now destruct s.
Qed.

Lemma rounded_0 (N : Z) : rounded N 0 = N.
Proof.
  unfold rounded. rewrite Z.pow_0_r, Z.div_1_r, Z.mod_1_r. simpl. lia.
Qed.

Lemma rounded_bounds (N k : Z) :
  0 <= k -> N / 2 ^ k <= rounded N k <= N / 2 ^ k + 1.
Proof.
  intros Hk. unfold rounded.
  destruct ((2 ^ k <? 2 * (N mod 2 ^ k)) || _); lia.
Qed.

Lemma binary_round_aux_spec (s : bool) (mz : positive) (ez : Z) :
  -1074 <= ez ->
  ez <= fexp prec emax (Zpos (digits2_pos mz) + ez) ->
  valid_binary (binary_round_aux prec emax s (Zpos mz) ez loc_Exact) = true
  /\ SF_value (binary_round_aux prec emax s (Zpos mz) ez loc_Exact)
     = Some (sgn s (cap (round_pos (Zpos mz * 2 ^ (ez + 1074))))).
Proof.
  intros Hez Hfexp. rewrite binary_round_aux_finish.
  unfold shr_fexp. cbn [Zdigits2 shr_record_of_loc].
  pose proof (digits2_pos_bounds mz) as [Hlo Hhi].
  pose proof (digits2_pos_log2 mz) as Hlog.
  set (dz := Zpos (digits2_pos mz)) in *.
  rewrite fexp_value in *.
  set (E := Z.max (dz + ez - 53) (-1074)) in *.
  assert (Hn : 0 <= E - ez) by lia.
  destruct (shr_shifted (Zpos mz) ez (E - ez) ltac:(lia) Hn) as [Hsh He].
  rewrite (round_nearest_even_shifted _ _ _ Hsh), He.
  replace (ez + (E - ez)) with E by lia.
  (* the float_value is the rounding of N *)
  assert (Hround : round_pos (Zpos mz * 2 ^ (ez + 1074))
                   = rounded (Zpos mz) (E - ez) * 2 ^ (E + 1074)).
  { rewrite round_pos_rounded.
    rewrite Z.log2_mul_pow2 by lia.
    replace (Z.max (ez + 1074 + Z.log2 (Zpos mz) + 1 - prec) 0) with (E - ez + (ez + 1074))
      by (unfold prec; lia).
    rewrite rounded_scale by lia. f_equal. f_equal. lia. }
  rewrite Hround.
  assert (Hdz : 0 < dz) by (unfold dz; lia).
  apply finish_spec; [lia| | |].
  - (* 0 < m1 <= 2^53 *)
    destruct (Z.eq_dec (E - ez) 0) as [H0|H0].
    + rewrite H0, rounded_0. split; [lia|].
      assert (dz <= 53) by lia.
      apply Z.lt_le_incl, Z.lt_le_trans with (2 ^ dz); [exact Hhi|].
      apply Z.pow_le_mono_r; lia.
    + assert (HE : E = dz + ez - 53) by lia.
      pose proof (rounded_bounds (Zpos mz) (E - ez) Hn) as [Hb1 Hb2].
      assert (Hq1 : 2 ^ 52 <= Zpos mz / 2 ^ (E - ez)).
      { apply Z.div_le_lower_bound; [apply pow2_pos; lia|].
        rewrite Z.mul_comm, <- pow2_split by lia.
        replace (52 + (E - ez)) with (dz - 1) by lia. exact Hlo. }
      assert (Hq2 : Zpos mz / 2 ^ (E - ez) < 2 ^ 53).
      { apply Z.div_lt_upper_bound; [apply pow2_pos; lia|].
        rewrite <- pow2_split by lia.
        replace (E - ez + 53) with dz by lia. exact Hhi. }
      assert (0 < 2 ^ 52) by (apply pow2_pos; lia).
      lia.
  - (* canonical unless it carried *)
    intros p Hp Hlt. rewrite fexp_value.
    destruct (Z.eq_dec (E - ez) 0) as [H0|H0].
    + rewrite H0, rounded_0 in Hp. injection Hp as <-. fold dz. lia.
    + assert (HE : E = dz + ez - 53) by lia.
      pose proof (rounded_bounds (Zpos mz) (E - ez) Hn) as [Hb1 Hb2].
      assert (Hq1 : 2 ^ 52 <= Zpos mz / 2 ^ (E - ez)).
      { apply Z.div_le_lower_bound; [apply pow2_pos; lia|].
        rewrite Z.mul_comm, <- pow2_split by lia.
        replace (52 + (E - ez)) with (dz - 1) by lia. exact Hlo. }
      assert (Hd : Zpos (digits2_pos p) = 53).
      { apply digits2_pos_unique. rewrite <- Hp. replace (53 - 1) with 52 by lia. lia. }
      rewrite Hd. lia.
  - (* normal above the smallest exponent *)
    intros HE1.
    destruct (Z.eq_dec (E - ez) 0) as [H0|H0].
    + rewrite H0, rounded_0.
      assert (dz = 53) by lia. replace 52 with (dz - 1) by lia. exact Hlo.
    + assert (HE : E = dz + ez - 53) by lia.
      pose proof (rounded_bounds (Zpos mz) (E - ez) Hn) as [Hb1 Hb2].
      assert (Hq1 : 2 ^ 52 <= Zpos mz / 2 ^ (E - ez)).
      { apply Z.div_le_lower_bound; [apply pow2_pos; lia|].
        rewrite Z.mul_comm, <- pow2_split by lia.
        replace (52 + (E - ez)) with (dz - 1) by lia. exact Hlo. }
      lia.
Qed.

Lemma binary_round_spec (s : bool) (mx : positive) (ex : Z) :
  -1074 <= ex ->
  valid_binary (binary_round prec emax s mx ex) = true
  /\ SF_value (binary_round prec emax s mx ex)
     = Some (sgn s (cap (round_pos (Zpos mx * 2 ^ (ex + 1074))))).
Proof.
  intros Hex. unfold binary_round.
  pose proof (digits2_pos_log2 mx) as Hlog.
  set (E := fexp prec emax (Zpos (digits2_pos mx) + ex)).
  assert (HE : E = Z.max (Zpos (digits2_pos mx) + ex - 53) (-1074)) by reflexivity.
  destruct (shl_align_spec mx ex E) as [Hshl Hkeep].
  destruct (Z.lt_ge_cases E ex) as [Hlt|Hge].
  - rewrite (Hshl Hlt).
    assert (Hpos : 0 < Zpos mx * 2 ^ (ex - E))
      by (apply Z.mul_pos_pos; [lia|apply pow2_pos; lia]).
    assert (Hmz : Zpos (Z.to_pos (Zpos mx * 2 ^ (ex - E))) = Zpos mx * 2 ^ (ex - E))
      by (apply Z2Pos.id; exact Hpos).
    assert (Hdig : Zpos (digits2_pos (Z.to_pos (Zpos mx * 2 ^ (ex - E))))
                   = Zpos (digits2_pos mx) + (ex - E)).
    { rewrite digits2_pos_log2, Hmz, Z.log2_mul_pow2 by lia. lia. }
    destruct (binary_round_aux_spec s (Z.to_pos (Zpos mx * 2 ^ (ex - E))) E) as [Hv Hval];
      [lia | rewrite Hdig, fexp_value; lia |].
    split; [exact Hv|]. rewrite Hval, Hmz.
    rewrite <- Z.mul_assoc, <- pow2_split by lia.
    replace (ex - E + (E + 1074)) with (ex + 1074) by lia. reflexivity.
  - rewrite (Hkeep Hge). apply binary_round_aux_spec; [exact Hex|exact Hge].
Qed.

Lemma binary_normalize_spec (m e : Z) (szero : bool) :
  -1074 <= e ->
  valid_binary (binary_normalize prec emax m e szero) = true
  /\ SF_value (binary_normalize prec emax m e szero) = Some (rnd (m * 2 ^ (e + 1074))).
Proof.
  intros He. assert (Hp : 0 < 2 ^ (e + 1074)) by (apply pow2_pos; lia).
  destruct m as [|p|p]; cbn [binary_normalize].
  - split; reflexivity.
  - destruct (binary_round_spec false p e He) as [Hv Hval]. split; [exact Hv|].
    rewrite Hval. cbn [sgn].
    destruct (Zpos p * 2 ^ (e + 1074)) eqn:HN; try lia. reflexivity.
  - destruct (binary_round_spec true p e He) as [Hv Hval]. split; [exact Hv|].
    rewrite Hval. cbn [sgn].
    destruct (Zneg p * 2 ^ (e + 1074)) as [|q|q] eqn:HN; try lia.
    cbn [rnd]. rewrite <- HN, <- Z.mul_opp_l. reflexivity.
Qed.

(** *** Rounding is monotone *)
Lemma rounded_multiple (a k : Z) : 0 <= k -> rounded (a * 2 ^ k) k = a.
Proof.
  intros Hk. pose proof (pow2_pos k Hk) as Hp. unfold rounded.
  rewrite Z.div_mul, Z.mod_mul by lia.
  replace (2 ^ k <? 2 * 0) with false by (symmetry; apply Z.ltb_ge; lia).
  replace (2 * 0 =? 2 ^ k) with false by (symmetry; apply Z.eqb_neq; lia).
  simpl. lia.
Qed.

Lemma rounded_mono (N N' k : Z) :
  0 <= k -> N <= N' -> rounded N k <= rounded N' k.
Proof.
  intros Hk HN. pose proof (pow2_pos k Hk) as Hp.
  pose proof (Z.div_le_mono N N' (2 ^ k) Hp HN) as Hq.
  pose proof (rounded_bounds N k Hk) as [H1 H2].
  pose proof (rounded_bounds N' k Hk) as [H1' H2'].
  destruct (Z.eq_dec (N / 2 ^ k) (N' / 2 ^ k)) as [Heq|Hne]; [|lia].
  unfold rounded. rewrite <- Heq.
  pose proof (Z.div_mod N (2 ^ k) ltac:(lia)) as HdN.
  pose proof (Z.div_mod N' (2 ^ k) ltac:(lia)) as HdN'.
  assert (Hr : N mod 2 ^ k <= N' mod 2 ^ k) by (rewrite <- Heq in HdN'; nia).
  set (r := N mod 2 ^ k) in *. set (r' := N' mod 2 ^ k) in *.
  destruct (Z.ltb_spec (2 ^ k) (2 * r)), (Z.ltb_spec (2 ^ k) (2 * r')),
           (Z.eqb_spec (2 * r) (2 ^ k)), (Z.eqb_spec (2 * r') (2 ^ k));
    try lia; cbn [orb andb]; destruct (Z.odd (N / 2 ^ k)); lia.
Qed.

(** A number of [d] digits rounds to a number between [2^(d-1)] and
    [2^d]. *)
Lemma round_pos_binade (N : Z) :
  0 < N ->
  2 ^ Z.log2 N <= round_pos N <= 2 ^ (Z.log2 N + 1).
Proof.
  intros HN. rewrite round_pos_rounded.
  pose proof (Z.log2_nonneg N) as Hl.
  pose proof (Z.log2_spec N HN) as [Hlo Hhi].
  set (d := Z.log2 N) in *.
  set (k := Z.max (d + 1 - prec) 0).
  assert (Hk : 0 <= k <= d) by (unfold k, prec; lia).
  pose proof (pow2_pos k ltac:(lia)) as Hp.
  split.
  - replace (2 ^ d) with (2 ^ (d - k) * 2 ^ k) by (rewrite <- pow2_split by lia; f_equal; lia).
    apply Z.mul_le_mono_nonneg_r; [lia|].
    apply Z.le_trans with (rounded (2 ^ (d - k) * 2 ^ k) k);
      [rewrite rounded_multiple by lia; lia|].
    apply rounded_mono; [lia|].
    rewrite <- pow2_split by lia. replace (d - k + k) with d by lia. exact Hlo.
  - replace (2 ^ (d + 1)) with (2 ^ (d + 1 - k) * 2 ^ k)
      by (rewrite <- pow2_split by lia; f_equal; lia).
    apply Z.mul_le_mono_nonneg_r; [lia|].
    apply Z.le_trans with (rounded (2 ^ (d + 1 - k) * 2 ^ k) k);
      [|rewrite rounded_multiple by lia; lia].
    apply rounded_mono; [lia|].
    rewrite <- pow2_split by lia. replace (d + 1 - k + k) with (Z.succ d) by lia.
    lia.
Qed.

Lemma round_pos_mono (N N' : Z) :
  0 < N -> N <= N' -> round_pos N <= round_pos N'.
Proof.
  intros HN Hle.
  pose proof (Z.log2_le_mono N N' Hle) as Hlog.
  pose proof (Z.log2_nonneg N) as Hl.
  destruct (Z.eq_dec (Z.log2 N) (Z.log2 N')) as [Heq|Hne].
  - rewrite !round_pos_rounded, <- Heq.
    apply Z.mul_le_mono_nonneg_r; [apply Z.lt_le_incl, pow2_pos; unfold prec; lia|].
    apply rounded_mono; [unfold prec; lia|exact Hle].
  - pose proof (round_pos_binade N HN) as [_ Hup].
    pose proof (round_pos_binade N' ltac:(lia)) as [Hlow _].
    apply Z.le_trans with (2 ^ (Z.log2 N + 1)); [exact Hup|].
    apply Z.le_trans with (2 ^ Z.log2 N'); [|exact Hlow].
    apply Z.pow_le_mono_r; lia.
Qed.

Lemma round_pos_pos (N : Z) : 0 < N -> 0 < round_pos N.
Proof.
  intros HN. pose proof (round_pos_binade N HN) as [Hlo _].
  pose proof (pow2_pos (Z.log2 N) (Z.log2_nonneg N)). lia.
Qed.

Lemma cap_mono (v v' : Z) : v <= v' -> xle (cap v) (cap v').
Proof.
  intros Hv. unfold cap.
  destruct (Z.ltb_spec v huge), (Z.ltb_spec v' huge); simpl; auto; lia.
Qed.

Lemma cap_pos (v : Z) : 0 < v -> xle (Fin 0) (cap v).
Proof. intros Hv. unfold cap. destruct (v <? huge); simpl; auto; lia. Qed.

Lemma xle_refl (x : xval) : xle x x.
Proof. destruct x; simpl; auto; lia. Qed.

Lemma xle_trans (x y z : xval) : xle x y -> xle y z -> xle x z.
Proof. destruct x, y, z; simpl; auto; try lia; try contradiction. Qed.

Lemma xopp_mono (x y : xval) : xle x y -> xle (xopp y) (xopp x).
Proof. destruct x, y; simpl; auto; lia. Qed.

Lemma rnd_mono (N N' : Z) : N <= N' -> xle (rnd N) (rnd N').
Proof.
  intros Hle. destruct N as [|p|p], N' as [|p'|p']; try lia; cbn [rnd].
  - simpl. lia.
  - apply cap_pos, round_pos_pos. lia.
  - apply cap_mono, round_pos_mono; lia.
  - apply (xopp_mono (Fin 0)), cap_pos, round_pos_pos. lia.
  - apply xle_trans with (Fin 0).
    + apply (xopp_mono (Fin 0)), cap_pos, round_pos_pos. lia.
    + apply cap_pos, round_pos_pos. lia.
  - apply xopp_mono, cap_mono, round_pos_mono; lia.
Qed.

(** *** Floats are fixed by rounding *)
Lemma valid_finite_bounds (s : bool) (m : positive) (e : Z) :
  valid_binary (S754_finite s m e) = true ->
  -1074 <= e <= 971
  /\ e = Z.max (Zpos (digits2_pos m) + e - 53) (-1074).
Proof.
  cbn [SpecFloat.valid_binary]. unfold bounded, canonical_mantissa.
  rewrite andb_true_iff, Z.eqb_eq, Z.leb_le, fexp_value.
  replace (emax - prec) with 971 by reflexivity. lia.
Qed.

Lemma round_pos_representable (m : positive) (e : Z) :
  -1074 <= e ->
  e = Z.max (Zpos (digits2_pos m) + e - 53) (-1074) ->
  round_pos (Zpos m * 2 ^ (e + 1074)) = Zpos m * 2 ^ (e + 1074).
Proof.
  intros He Hcanon. rewrite round_pos_rounded.
  rewrite Z.log2_mul_pow2 by lia.
  pose proof (digits2_pos_log2 m) as Hlog.
  replace (Z.max (e + 1074 + Z.log2 (Zpos m) + 1 - prec) 0) with (e + 1074)
    by (unfold prec; lia).
  now rewrite rounded_multiple by lia.
Qed.

Lemma representable_small (m : positive) (e : Z) :
  -1074 <= e <= 971 ->
  e = Z.max (Zpos (digits2_pos m) + e - 53) (-1074) ->
  Zpos m * 2 ^ (e + 1074) < huge.
Proof.
  intros He Hcanon. rewrite huge_value.
  pose proof (digits2_pos_bounds m) as [_ Hhi].
  assert (Hd : Zpos (digits2_pos m) <= 53) by lia.
  assert (Hm : Zpos m < 2 ^ 53).
  { apply Z.lt_le_trans with (2 ^ Zpos (digits2_pos m)); [exact Hhi|].
    apply Z.pow_le_mono_r; lia. }
  pose proof (pow2_pos (e + 1074) ltac:(lia)) as Hp.
  apply Z.lt_le_trans with (2 ^ 53 * 2 ^ (e + 1074)); [nia|].
  rewrite <- pow2_split by lia. apply Z.pow_le_mono_r; lia.
Qed.

Lemma rnd_representable (s : bool) (m : positive) (e : Z) :
  valid_binary (S754_finite s m e) = true ->
  rnd (cond_Zopp s (Zpos m * 2 ^ (e + 1074)))
  = Fin (cond_Zopp s (Zpos m * 2 ^ (e + 1074))).
Proof.
  intros Hv. apply valid_finite_bounds in Hv as [He Hcanon].
  pose proof (pow2_pos (e + 1074) ltac:(lia)) as Hp.
  pose proof (round_pos_representable m e ltac:(lia) Hcanon) as Hr.
  pose proof (representable_small m e He Hcanon) as Hs.
  assert (HN : 0 < Zpos m * 2 ^ (e + 1074)) by (apply Z.mul_pos_pos; lia).
  destruct s; cbn [cond_Zopp].
  - destruct (- (Zpos m * 2 ^ (e + 1074))) as [|q|q] eqn:HN'; try lia.
    cbn [rnd]. replace (- Zneg q) with (Zpos m * 2 ^ (e + 1074)) by lia.
    rewrite Hr. unfold cap.
    replace (Zpos m * 2 ^ (e + 1074) <? huge) with true by (symmetry; now apply Z.ltb_lt).
    cbn [xopp]. f_equal. lia.
  - destruct (Zpos m * 2 ^ (e + 1074)) as [|q|q] eqn:HN'; try lia.
    cbn [rnd]. rewrite Hr. unfold cap.
    replace (Zpos q <? huge) with true by (symmetry; now apply Z.ltb_lt).
    reflexivity.
Qed.

Lemma shl_align_value (m : positive) (e e' : Z) :
  e' <= e -> Zpos (fst (shl_align m e e')) = Zpos m * 2 ^ (e - e').
Proof.
  intros Hle. destruct (shl_align_spec m e e') as [Hshl Hkeep].
  destruct (Z.eq_dec e e') as [->|Hne].
  - rewrite Hkeep by lia. cbn [fst]. rewrite Z.sub_diag. lia.
  - rewrite Hshl by lia. cbn [fst]. apply Z2Pos.id.
    apply Z.mul_pos_pos; [lia|apply pow2_pos; lia].
Qed.

Lemma SF_value_finite (s : bool) (m : positive) (e : Z) :
  SF_value (S754_finite s m e) = Some (Fin (cond_Zopp s (Zpos m * 2 ^ (e + 1074)))).
Proof.
  cbn [SF_value]. rewrite emin_value.
  replace (e - -1074) with (e + 1074) by lia. reflexivity.
Qed.

Lemma SFsub_value (x y : spec_float) :
  valid_binary x = true -> valid_binary y = true ->
  SF_value (SF64sub x y)
  = match SF_value x, SF_value y with
    | Some a, Some b => xsub a b
    | _, _ => None
    end.
Proof.
  intros Hx Hy. unfold SF64sub.
  destruct x as [sx|sx| |sx mx ex], y as [sy|sy| |sy my ey];
    try reflexivity;
    try (destruct sx, sy; reflexivity);
    try (destruct sx; reflexivity);
    try (destruct sy; reflexivity).
  - (* zero - finite *)
    cbn [SFsub]. rewrite !SF_value_finite. cbn [SF_value xsub].
    rewrite Z.sub_0_l.
    replace (- cond_Zopp sy (Zpos my * 2 ^ (ey + 1074)))
      with (cond_Zopp (negb sy) (Zpos my * 2 ^ (ey + 1074)))
      by (destruct sy; cbn [cond_Zopp negb]; lia).
    rewrite rnd_representable by exact Hy. reflexivity.
  - (* finite - zero *)
    cbn [SFsub]. rewrite !SF_value_finite. cbn [SF_value xsub].
    rewrite Z.sub_0_r. rewrite rnd_representable by exact Hx. reflexivity.
  - (* finite - finite *)
    cbn [SFsub]. rewrite !SF_value_finite. cbn [xsub].
    apply valid_finite_bounds in Hx as [Hex _].
    apply valid_finite_bounds in Hy as [Hey _].
    destruct (binary_normalize_spec
                (cond_Zopp sx (Zpos (fst (shl_align mx ex (Z.min ex ey))))
                 - cond_Zopp sy (Zpos (fst (shl_align my ey (Z.min ex ey)))))
                (Z.min ex ey) false ltac:(lia)) as [_ Hval].
    rewrite Hval. do 2 f_equal.
    rewrite !shl_align_value by lia.
    rewrite Z.mul_sub_distr_r.
    assert (H1 : Zpos mx * 2 ^ (ex - Z.min ex ey) * 2 ^ (Z.min ex ey + 1074)
                 = Zpos mx * 2 ^ (ex + 1074)).
    { rewrite <- Z.mul_assoc, <- pow2_split by lia. do 2 f_equal. lia. }
    assert (H2 : Zpos my * 2 ^ (ey - Z.min ex ey) * 2 ^ (Z.min ex ey + 1074)
                 = Zpos my * 2 ^ (ey + 1074)).
    { rewrite <- Z.mul_assoc, <- pow2_split by lia. do 2 f_equal. lia. }
    destruct sx, sy; cbn [cond_Zopp]; rewrite ?Z.mul_opp_l, H1, H2; reflexivity.
Qed.

Lemma xsub_mono (a a' : xval) (x x' : Z) :
  xle a' a -> x <= x' ->
  exists r r', xsub a (Fin x) = Some r /\ xsub a' (Fin x') = Some r' /\ xle r' r.
Proof.
  intros Ha Hx. destruct a, a'; simpl in Ha; try contradiction;
    cbn [xsub]; eexists _, _; (split; [reflexivity|]); (split; [reflexivity|]);
    try exact I; try (apply rnd_mono; lia).
  destruct (rnd (z - x')); exact I.
Qed.

(** *** Comparison *)
Lemma canonical_lt (s1 s2 : bool) (m1 m2 : positive) (e1 e2 : Z) :
  valid_binary (S754_finite s1 m1 e1) = true ->
  valid_binary (S754_finite s2 m2 e2) = true ->
  e1 < e2 ->
  Zpos m1 * 2 ^ (e1 + 1074) < Zpos m2 * 2 ^ (e2 + 1074).
Proof.
  intros H1 H2 Hlt.
  apply valid_finite_bounds in H1 as [He1 Hc1].
  apply valid_finite_bounds in H2 as [He2 Hc2].
  pose proof (digits2_pos_bounds m1) as [_ Hhi1].
  pose proof (digits2_pos_bounds m2) as [Hlo2 _].
  assert (Hd2 : Zpos (digits2_pos m2) = 53) by lia.
  rewrite Hd2 in Hlo2. replace (53 - 1) with 52 in Hlo2 by lia.
  assert (Hm1 : Zpos m1 < 2 ^ 53).
  { apply Z.lt_le_trans with (2 ^ Zpos (digits2_pos m1)); [exact Hhi1|].
    apply Z.pow_le_mono_r; lia. }
  pose proof (pow2_pos (e1 + 1074) ltac:(lia)) as Hp1.
  pose proof (pow2_pos (e2 + 1074) ltac:(lia)) as Hp2.
  apply Z.lt_le_trans with (2 ^ 53 * 2 ^ (e1 + 1074)); [nia|].
  apply Z.le_trans with (2 ^ 52 * 2 ^ (e2 + 1074)); [|nia].
  rewrite <- !pow2_split by lia. apply Z.pow_le_mono_r; lia.
Qed.

Lemma SFltb_value (x y : spec_float) (a b : xval) :
  valid_binary x = true -> valid_binary y = true ->
  SF_value x = Some a -> SF_value y = Some b ->
  (SFltb x y = true <-> xlt a b).
Proof.
  intros Hx Hy Ha Hb. unfold SFltb.
  destruct x as [sx|sx| |sx mx ex], y as [sy|sy| |sy my ey];
    try discriminate; rewrite ?SF_value_finite in *;
    injection Ha as <-; injection Hb as <-.
  - simpl. split; [discriminate|lia].
  - destruct sy; simpl; split; auto; discriminate.
  - cbn [SFcompare xlt]. apply valid_finite_bounds in Hy as [Hey _].
    pose proof (pow2_pos (ey + 1074) ltac:(lia)).
    destruct sy; cbn [cond_Zopp]; split; try discriminate; try lia; auto.
  - destruct sx; simpl; split; auto; discriminate.
  - destruct sx, sy; simpl; split; auto; discriminate.
  - destruct sx; simpl; split; auto; discriminate.
  - cbn [SFcompare xlt]. apply valid_finite_bounds in Hx as [Hex _].
    pose proof (pow2_pos (ex + 1074) ltac:(lia)).
    destruct sx; cbn [cond_Zopp]; split; try discriminate; try lia; auto.
  - destruct sy; simpl; split; auto; discriminate.
  - cbn [SFcompare xlt].
    pose proof (fun H => canonical_lt sx sy mx my ex ey Hx Hy H) as Hlt.
    pose proof (fun H => canonical_lt sy sx my mx ey ex Hy Hx H) as Hgt.
    apply valid_finite_bounds in Hx as [Hex _].
    apply valid_finite_bounds in Hy as [Hey _].
    pose proof (pow2_pos (ex + 1074) ltac:(lia)) as Hpx.
    pose proof (pow2_pos (ey + 1074) ltac:(lia)) as Hpy.
    assert (0 < Zpos mx * 2 ^ (ex + 1074)) by (apply Z.mul_pos_pos; lia).
    assert (0 < Zpos my * 2 ^ (ey + 1074)) by (apply Z.mul_pos_pos; lia).
    destruct (Z.compare_spec ex ey) as [Heq|Hlt'|Hgt'].
    + subst ey. change (Pos.compare_cont Eq mx my) with (Pos.compare mx my).
      destruct (Pos.compare_spec mx my) as [Hm|Hm|Hm];
        [subst my| |]; destruct sx, sy; cbn [cond_Zopp CompOpp];
        split; try discriminate; try reflexivity; try lia; try nia.
    + specialize (Hlt Hlt'). destruct sx, sy; cbn [cond_Zopp];
        split; try discriminate; try reflexivity; lia.
    + specialize (Hgt ltac:(lia)). destruct sx, sy; cbn [cond_Zopp];
        split; try discriminate; try reflexivity; lia.
Qed.

Lemma float_value_sub (c x : float) :
  float_value (c - x)
  = match float_value c, float_value x with
    | Some a, Some b => xsub a b
    | _, _ => None
    end.
Proof.
  unfold float_value. rewrite sub_spec. apply SFsub_value; apply Prim2SF_valid.
Qed.

Lemma ltb_float_value (x y : float) :
  (x <? y)%float = true <->
  exists a b, float_value x = Some a /\ float_value y = Some b /\ xlt a b.
Proof.
  rewrite ltb_spec. unfold float_value.
  pose proof (Prim2SF_valid x) as Hx. pose proof (Prim2SF_valid y) as Hy.
  destruct (SF_value (Prim2SF x)) as [a|] eqn:Ha.
  - destruct (SF_value (Prim2SF y)) as [b|] eqn:Hb.
    + rewrite (SFltb_value _ _ a b Hx Hy Ha Hb). split; [eauto|].
      now intros (a' & b' & [= <-] & [= <-] & Hlt).
    + split; [|now intros (a' & b' & _ & ? & _)].
      destruct (Prim2SF y); try discriminate;
        unfold SFltb; now destruct (Prim2SF x).
  - split; [|now intros (a' & b' & ? & _)].
    destruct (Prim2SF x); try discriminate; unfold SFltb; discriminate.
Qed.

Lemma float_le_refl (x : float) : float_le x x.
Proof. unfold float_le. destruct (float_value x); [apply xle_refl|exact I]. Qed.

Lemma xle_lt_trans (a b c : xval) : xle a b -> xlt b c -> xlt a c.
Proof. destruct a, b, c; simpl; auto; try lia; try contradiction. Qed.

Lemma ltb_float_le (c c' t : float) :
  float_le c' c -> (c <? t)%float = true -> (c' <? t)%float = true.
Proof.
  intros Hle Hlt. apply ltb_float_value in Hlt as (a & b & Ha & Hb & Hab).
  apply ltb_float_value. unfold float_le in Hle. rewrite Ha in Hle.
  destruct (float_value c') as [a'|]; [|contradiction].
  exists a', b. repeat split; auto. eapply xle_lt_trans; eauto.
Qed.

Lemma sub_float_le (c c' x x' : float) (v v' : Z) :
  float_le c' c ->
  float_value x = Some (Fin v) -> float_value x' = Some (Fin v') -> v <= v' ->
  float_le (c' - x') (c - x).
Proof.
  unfold float_le. intros Hc Hx Hx' Hv. rewrite !float_value_sub, Hx, Hx'.
  destruct (float_value c) as [a|], (float_value c') as [a'|]; try contradiction; [|exact I].
  destruct (xsub_mono a a' v v' Hc Hv) as (r & r' & -> & -> & Hr). exact Hr.
Qed.

Lemma float_of_int_value (z : Z) (f : float) :
  float_of_int z = Ok f ->
  exists v, float_value f = Some (Fin v) /\ rnd (z * 2 ^ 1074) = Fin v.
Proof.
  unfold float_of_int.
  destruct (binary_normalize_spec z 0 false ltac:(lia)) as [Hvalid Hval].
  replace (0 + 1074) with 1074 in Hval by lia.
  destruct (is_infinity (SF2Prim (binary_normalize prec emax z 0 false))) eqn:Hinf;
    [discriminate|].
  intros [= <-]. unfold float_value. rewrite (Prim2SF_SF2Prim _ Hvalid), Hval.
  destruct (rnd (z * 2 ^ 1074)) as [|v|] eqn:Hr; [|eauto|];
    destruct (binary_normalize prec emax z 0 false) as [| [|] | |];
    try discriminate; vm_compute in Hinf; discriminate.
Qed.

(** *** Addition *)

Lemma SFadd_value (x y : spec_float) :
  valid_binary x = true -> valid_binary y = true ->
  SF_value (SF64add x y)
  = match SF_value x, SF_value y with
    | Some a, Some b => xadd a b
    | _, _ => None
    end.
Proof.
  intros Hx Hy. unfold SF64add.
  destruct x as [sx|sx| |sx mx ex], y as [sy|sy| |sy my ey];
    try reflexivity;
    try (destruct sx, sy; reflexivity);
    try (destruct sx; reflexivity);
    try (destruct sy; reflexivity).
  - (* zero + finite *)
    cbn [SFadd]. rewrite !SF_value_finite. cbn [SF_value xadd].
    rewrite Z.add_0_l. rewrite rnd_representable by exact Hy. reflexivity.
  - (* finite + zero *)
    cbn [SFadd]. rewrite !SF_value_finite. cbn [SF_value xadd].
    rewrite Z.add_0_r. rewrite rnd_representable by exact Hx. reflexivity.
  - (* finite + finite *)
    cbn [SFadd]. rewrite !SF_value_finite. cbn [xadd].
    apply valid_finite_bounds in Hx as [Hex _].
    apply valid_finite_bounds in Hy as [Hey _].
    destruct (binary_normalize_spec
                (cond_Zopp sx (Zpos (fst (shl_align mx ex (Z.min ex ey))))
                 + cond_Zopp sy (Zpos (fst (shl_align my ey (Z.min ex ey)))))
                (Z.min ex ey) false ltac:(lia)) as [_ Hval].
    rewrite Hval. do 2 f_equal.
    rewrite !shl_align_value by lia.
    rewrite Z.mul_add_distr_r.
    assert (H1 : Zpos mx * 2 ^ (ex - Z.min ex ey) * 2 ^ (Z.min ex ey + 1074)
                 = Zpos mx * 2 ^ (ex + 1074)).
    { rewrite <- Z.mul_assoc, <- pow2_split by lia. do 2 f_equal. lia. }
    assert (H2 : Zpos my * 2 ^ (ey - Z.min ex ey) * 2 ^ (Z.min ex ey + 1074)
                 = Zpos my * 2 ^ (ey + 1074)).
    { rewrite <- Z.mul_assoc, <- pow2_split by lia. do 2 f_equal. lia. }
    destruct sx, sy; cbn [cond_Zopp]; rewrite ?Z.mul_opp_l, H1, H2; reflexivity.
Qed.

Lemma float_value_add (x y : float) :
  float_value (x + y)
  = match float_value x, float_value y with
    | Some a, Some b => xadd a b
    | _, _ => None
    end.
Proof.
  unfold float_value. rewrite add_spec. apply SFadd_value; apply Prim2SF_valid.
Qed.

(** The value of a float is a float's value: rounding leaves it alone. *)
Lemma float_value_rnd (f : float) (v : Z) :
  float_value f = Some (Fin v) -> rnd v = Fin v.
Proof.
  unfold float_value. pose proof (Prim2SF_valid f) as Hv.
  destruct (Prim2SF f) as [s|s| |s m e]; try discriminate.
  - intros [= <-]. reflexivity.
  - destruct s; discriminate.
  - rewrite SF_value_finite. intros [= <-]. now apply rnd_representable.
Qed.

Lemma float_le_nonneg (x : float) :
  float_le 0 x <-> exists a, float_value x = Some a /\ xle (Fin 0) a.
Proof.
  unfold float_le. change (float_value 0) with (Some (Fin 0)).
  destruct (float_value x) as [a|]; split; eauto.
  - now intros (a' & [= <-] & H).
  - contradiction.
  - now intros (a' & ? & _).
Qed.

Lemma float_le_trans (x y z : float) : float_le x y -> float_le y z -> float_le x z.
Proof.
  unfold float_le.
  destruct (float_value x), (float_value y), (float_value z);
    try contradiction; auto. apply xle_trans.
Qed.

Lemma float_le_ltb (x y : float) : float_le x y -> (y <? x)%float = false.
Proof.
  intros Hle. destruct (y <? x)%float eqn:Hlt; [|reflexivity].
  apply ltb_float_value in Hlt as (a & b & Ha & Hb & Hab).
  unfold float_le in Hle. rewrite Ha, Hb in Hle.
  destruct a, b; simpl in *; try contradiction; lia.
Qed.

Lemma ltb_false_float_le (x y : float) :
  float_le 0 x -> float_le 0 y -> (x <? y)%float = false -> float_le y x.
Proof.
  intros Hx Hy Hlt.
  apply float_le_nonneg in Hx as (a & Ha & Hpa).
  apply float_le_nonneg in Hy as (b & Hb & Hpb).
  unfold float_le. rewrite Ha, Hb.
  assert (Hn : ~ xlt a b).
  { intros Hab. assert (Ht : (x <? y)%float = true)
      by (apply ltb_float_value; eauto). congruence. }
  destruct a, b; simpl in *; try contradiction; auto; lia.
Qed.

Lemma ltb_float_le_r (t c c' : float) :
  float_le c c' -> (t <? c)%float = true -> (t <? c')%float = true.
Proof.
  intros Hle Hlt. apply ltb_float_value in Hlt as (a & b & Ha & Hb & Hab).
  apply ltb_float_value. unfold float_le in Hle. rewrite Hb in Hle.
  destruct (float_value c') as [b'|]; [|contradiction].
  exists a, b'. repeat split; auto.
  destruct a, b, b'; simpl in *; try contradiction; auto; lia.
Qed.

Lemma ltb_float_le_trans (x y z : float) :
  (x <? y)%float = true -> float_le y z -> (x <? z)%float = true.
Proof. intros H1 H2. exact (ltb_float_le_r _ _ _ H2 H1). Qed.

Lemma xadd_nonneg (a a' g : xval) :
  xle (Fin 0) a -> xle (Fin 0) g -> xle a a' ->
  exists r r', xadd a g = Some r /\ xadd a' g = Some r' /\ xle r r' /\ xle (Fin 0) r.
Proof.
  intros Ha Hg Haa.
  destruct a as [|x|], a' as [|x'|], g as [|y|]; simpl in *; try contradiction;
    cbn [xadd]; eexists _, _; (split; [reflexivity|]); (split; [reflexivity|]);
    try (split; exact I).
  - split; [apply rnd_mono; lia|]. apply (rnd_mono 0); lia.
  - split; [|apply (rnd_mono 0); lia]. destruct (rnd (x + y)); exact I.
Qed.

Lemma add_float_le (x y g : float) :
  float_le 0 x -> float_le 0 g -> float_le x y ->
  float_le (x + g) (y + g) /\ float_le 0 (x + g).
Proof.
  intros Hx Hg Hxy.
  apply float_le_nonneg in Hx as (a & Ha & Hpa).
  apply float_le_nonneg in Hg as (b & Hb & Hpb).
  rewrite float_le_nonneg. unfold float_le in *.
  rewrite !float_value_add, Ha, Hb. rewrite Ha in Hxy.
  destruct (float_value y) as [a'|]; [|contradiction].
  destruct (xadd_nonneg a a' b Hpa Hpb Hxy) as (r & r' & -> & -> & Hrr & Hr).
  split; [exact Hrr|eauto].
Qed.

Lemma add_float_ge (x g : float) :
  float_le 0 x -> float_le 0 g -> float_le x (x + g).
Proof.
  intros Hx Hg.
  apply float_le_nonneg in Hx as (a & Ha & Hpa).
  apply float_le_nonneg in Hg as (b & Hb & Hpb).
  unfold float_le. rewrite float_value_add, Ha, Hb.
  destruct a as [|x0|], b as [|y0|]; simpl in *; try contradiction; auto.
  change (xle (Fin x0) (rnd (x0 + y0))).
  rewrite <- (float_value_rnd x x0 Ha). apply rnd_mono. lia.
Qed.


(** ** More demand, fewer slots *)

(** C5, refuted: on [busy_first_info] a request for 0.375 of a GPU per unit
    is given one slot, and the same request for 0.5 of a GPU is given two. *)
Lemma C5_more_utilization_more_slots :
  let small := with_gpu_utilization 0.375 default_args in
  let large := with_gpu_utilization 0.5 default_args in
  (gpu_utilization small <? gpu_utilization large)%float = true
  /\ large = with_gpu_utilization 0.5 small
  /\ (forall fuel, (3 <= fuel)%nat ->
        get_process_limit fuel busy_first_info small = Some (Ok [1%nat])
        /\ get_process_limit fuel busy_first_info large = Some (Ok [1%nat; 0%nat]))
  /\ (length [1%nat] < length [1%nat; 0%nat])%nat.
Proof.
  repeat split; try (simpl; lia);
    apply (get_process_limit_fuel_mono 3); auto; vm_compute; reflexivity.
Qed.

Lemma process_loop_acc (fuel : nat) m a acc l :
  process_loop fuel m a acc = Some (Ok l) -> (length acc <= length l)%nat.
Proof.
  intros Hl. apply process_loop_spec in Hl as (n & mn & ln & mo & i & _ & _ & -> & _).
  rewrite length_app. lia.
Qed.

(** Two runs of the loop in step: the second machine is never better off
    than the first, so it is over capacity no later. *)
Section InStep.
Variables a a' : args.
Variable worse : machine_limit -> machine_limit -> Prop.
Hypothesis worse_step : forall m m' m1 i,
  worse m m' -> subtract_process_req m a = Ok (m1, i) ->
  exists m1', subtract_process_req m' a' = Ok (m1', i) /\ worse m1 m1'.
Hypothesis worse_over : forall m m',
  worse m m' -> machine_limit_over m = true -> machine_limit_over m' = true.

Lemma process_loop_in_step (fuel : nat) :
  forall m m' acc acc' l,
    worse m m' -> length acc' = length acc ->
    process_loop fuel m a acc = Some (Ok l) ->
    exists l', process_loop fuel m' a' acc' = Some (Ok l')
               /\ (length l' <= length l)%nat.
Proof.
  induction fuel as [|fuel IH]; intros m m' acc acc' l Hw Hlen; simpl;
    [discriminate|].
  destruct (subtract_process_req m a) as [[m1 i]|e] eqn:Hs; [|discriminate].
  destruct (worse_step m m' m1 i Hw Hs) as (m1' & -> & Hw1).
  destruct (machine_limit_over m1) eqn:Ho.
  - intros [= <-]. rewrite (worse_over m1 m1' Hw1 Ho).
    exists acc'. split; [reflexivity|lia].
  - intros Hl. destruct (machine_limit_over m1') eqn:Ho'.
    + exists acc'. split; [reflexivity|].
      apply process_loop_acc in Hl. rewrite length_app in Hl. simpl in Hl. lia.
    + apply (IH m1 m1' (acc ++ [i]) (acc' ++ [i]) l Hw1); [|exact Hl].
      rewrite !length_app. simpl. lia.
Qed.

End InStep.

Lemma existsb_false_mono {A} (p q : A -> bool) (l : list A) :
  (forall x, p x = true -> q x = true) ->
  existsb p l = true -> existsb q l = true.
Proof.
  intros Hpq. rewrite !existsb_exists. intros (x & Hin & Hp). eauto.
Qed.

Lemma less_memory_over m m' :
  less_memory m m' -> machine_limit_over m = true -> machine_limit_over m' = true.
Proof.
  intros (Hu & Hc & Hr & Hg & Hm). unfold machine_limit_over.
  rewrite Hc, Hr, Hg. rewrite !orb_true_iff, !Z.ltb_lt.
  intros [[[[[?|?]|?]|?]|?]|?]; auto 10.
  left; left; left; right. lia.
Qed.

Lemma gpu_scan_ext a a' (l : list gpu) :
  gpu_memory_required a' = gpu_memory_required a ->
  forall i c j, gpu_scan a' l i c j = gpu_scan a l i c j.
Proof.
  intros Hr. induction l as [|g l IH]; intros i c j; simpl; [reflexivity|].
  replace (scan_replaces a' c g) with (scan_replaces a c g)
    by (destruct c; simpl; now rewrite ?Hr).
  destruct (scan_replaces a c g); apply IH.
Qed.

Lemma charge_gpu_ext a a' c :
  gpu_memory_required a' = gpu_memory_required a ->
  gpu_utilization a' = gpu_utilization a ->
  no_reserve_gpu a' = no_reserve_gpu a ->
  charge_gpu a' c = charge_gpu a c.
Proof. intros Hr Hu Hn. unfold charge_gpu. now rewrite Hr, Hu, Hn. Qed.

Lemma less_memory_step a v m m' m1 i :
  memory_required a <= v ->
  less_memory m m' -> subtract_process_req m a = Ok (m1, i) ->
  exists m1', subtract_process_req m' (with_memory_required v a) = Ok (m1', i)
              /\ less_memory m1 m1'.
Proof.
  intros Hv (Hu & Hc & Hr & Hg & Hm). unfold subtract_process_req. simpl.
  destruct (float_of_int (num_cpus a)) as [n|]; simpl; [|discriminate].
  rewrite Hu, Hc, Hr, Hg.
  destruct (no_gpu_required a).
  - intros [= <- <-]. eexists. split; [reflexivity|].
    repeat split; simpl. lia.
  - rewrite (gpu_scan_ext a (with_memory_required v a)) by reflexivity.
    destruct (gpu_scan a (gpus m) 0 None 0) as [[c|] idx]; [|discriminate].
    intros [= <- <-]. eexists. split; [reflexivity|].
    repeat split; simpl. lia.
Qed.

Lemma fewer_cpus_over m m' :
  fewer_cpus m m' -> machine_limit_over m = true -> machine_limit_over m' = true.
Proof.
  intros (Hu & Hm & Hr & Hg & Hc). unfold machine_limit_over.
  rewrite Hm, Hr, Hg. rewrite !orb_true_iff.
  intros [[[[[?|Hcpu]|?]|?]|?]|?]; auto 10.
  left; left; left; left; right. exact (ltb_float_le _ _ _ Hc Hcpu).
Qed.

Lemma fewer_cpus_step a v x' m m' m1 i :
  num_cpus a <= v -> float_of_int v = Ok x' ->
  fewer_cpus m m' -> subtract_process_req m a = Ok (m1, i) ->
  exists m1', subtract_process_req m' (with_num_cpus v a) = Ok (m1', i)
              /\ fewer_cpus m1 m1'.
Proof.
  intros Hv Hx' (Hu & Hm & Hr & Hg & Hc). unfold subtract_process_req. simpl.
  rewrite Hx'.
  destruct (float_of_int (num_cpus a)) as [x|] eqn:Hx; simpl; [|discriminate].
  destruct (float_of_int_value _ _ Hx) as (w & Hw & Hrw).
  destruct (float_of_int_value _ _ Hx') as (w' & Hw' & Hrw').
  assert (Hww : w <= w').
  { assert (Hle : num_cpus a * 2 ^ 1074 <= v * 2 ^ 1074)
      by (apply Z.mul_le_mono_nonneg_r; [apply Z.lt_le_incl, pow2_pos; lia|exact Hv]).
    pose proof (rnd_mono _ _ Hle) as Hmono. now rewrite Hrw, Hrw' in Hmono. }
  pose proof (sub_float_le _ _ _ _ _ _ Hc Hw Hw' Hww) as Hsub.
  rewrite Hu, Hm, Hr, Hg.
  destruct (no_gpu_required a).
  - intros [= <- <-]. eexists. split; [reflexivity|].
    repeat split; simpl. exact Hsub.
  - rewrite (gpu_scan_ext a (with_num_cpus v a)) by reflexivity.
    destruct (gpu_scan a (gpus m) 0 None 0) as [[c|] idx]; [|discriminate].
    intros [= <- <-]. eexists. split; [reflexivity|].
    repeat split; simpl. exact Hsub.
Qed.

Lemma fewer_cpus_refl m : fewer_cpus m m.
Proof. repeat split. apply float_le_refl. Qed.

Lemma less_memory_refl m : less_memory m m.
Proof. repeat split. lia. Qed.

Lemma subtract_process_req_overflow m a :
  float_of_int (num_cpus a) = Raise OverflowError ->
  subtract_process_req m a = Raise OverflowError.
Proof. intros Hx. unfold subtract_process_req. now rewrite Hx. Qed.

Lemma float_of_int_raises z e : float_of_int z = Raise e -> e = OverflowError.
Proof.
  unfold float_of_int. destruct (is_infinity _); [|discriminate]. now intros [= <-].
Qed.

(** *** More GPU memory per unit *)

Lemma over_split m :
  machine_limit_over m = tally_over (tally m) || gpus_over (gpus m).
Proof.
  unfold machine_limit_over, tally_over, tally, gpus_over.
  now rewrite <- !orb_assoc.
Qed.

Lemma gpus_over_true (gs : list gpu) :
  gpus_over gs = true <-> exists g, g ∈ gs /\ ~ within g.
Proof.
  unfold gpus_over, any. rewrite !orb_true_iff, !existsb_exists. split.
  - intros [[(g & Hin & Hg)|(g & Hin & Hg)]|(g & Hin & Hg)];
      exists g; (split; [now apply list_elem_of_In|]); intros (Hf & Hu & Hr).
    + apply Z.ltb_lt in Hg. lia.
    + congruence.
    + apply Z.ltb_lt in Hg. lia.
  - intros (g & Hin & Hg). apply list_elem_of_In in Hin.
    destruct (g_free g <? 0) eqn:Hf; [left; left; eauto|].
    destruct (1.2 <? g_utilization g)%float eqn:Hu; [left; right; eauto|].
    destruct (1 <? g_reserved g) eqn:Hr; [right; eauto|].
    exfalso. apply Hg. apply Z.ltb_ge in Hf, Hr. repeat split; auto.
Qed.

Lemma gpus_over_false (gs : list gpu) :
  gpus_over gs = false <-> forall g, g ∈ gs -> within g.
Proof.
  split.
  - intros Ho g Hin. destruct (decide (within g)) as [Hw|Hw]; [exact Hw|].
    assert (Ht : gpus_over gs = true) by (apply gpus_over_true; eauto). congruence.
  - intros Hall. destruct (gpus_over gs) eqn:Ho; [|reflexivity].
    apply gpus_over_true in Ho as (g & Hin & Hg). now apply Hall in Hin.
Qed.

Lemma charge_gpu_free a c : g_free (charge_gpu a c) = g_free c - gpu_memory_required a.
Proof. unfold charge_gpu. now destruct (no_reserve_gpu a). Qed.

Lemma charge_gpu_utilization a c :
  g_utilization (charge_gpu a c) = (g_utilization c + gpu_utilization a)%float.
Proof. unfold charge_gpu. now destruct (no_reserve_gpu a). Qed.

Lemma charge_gpu_reserved a c :
  g_reserved (charge_gpu a c)
  = if no_reserve_gpu a then g_reserved c else g_reserved c + 1.
Proof. unfold charge_gpu. now destruct (no_reserve_gpu a). Qed.

(** *** Where the scan ends *)

Lemma gpu_scan_stable a (whole : list gpu) :
  (forall g, g ∈ whole -> float_le 0 (g_utilization g)) ->
  forall (l pre : list gpu) (b : gpu) (j : nat) c idx,
    whole = pre ++ l ->
    whole !! j = Some b -> (j < length pre)%nat ->
    (forall x, (x < j)%nat -> ~ stable a whole x) ->
    (forall x h, (j < x < length pre)%nat -> whole !! x = Some h ->
       gpu_usable a b /\ float_le (g_utilization b) (g_utilization h)) ->
    gpu_scan a l (length pre) (Some b) j = (Some c, idx) ->
    whole !! idx = Some c /\ stable a whole idx
    /\ forall x, (x < idx)%nat -> ~ stable a whole x.
Proof.
  intros Hpos. induction l as [|g l IH]; intros pre b j c idx Hw Hb Hj Hbefore Hkept.
  - cbn [gpu_scan]. intros [= <- <-]. rewrite app_nil_r in Hw. subst pre.
    split; [exact Hb|]. split; [|exact Hbefore].
    exists b. split; [exact Hb|].
    destruct (decide (S j = length whole)) as [He|He]; [now left|right].
    destruct (lookup_lt_is_Some_2 whole (S j) ltac:(lia)) as [h Hh].
    split; [apply (Hkept (S j) h); [lia|exact Hh]|].
    intros x h' Hx Hh'. apply (Hkept x h'); [|exact Hh'].
    apply lookup_lt_Some in Hh'. lia.
  - assert (Hg : whole !! length pre = Some g)
      by (rewrite Hw; apply list_lookup_middle; reflexivity).
    assert (Hlen : (length pre < length whole)%nat)
      by (now apply lookup_lt_Some in Hg).
    assert (Hw' : whole = (pre ++ [g]) ++ l) by (now rewrite <- app_assoc).
    assert (Hlen' : length (pre ++ [g]) = S (length pre))
      by (rewrite length_app; simpl; lia).
    cbn [gpu_scan]. destruct (scan_replaces a (Some b) g) eqn:Hrep.
    + rewrite <- Hlen'. apply IH; auto; try lia.
      intros x Hx [h [Hh Hst]].
        destruct (lt_eq_lt_dec x j) as [[Hlt|Heq]|Hgt].
        -- apply (Hbefore x Hlt). now exists h.
        -- subst x. rewrite Hb in Hh. injection Hh as <-.
           destruct Hst as [He|[Hu Hall]]; [lia|].
           rewrite scan_replaces_usable in Hrep by exact Hu.
           rewrite (float_le_ltb _ _ (Hall _ _ Hj Hg)) in Hrep. discriminate.
        -- destruct (Hkept x h (conj Hgt Hx) Hh) as [Hu Hle].
           destruct Hst as [He|[_ Hall]]; [lia|].
           rewrite scan_replaces_usable in Hrep by exact Hu.
           rewrite (float_le_ltb _ _ (float_le_trans _ _ _ Hle (Hall _ _ Hx Hg)))
             in Hrep. discriminate.
    + assert (Hu : gpu_usable a b).
      { destruct (decide (gpu_usable a b)) as [Hu|Hu]; [exact Hu|].
        rewrite scan_replaces_unusable in Hrep by exact Hu. discriminate. }
      rewrite scan_replaces_usable in Hrep by exact Hu.
      replace (S (length pre)) with (length (pre ++ [g])) by exact Hlen'.
      apply IH; auto; try lia.
      intros x h Hx Hh. split; [exact Hu|].
      destruct (decide (x = length pre)) as [Heq|Hne].
      * subst x. rewrite Hg in Hh. injection Hh as <-.
        apply ltb_false_float_le; [apply Hpos| apply Hpos|exact Hrep].
        -- eapply list_elem_of_lookup_2; exact Hg.
        -- eapply list_elem_of_lookup_2; exact Hb.
      * apply (Hkept x h); [lia|exact Hh].
Qed.

(** The scan ends on the first stable entry. *)
Lemma scan_choice a (gs : list gpu) c idx :
  (forall g, g ∈ gs -> float_le 0 (g_utilization g)) ->
  gpu_scan a gs 0 None 0 = (Some c, idx) ->
  gs !! idx = Some c /\ stable a gs idx
  /\ forall x, (x < idx)%nat -> ~ stable a gs x.
Proof.
  intros Hpos. destruct gs as [|g l]; [discriminate|].
  cbn [gpu_scan scan_replaces].
  apply (gpu_scan_stable a (g :: l) Hpos l [g] g 0%nat c idx); auto.
  - intros x Hx. lia.
  - intros x h Hx. simpl in Hx. lia.
Qed.

Lemma gpu_scan_some a (gs : list gpu) :
  gs <> [] -> exists c idx, gpu_scan a gs 0 None 0 = (Some c, idx).
Proof.
  intros Hne. destruct gs as [|g l]; [contradiction|].
  rewrite gpu_scan_spec.
  destruct (spec_scan_nonempty a g l) as [[i c] ->]. simpl. eauto.
Qed.

(** *** Dead entries *)

Lemma stable_not_dead a gs i : stable a gs i -> ~ dead a gs i.
Proof.
  intros (g & Hg & Hst) Hd. destruct Hd as [i g' Hg' Hlen Hu|i j g' h Hij Hg' Hh _ Hlt].
  - rewrite Hg in Hg'. injection Hg' as <-.
    destruct Hst as [He|[Hu' _]]; [lia|contradiction].
  - rewrite Hg in Hg'. injection Hg' as <-.
    destruct Hst as [He|[_ Hall]].
    + apply lookup_lt_Some in Hh. lia.
    + rewrite (float_le_ltb _ _ (Hall _ _ Hij Hh)) in Hlt. discriminate.
Qed.

Lemma dead_insert a gs c g' i :
  ~ dead a gs c -> dead a gs i -> dead a (<[c := g']> gs) i.
Proof.
  intros Hc Hd. induction Hd as [i g Hg Hlen Hu|i j g h Hij Hg Hh Hdj IH Hlt].
  - assert (i <> c) by (intros ->; apply Hc; eapply dead_unusable; eauto).
    apply (dead_unusable _ _ i g); [|now rewrite length_insert|exact Hu].
    now rewrite list_lookup_insert_ne.
  - assert (i <> c) by (intros ->; apply Hc; eapply dead_shadowed; eauto).
    assert (j <> c) by (intros ->; contradiction).
    apply (dead_shadowed _ _ i j g h); auto; now rewrite list_lookup_insert_ne.
Qed.

Lemma subtract_process_req_tally m a m' idx :
  no_gpu_required a = false ->
  subtract_process_req m a = Ok (m', idx) ->
  exists n c,
    float_of_int (num_cpus a) = Ok n
    /\ gpu_scan a (gpus m) 0 None 0 = (Some c, idx)
    /\ tally m' = tally_step a n (tally m)
    /\ gpus m' = <[idx := charge_gpu a c]> (gpus m).
Proof.
  intros Hg. unfold subtract_process_req.
  destruct (float_of_int (num_cpus a)) as [n|]; simpl; [|discriminate].
  rewrite Hg.
  destruct (gpu_scan a (gpus m) 0 None 0) as [[c|] i]; [|discriminate].
  intros [= <- <-]. exists n, c. repeat split.
Qed.

Lemma subtract_process_req_charges m a n c idx :
  no_gpu_required a = false ->
  float_of_int (num_cpus a) = Ok n ->
  gpu_scan a (gpus m) 0 None 0 = (Some c, idx) ->
  exists m', subtract_process_req m a = Ok (m', idx)
    /\ tally m' = tally_step a n (tally m)
    /\ gpus m' = <[idx := charge_gpu a c]> (gpus m).
Proof.
  intros Hg Hn Hs. unfold subtract_process_req. rewrite Hn. simpl.
  rewrite Hg, Hs. eexists. repeat split.
Qed.

Lemma process_loop_converts fuel m a acc l e :
  process_loop fuel m a acc = Some (Ok l) ->
  float_of_int (num_cpus a) = Raise e -> False.
Proof.
  destruct fuel as [|fuel]; [discriminate|]. simpl. intros Hl He.
  unfold subtract_process_req in Hl. rewrite He in Hl. discriminate.
Qed.

(** *** The run of the smaller memory request against the larger *)

Section MoreGpuMemory.
Variables a b : args.
Hypothesis Hgmr : gpu_memory_required a <= gpu_memory_required b.
Hypothesis Hb0 : 0 <= gpu_memory_required b.
Hypothesis Hgu : gpu_utilization b = gpu_utilization a.
Hypothesis Hnrg : no_reserve_gpu b = no_reserve_gpu a.
Hypothesis Hcpu : num_cpus b = num_cpus a.
Hypothesis Hmem : memory_required b = memory_required a.
Hypothesis Hres : reserve b = reserve a.
Hypothesis Hng : no_gpu_required b = no_gpu_required a.
Hypothesis Hpos : float_le 0 (gpu_utilization a).

Lemma larger_utilization_nonneg : float_le 0 (gpu_utilization b).
Proof. now rewrite Hgu. Qed.

Lemma lagging_nonneg hs gs :
  lagging b hs gs ->
  (forall g, g ∈ gs -> float_le 0 (g_utilization g))
  /\ (forall h, h ∈ hs -> float_le 0 (g_utilization h)).
Proof.
  intros [Hlen Hrel]. split.
  - intros g Hin. apply list_elem_of_lookup in Hin as [i Hi].
    destruct (lookup_lt_is_Some_2 hs i) as [h Hh].
    { rewrite Hlen. now apply lookup_lt_Some in Hi. }
    now destruct (Hrel i h g Hh Hi).
  - intros h Hin. apply list_elem_of_lookup in Hin as [i Hi].
    destruct (lookup_lt_is_Some_2 gs i) as [g Hg].
    { rewrite <- Hlen. now apply lookup_lt_Some in Hi. }
    destruct (Hrel i h g Hi Hg) as (H0 & Hle & _).
    exact (float_le_trans _ _ _ H0 Hle).
Qed.

Lemma agree_usable h g : agree h g -> gpu_usable b g -> gpu_usable a h.
Proof. intros (_ & Hr & Hf) [Hr' Hf']. split; lia. Qed.

(** The smaller request's scan ends no later than the larger one's, and
    where it ends earlier it ends on an entry that is dead for the larger
    request and no more utilized than the larger one's choice. *)
Lemma picks_ordered hs gs hc cs gc cl :
  lagging b hs gs ->
  gpu_scan a hs 0 None 0 = (Some hc, cs) ->
  gpu_scan b gs 0 None 0 = (Some gc, cl) ->
  hs !! cs = Some hc /\ gs !! cl = Some gc
  /\ (cs <= cl)%nat
  /\ ~ dead b gs cl
  /\ stable a hs cs
  /\ ((cs < cl)%nat ->
      ~ ~ dead b gs cs
      /\ float_le (g_utilization hc) (g_utilization gc)).
Proof.
  intros Hlag Hs Hl.
  destruct (lagging_nonneg hs gs Hlag) as [Hpg Hph].
  destruct Hlag as [Hlen Hrel].
  destruct (scan_choice a hs hc cs Hph Hs) as (Hhc & Hsta & Hmina).
  destruct (scan_choice b gs gc cl Hpg Hl) as (Hgc & Hstb & Hminb).
  pose proof (stable_not_dead b gs cl Hstb) as Hnd.
  destruct (lookup_lt_is_Some_2 hs cl) as [hl Hhl].
  { rewrite Hlen. now apply lookup_lt_Some in Hgc. }
  destruct (Hrel cl hl gc Hhl Hgc) as (_ & _ & _ & Hag). specialize (Hag Hnd).
  assert (Hstl : stable a hs cl).
  { exists hl. split; [exact Hhl|].
    destruct Hstb as (g' & Hg' & [He|[Hu Hall]]); [left; congruence|right].
    rewrite Hgc in Hg'. injection Hg' as <-.
    split; [exact (agree_usable hl gc Hag Hu)|].
    intros j hj Hj Hhj.
    destruct (lookup_lt_is_Some_2 gs j) as [gj Hgj].
    { rewrite <- Hlen. now apply lookup_lt_Some in Hhj. }
    destruct (Hrel j hj gj Hhj Hgj) as (_ & Hle & _).
    destruct Hag as (-> & _). exact (float_le_trans _ _ _ (Hall j gj Hj Hgj) Hle). }
  assert (Hle : (cs <= cl)%nat).
  { destruct (le_lt_dec cs cl) as [H|H]; [exact H|]. now apply Hmina in H. }
  repeat split; auto.
  - intros Hndc. apply (Hminb cs H).
    destruct (lookup_lt_is_Some_2 gs cs) as [g Hg].
    { apply lookup_lt_Some in Hgc. lia. }
    destruct (Hrel cs hc g Hhc Hg) as (H0 & _ & _ & Hagc). specialize (Hagc Hndc).
    destruct Hsta as (h' & Hh' & [He|[Hu Hall]]).
    { apply lookup_lt_Some in Hgc. lia. }
    rewrite Hhc in Hh'. injection Hh' as <-.
    exists g. split; [exact Hg|right]. split.
    + destruct (decide (gpu_usable b g)) as [Hub|Hub]; [exact Hub|].
      exfalso. apply Hndc. apply (dead_unusable b gs cs g Hg); [|exact Hub].
      apply lookup_lt_Some in Hgc. lia.
    + intros j gj Hj Hgj.
      destruct (lookup_lt_is_Some_2 hs j) as [hj Hhj].
      { rewrite Hlen. now apply lookup_lt_Some in Hgj. }
      destruct (Hrel j hj gj Hhj Hgj) as (H0j & _ & _ & Hagj).
      destruct (g_utilization gj <? g_utilization g)%float eqn:Hlt.
      * exfalso.
        assert (Hndj : ~ dead b gs j).
        { intros Hdj. apply Hndc. exact (dead_shadowed b gs cs j g gj Hj Hg Hgj Hdj Hlt). }
        destruct (Hagj Hndj) as (Huj & _). destruct Hagc as (Huc & _).
        pose proof (Hall j hj Hj Hhj) as Hls. rewrite Huj, Huc in Hls.
        rewrite (float_le_ltb _ _ Hls) in Hlt. discriminate.
      * apply ltb_false_float_le; auto.
  - destruct Hsta as (h' & Hh' & [He|[Hu Hall]]).
    { apply lookup_lt_Some in Hgc. lia. }
    rewrite Hhc in Hh'. injection Hh' as <-.
    pose proof (Hall cl hl H Hhl) as Hls. destruct Hag as (Hul & _).
    now rewrite Hul in Hls.
Qed.

Lemma within_charge_usable h :
  gpu_usable a h -> ~ within (charge_gpu a h) ->
  (1.2 <? g_utilization h + gpu_utilization a)%float = true.
Proof.
  intros [Hr Hf] Hw.
  destruct (1.2 <? g_utilization h + gpu_utilization a)%float eqn:Hu; [reflexivity|].
  exfalso. apply Hw. unfold within.
  rewrite charge_gpu_free, charge_gpu_utilization, charge_gpu_reserved.
  repeat split; [lia|exact Hu|destruct (no_reserve_gpu a); lia].
Qed.

Lemma agree_charge h g : agree h g -> agree (charge_gpu a h) (charge_gpu b g).
Proof.
  intros (Hu & Hr & Hf). unfold agree.
  rewrite !charge_gpu_free, !charge_gpu_utilization, !charge_gpu_reserved.
  rewrite Hu, Hr, Hgu, Hnrg. repeat split. lia.
Qed.

Lemma over_charge g :
  float_le 0 (g_utilization g) -> ~ within g -> ~ within (charge_gpu b g).
Proof.
  intros H0 Hw Hw'. apply Hw. destruct Hw' as (Hf & Hu & Hr).
  rewrite charge_gpu_free in Hf. rewrite charge_gpu_utilization in Hu.
  rewrite charge_gpu_reserved in Hr.
  repeat split.
  - lia.
  - destruct (1.2 <? g_utilization g)%float eqn:Hlt; [|reflexivity].
    rewrite <- Hu. symmetry. apply (ltb_float_le_r _ _ _ (add_float_ge _ _ H0 larger_utilization_nonneg) Hlt).
  - destruct (no_reserve_gpu b); lia.
Qed.

Lemma agree_within h g : agree h g -> within g -> within h.
Proof.
  intros (Hu & Hr & Hf) (Hf' & Hu' & Hr'). unfold within.
  rewrite Hu, Hr. repeat split; auto; lia.
Qed.

(** If charging the smaller request's choice puts its GPUs over capacity,
    charging the larger request's choice does so as well. *)
Lemma over_transfer hs gs hc cs gc cl :
  lagging b hs gs ->
  gpu_scan a hs 0 None 0 = (Some hc, cs) ->
  gpu_scan b gs 0 None 0 = (Some gc, cl) ->
  gpus_over (<[cs := charge_gpu a hc]> hs) = true ->
  gpus_over (<[cl := charge_gpu b gc]> gs) = true.
Proof.
  intros Hlag Hs Hl Ho.
  destruct (picks_ordered hs gs hc cs gc cl Hlag Hs Hl)
    as (Hhc & Hgc & Hle & Hnd & Hsta & Hlt).
  destruct (lagging_nonneg hs gs Hlag) as [Hpg Hph].
  destruct Hlag as [Hlen Hrel].
  apply gpus_over_true in Ho as (h' & Hin & Hw).
  apply list_elem_of_lookup in Hin as [i Hi].
  apply gpus_over_true.
  assert (Hcl : (cl < length gs)%nat) by (now apply lookup_lt_Some in Hgc).
  assert (Hcs : (cs < length hs)%nat) by (now apply lookup_lt_Some in Hhc).
  destruct (decide (i = cs)) as [->|Hne].
  - rewrite list_lookup_insert_eq in Hi by exact Hcs. injection Hi as <-.
    exists (charge_gpu b gc). split.
    { eapply list_elem_of_lookup_2. now apply list_lookup_insert_eq. }
    destruct (decide (cs = cl)) as [->|Hne].
    + destruct (Hrel cl hc gc Hhc Hgc) as (_ & _ & _ & Hag). specialize (Hag Hnd).
      intros Hw'. apply Hw. exact (agree_within _ _ (agree_charge hc gc Hag) Hw').
    + destruct (Hlt ltac:(lia)) as [_ Hu].
      destruct Hsta as (h' & Hh' & [He|[Hus _]]); [lia|].
      rewrite Hhc in Hh'. injection Hh' as <-.
      pose proof (within_charge_usable hc Hus Hw) as Hov.
      intros (_ & Hu' & _). rewrite charge_gpu_utilization, Hgu in Hu'.
      destruct (add_float_le (g_utilization hc) (g_utilization gc) (gpu_utilization a))
        as [Hadd _]; auto.
      { apply Hph. eapply list_elem_of_lookup_2; exact Hhc. }
      rewrite (ltb_float_le_r _ _ _ Hadd Hov) in Hu'. discriminate.
  - rewrite list_lookup_insert_ne in Hi by lia.
    destruct (lookup_lt_is_Some_2 gs i) as [g Hg].
    { rewrite <- Hlen. now apply lookup_lt_Some in Hi. }
    destruct (Hrel i h' g Hi Hg) as (H0 & _ & [Hag|Hin] & _); [|contradiction].
    assert (Hwg : ~ within g) by (intros Hwg; apply Hw; exact (agree_within _ _ Hag Hwg)).
    destruct (decide (i = cl)) as [->|Hne'].
    + exists (charge_gpu b gc). split.
      { eapply list_elem_of_lookup_2. now apply list_lookup_insert_eq. }
      rewrite Hgc in Hg. injection Hg as <-. now apply over_charge.
    + exists g. split; [|exact Hwg].
      apply (list_elem_of_lookup_2 _ i). rewrite list_lookup_insert_ne by lia. exact Hg.
Qed.

(** Both runs charge the same entry: they stay related. *)
Lemma lagging_matched hs gs hc gc c :
  lagging b hs gs ->
  hs !! c = Some hc -> gs !! c = Some gc -> ~ dead b gs c ->
  lagging b (<[c := charge_gpu a hc]> hs) (<[c := charge_gpu b gc]> gs).
Proof.
  intros [Hlen Hrel] Hhc Hgc Hnd. split; [now rewrite !length_insert|].
  intros i h g Hh Hg.
  destruct (decide (i = c)) as [->|Hne].
  - rewrite list_lookup_insert_eq in Hh by (now apply lookup_lt_Some in Hhc).
    rewrite list_lookup_insert_eq in Hg by (now apply lookup_lt_Some in Hgc).
    injection Hh as <-. injection Hg as <-.
    destruct (Hrel c hc gc Hhc Hgc) as (H0 & Hle & _ & Hag). specialize (Hag Hnd).
    pose proof (agree_charge hc gc Hag) as Hag'.
    destruct (add_float_le (g_utilization gc) (g_utilization gc) (gpu_utilization b))
      as [_ H0']; auto; [apply larger_utilization_nonneg|apply float_le_refl|].
    rewrite <- charge_gpu_utilization in H0'.
    split; [exact H0'|].
    split; [destruct Hag' as (Hu' & _); rewrite Hu'; apply float_le_refl|].
    split; [left; exact Hag'|intros _; exact Hag'].
  - rewrite list_lookup_insert_ne in Hh, Hg by lia.
    destruct (Hrel i h g Hh Hg) as (H0 & Hle & Hor & Hag).
    split; [exact H0|]. split; [exact Hle|]. split; [exact Hor|].
    intros Hnd'. apply Hag. intros Hd. apply Hnd'. now apply dead_insert.
Qed.

(** Only the smaller request's run charges a unit, on an entry that is dead
    for the larger request, and stays within capacity: they stay related. *)
Lemma lagging_extra hs gs hc cs :
  lagging b hs gs ->
  hs !! cs = Some hc -> ~ ~ dead b gs cs ->
  gpus_over (<[cs := charge_gpu a hc]> hs) = false ->
  lagging b (<[cs := charge_gpu a hc]> hs) gs.
Proof.
  intros Hlag Hhc Hd Ho.
  destruct (lagging_nonneg hs gs Hlag) as [Hpg Hph].
  destruct Hlag as [Hlen Hrel]. split; [now rewrite length_insert|].
  intros i h g Hh Hg.
  destruct (decide (i = cs)) as [->|Hne].
  - rewrite list_lookup_insert_eq in Hh by (now apply lookup_lt_Some in Hhc).
    injection Hh as <-.
    destruct (Hrel cs hc g Hhc Hg) as (H0 & Hle & _ & _).
    split; [exact H0|]. split; [|split].
    + rewrite charge_gpu_utilization.
      apply (float_le_trans _ _ _ Hle). apply add_float_ge; auto.
      apply Hph. eapply list_elem_of_lookup_2; exact Hhc.
    + right. apply (proj1 (gpus_over_false _) Ho).
      eapply list_elem_of_lookup_2. apply list_lookup_insert_eq.
      now apply lookup_lt_Some in Hhc.
    + intros Hnd. contradiction.
  - rewrite list_lookup_insert_ne in Hh by lia. now apply Hrel.
Qed.

Lemma lagging_refl gs :
  (forall g, g ∈ gs -> float_le 0 (g_utilization g)) -> lagging b gs gs.
Proof.
  intros Hp. split; [reflexivity|]. intros i h g Hh Hg.
  rewrite Hh in Hg. injection Hg as <-.
  assert (Hag : agree h h) by (repeat split; lia).
  split; [apply Hp; eapply list_elem_of_lookup_2; exact Hh|].
  split; [apply float_le_refl|]. split; [now left|auto].
Qed.

Lemma tally_step_larger n t : tally_step b n t = tally_step a n t.
Proof. unfold tally_step. destruct t as [[r c] f]. now rewrite Hres, Hmem. Qed.

Lemma larger_step n mL :
  no_gpu_required a = false ->
  float_of_int (num_cpus a) = Ok n ->
  gpus mL <> [] ->
  exists mL' gc cl,
    subtract_process_req mL b = Ok (mL', cl)
    /\ gpu_scan b (gpus mL) 0 None 0 = (Some gc, cl)
    /\ tally mL' = tally_step a n (tally mL)
    /\ gpus mL' = <[cl := charge_gpu b gc]> (gpus mL).
Proof.
  intros Hg Hn Hne.
  destruct (gpu_scan_some b (gpus mL) Hne) as (gc & cl & Hscan).
  destruct (subtract_process_req_charges mL b n gc cl) as (mL' & Hs & Ht & Hgs); auto.
  - now rewrite Hng.
  - now rewrite Hcpu.
  - exists mL', gc, cl. rewrite tally_step_larger in Ht. auto.
Qed.

(** The counters alone stop the larger request's run once the smaller
    request's run has been stopped by them. *)
Lemma tally_bound n (d : nat) :
  forall mL acc fuel,
    no_gpu_required a = false ->
    float_of_int (num_cpus a) = Ok n ->
    gpus mL <> [] ->
    tally_over (Nat.iter (S d) (tally_step a n) (tally mL)) = true ->
    exists l', process_loop (S d + fuel) mL b acc = Some (Ok l')
               /\ (length l' <= length acc + d)%nat.
Proof.
  induction d as [|d IH]; intros mL acc fuel Hg Hn Hne Ho;
    destruct (larger_step n mL Hg Hn Hne) as (mL' & gc & cl & Hs & _ & Ht & Hgs);
    cbn [Nat.add process_loop]; rewrite Hs.
  - cbn [Nat.iter nat_rect] in Ho. rewrite <- Ht in Ho.
    rewrite over_split, Ho. simpl. exists acc. split; [reflexivity|lia].
  - destruct (machine_limit_over mL') eqn:Hover.
    + exists acc. split; [reflexivity|lia].
    + rewrite Nat.iter_succ_r, <- Ht in Ho.
      destruct (IH mL' (acc ++ [cl]) fuel Hg Hn) as (l' & Hl' & Hlen); auto.
      * rewrite Hgs. intros He. apply (f_equal length) in He.
        rewrite length_insert in He. destruct (gpus mL); [contradiction|discriminate].
      * exists l'. split; [exact Hl'|]. rewrite length_app in Hlen. simpl in Hlen. lia.
Qed.

(** The smaller request's run, [d] units ahead of the larger one's. *)
Lemma lag_loop n (fuel : nat) :
  forall (d : nat) mS mL accS accL l,
    no_gpu_required a = false ->
    float_of_int (num_cpus a) = Ok n ->
    lagging b (gpus mS) (gpus mL) ->
    tally mS = Nat.iter d (tally_step a n) (tally mL) ->
    process_loop fuel mS a accS = Some (Ok l) ->
    exists l', process_loop (d + fuel) mL b accL = Some (Ok l')
               /\ (length l' + length accS <= length l + length accL + d)%nat.
Proof.
  induction fuel as [|fuel IH]; intros d mS mL accS accL l Hg Hn Hlag Hd; simpl;
    [discriminate|].
  destruct (subtract_process_req mS a) as [[mS' cs]|e] eqn:HsS; [|discriminate].
  destruct (subtract_process_req_tally mS a mS' cs Hg HsS)
    as (n' & hc & Hn' & HscanS & HtS & HgsS).
  rewrite Hn in Hn'. injection Hn' as <-.
  assert (Hne : gpus mL <> []).
  { destruct Hlag as [Hlen _]. intros He. rewrite He in Hlen.
    destruct (gpus mS); [discriminate|discriminate]. }
  destruct (larger_step n mL Hg Hn Hne) as (mL' & gc & cl & HsL & HscanL & HtL & HgsL).
  destruct (picks_ordered (gpus mS) (gpus mL) hc cs gc cl Hlag HscanS HscanL)
    as (Hhc & Hgc & Hle & Hnd & _ & Hlt).
  assert (HtS' : tally mS' = Nat.iter (S d) (tally_step a n) (tally mL))
    by (cbn [Nat.iter nat_rect]; now rewrite HtS, Hd).
  destruct (machine_limit_over mS') eqn:HoS.
  - intros [= <-]. rewrite over_split in HoS. apply orb_true_iff in HoS as [Ho|Ho].
    + rewrite HtS' in Ho.
      destruct (tally_bound n d mL accL fuel Hg Hn Hne Ho) as (l' & Hl' & Hlen).
      exists l'. replace (d + S fuel)%nat with (S d + fuel)%nat by lia.
      split; [exact Hl'|lia].
    + rewrite HgsS in Ho.
      pose proof (over_transfer _ _ _ _ _ _ Hlag HscanS HscanL Ho) as HoL.
      rewrite <- HgsL in HoL.
      replace (d + S fuel)%nat with (S (d + fuel)) by lia.
      cbn [process_loop]. rewrite HsL, over_split, HoL, orb_true_r.
      exists accL. split; [reflexivity|lia].
  - intros Hl. pose proof (process_loop_acc _ _ _ _ _ Hl) as Hacc.
    rewrite length_app in Hacc. simpl in Hacc.
    rewrite over_split in HoS. apply orb_false_iff in HoS as [_ HoS].
    destruct (decide (cs = cl)) as [Heq|Hneq].
    + subst cl. replace (d + S fuel)%nat with (S (d + fuel)) by lia.
      cbn [process_loop]. rewrite HsL.
      destruct (machine_limit_over mL') eqn:HoL.
      * exists accL. split; [reflexivity|lia].
      * destruct (IH d mS' mL' (accS ++ [cs]) (accL ++ [cs]) l Hg Hn)
          as (l' & Hl' & Hlen); auto.
        -- rewrite HgsS, HgsL. now apply lagging_matched.
        -- rewrite HtL, <- Nat.iter_succ_r. exact HtS'.
        -- exists l'. split; [exact Hl'|]. rewrite !length_app in Hlen. simpl in Hlen. lia.
    + destruct (Hlt ltac:(lia)) as [Hdead _].
      destruct (IH (S d) mS' mL (accS ++ [cs]) accL l Hg Hn) as (l' & Hl' & Hlen); auto.
      * rewrite HgsS. apply lagging_extra; auto. now rewrite <- HgsS.
      * exists l'. replace (d + S fuel)%nat with (S d + fuel)%nat by lia.
        split; [exact Hl'|]. rewrite length_app in Hlen. simpl in Hlen. lia.
Qed.

(** A request that needs no GPU never looks at [gpu_memory_required]. *)
Lemma no_gpu_step m :
  no_gpu_required a = true ->
  subtract_process_req m b = subtract_process_req m a.
Proof.
  intros Hg. unfold subtract_process_req.
  rewrite Hcpu, Hres, Hmem, Hng, Hg. reflexivity.
Qed.

End MoreGpuMemory.

Lemma more_gpu_memory (s : machine_info) (a : args) (v : Z) (fuel : nat) (l : list nat) :
  gpu_memory_required a <= v -> 0 <= v ->
  float_le 0 (gpu_utilization a) ->
  (forall g, g ∈ mi_gpus s -> float_le 0 (gi_utilization g)) ->
  get_process_limit fuel s a = Some (Ok l) ->
  exists l', get_process_limit fuel s (with_gpu_memory_required v a) = Some (Ok l')
             /\ (length l' <= length l)%nat.
Proof.
  intros Hv H0 Hu Hs. unfold get_process_limit.
  cbn [no_gpu_required with_gpu_memory_required].
  destruct (_ && _); [intros [= <-]; eauto|].
  destruct (init_machine_limit s) as [m0|e] eqn:Hinit; [|discriminate].
  intros Hl. destruct (no_gpu_required a) eqn:Hg.
  - apply (process_loop_in_step a (with_gpu_memory_required v a) eq) with (m := m0) (acc := []);
      auto.
    + intros m m' m1 i <- Hstep. exists m1. split; [|reflexivity].
      rewrite <- Hstep. now apply no_gpu_step.
    + now intros m m' <-.
  - destruct (float_of_int (num_cpus a)) as [n|e] eqn:Hn;
      [|destruct (process_loop_converts _ _ _ _ _ _ Hl Hn)].
    destruct (lag_loop a (with_gpu_memory_required v a) Hv H0 eq_refl eq_refl eq_refl
                eq_refl eq_refl eq_refl Hu n fuel 0%nat m0 m0 [] [] l Hg Hn)
      as (l' & Hl' & Hlen); auto.
    + apply lagging_refl. intros g Hin.
      unfold init_machine_limit in Hinit.
      destruct (float_of_int (mi_cpu_count s)); [|discriminate].
      injection Hinit as <-. cbn [gpus] in Hin.
      apply list_elem_of_In, in_map_iff in Hin as (gi & <- & Hin).
      apply Hs. now apply list_elem_of_In.
    + exists l'. split; [exact Hl'|]. simpl in Hlen. lia.
Qed.

(** C5 as amended: a request for more memory, for more CPUs, or for more
    GPU memory per unit than another that is otherwise the same is never
    given more slots.  When the planner returns for the smaller request it
    returns for the larger one within the same number of iterations, except
    that a CPU count too large for a float raises [OverflowError].  For GPU
    memory the larger amount and the utilizations, of the request and of
    the machine's GPUs, are taken to be nonnegative. *)
Theorem C5_more_demand_fewer_slots (s : machine_info) (a : args)
    (fuel : nat) (l : list nat) :
  get_process_limit fuel s a = Some (Ok l) ->
  (forall v, memory_required a <= v ->
     exists l', get_process_limit fuel s (with_memory_required v a) = Some (Ok l')
                /\ (length l' <= length l)%nat)
  /\ (forall v, num_cpus a <= v ->
        get_process_limit fuel s (with_num_cpus v a) = Some (Raise OverflowError)
        \/ exists l', get_process_limit fuel s (with_num_cpus v a) = Some (Ok l')
                      /\ (length l' <= length l)%nat)
  /\ (forall v, gpu_memory_required a <= v -> 0 <= v ->
        float_le 0 (gpu_utilization a) ->
        (forall g, g ∈ mi_gpus s -> float_le 0 (gi_utilization g)) ->
        exists l', get_process_limit fuel s (with_gpu_memory_required v a)
                     = Some (Ok l')
                   /\ (length l' <= length l)%nat).
Proof.
  intros Hl. split; [|split].
  - unfold get_process_limit in *.
    intros v Hv. cbn [no_gpu_required with_memory_required].
    destruct (_ && _); [injection Hl as <-; eauto|].
    destruct (init_machine_limit s) as [m0|e]; [|discriminate].
    apply (process_loop_in_step a (with_memory_required v a) less_memory
             (fun m m' m1 i => less_memory_step a v m m' m1 i Hv)
             less_memory_over fuel m0 m0 [] [] l (less_memory_refl m0) eq_refl Hl).
  - unfold get_process_limit in *.
    intros v Hv. cbn [no_gpu_required with_num_cpus].
    destruct (_ && _); [injection Hl as <-; right; eauto|].
    destruct (init_machine_limit s) as [m0|e]; [|discriminate].
    destruct (float_of_int v) as [x'|e] eqn:Hx'.
    + right.
      apply (process_loop_in_step a (with_num_cpus v a) fewer_cpus
               (fun m m' m1 i => fewer_cpus_step a v x' m m' m1 i Hv Hx')
               fewer_cpus_over fuel m0 m0 [] [] l (fewer_cpus_refl m0) eq_refl Hl).
    + left. apply float_of_int_raises in Hx' as He. subst e.
      destruct fuel as [|fuel]; [discriminate|]. simpl.
      now rewrite (subtract_process_req_overflow m0 (with_num_cpus v a) Hx').
  - intros v Hv H0 Hu Hs. exact (more_gpu_memory s a v fuel l Hv H0 Hu Hs Hl).
Qed.

Lemma C5_more_demand_fewer_slots_witness :
  get_process_limit 3 (example_info "a" "b") default_args = Some (Ok [0%nat; 1%nat])
  /\ get_process_limit 3 (example_info "a" "b")
       (with_gpu_memory_required 6000 default_args) = Some (Ok [])
  /\ (forall v, memory_required default_args <= v ->
        exists l', get_process_limit 3 (example_info "a" "b")
                     (with_memory_required v default_args) = Some (Ok l')
                   /\ (length l' <= length [0%nat; 1%nat])%nat)
  /\ (forall v, num_cpus default_args <= v ->
        get_process_limit 3 (example_info "a" "b") (with_num_cpus v default_args)
          = Some (Raise OverflowError)
        \/ exists l', get_process_limit 3 (example_info "a" "b")
                        (with_num_cpus v default_args) = Some (Ok l')
                      /\ (length l' <= length [0%nat; 1%nat])%nat)
  /\ (forall v, gpu_memory_required default_args <= v ->
        exists l', get_process_limit 3 (example_info "a" "b")
                     (with_gpu_memory_required v default_args) = Some (Ok l')
                   /\ (length l' <= length [0%nat; 1%nat])%nat).
Proof.
  split; [vm_compute; reflexivity|]. split; [vm_compute; reflexivity|].
  destruct (C5_more_demand_fewer_slots (example_info "a" "b") default_args
              3 [0%nat; 1%nat]) as (Hmem & Hcpu & Hgpu);
    [vm_compute; reflexivity|].
  split; [exact Hmem|]. split; [exact Hcpu|].
  intros v Hv. apply Hgpu; [exact Hv| | |].
  - cbn [gpu_memory_required default_args] in Hv. lia.
  - vm_compute. discriminate.
  - intros g Hin. cbn [example_info mi_gpus] in Hin.
    apply elem_of_cons in Hin as [->|Hin];
      [|apply elem_of_cons in Hin as [->|Hin]; [|now apply elem_of_nil in Hin]];
      vm_compute; discriminate.
Defined.

(** ** More of the module *)

(** X1 ([subtract_process_req], lines 62-66).  On a GPU list that is not
    empty and in which every utilization is a number not below 0, the scan
    ends on a GPU of the list, and on the first position whose GPU is the
    last one, or is usable (not reserved, more free memory than the request
    takes) and no more utilized than every GPU after it. *)
Theorem X1_scan_ends_on_first_stable (a : args) (gs : list gpu) :
  gs <> [] ->
  (forall g, g ∈ gs -> float_le 0 (g_utilization g)) ->
  exists c idx,
    gpu_scan a gs 0 None 0 = (Some c, idx)
    /\ gs !! idx = Some c
    /\ stable a gs idx
    /\ forall x, (x < idx)%nat -> ~ stable a gs x.
Proof.
  intros Hne Hpos. destruct (gpu_scan_some a gs Hne) as (c & idx & Hs).
  exists c, idx. split; [exact Hs|]. now apply scan_choice.
Qed.

Lemma X1_scan_ends_on_first_stable_witness :
  exists c idx,
    gpu_scan default_args three_gpus 0 None 0 = (Some c, idx)
    /\ three_gpus !! idx = Some c
    /\ stable default_args three_gpus idx
    /\ forall x, (x < idx)%nat -> ~ stable default_args three_gpus x.
Proof.
  apply (X1_scan_ends_on_first_stable default_args three_gpus); [discriminate|].
  intros g Hin. unfold three_gpus in Hin.
  repeat (apply elem_of_cons in Hin as [->|Hin]; [vm_compute; discriminate|]).
  now apply elem_of_nil in Hin.
Defined.

(** *** The indices the planner records *)

Lemma subtract_process_req_index m a m' idx :
  subtract_process_req m a = Ok (m', idx) ->
  length (gpus m') = length (gpus m) /\ index_ok a (length (gpus m)) idx.
Proof.
  unfold subtract_process_req, index_ok.
  destruct (float_of_int (num_cpus a)) as [n|]; simpl; [|discriminate].
  destruct (no_gpu_required a) eqn:Hg.
  - intros [= <- <-]. split; reflexivity.
  - rewrite gpu_scan_spec.
    destruct (spec_scan a (gpus m)) as [[i c]|] eqn:Hscan; simpl; [|discriminate].
    intros [= <- <-]. simpl. rewrite length_insert. split; [reflexivity|].
    apply spec_scan_lookup in Hscan. now apply lookup_lt_Some in Hscan.
Qed.

Lemma process_loop_indices (fuel : nat) :
  forall m a acc l,
    process_loop fuel m a acc = Some (Ok l) ->
    Forall (index_ok a (length (gpus m))) acc ->
    Forall (index_ok a (length (gpus m))) l.
Proof.
  induction fuel as [|fuel IH]; intros m a acc l; simpl; [discriminate|].
  destruct (subtract_process_req m a) as [[m' idx]|e] eqn:Hs; [|discriminate].
  destruct (subtract_process_req_index m a m' idx Hs) as [Hlen Hidx].
  destruct (machine_limit_over m'); [now intros [= <-]|].
  intros Hl Hacc. rewrite <- Hlen. apply (IH m' a (acc ++ [idx]) l Hl).
  rewrite Hlen. apply Forall_app. split; [exact Hacc|]. now constructor.
Qed.

Lemma init_machine_limit_gpus s m :
  init_machine_limit s = Ok m -> gpus m = map init_gpu (mi_gpus s).
Proof.
  unfold init_machine_limit.
  destruct (float_of_int (mi_cpu_count s)); [|discriminate]. now intros [= <-].
Qed.

Lemma get_process_limit_in_range (fuel : nat) (s : machine_info) (a : args)
    (l : list nat) :
  get_process_limit fuel s a = Some (Ok l) ->
  Forall (index_ok a (length (mi_gpus s))) l.
Proof.
  unfold get_process_limit.
  destruct (_ && _); [intros [= <-]; apply Forall_nil_2|].
  destruct (init_machine_limit s) as [m0|e] eqn:Hinit; [|discriminate].
  intros Hl.
  pose proof (process_loop_indices fuel m0 a [] l Hl (Forall_nil_2 _)) as Hall.
  rewrite (init_machine_limit_gpus s m0 Hinit), length_map in Hall. exact Hall.
Qed.

(** X2 ([get_process_limit], lines 79-96).  Every GPU index the planner
    records is 0 when the request needs no GPU, and otherwise a position in
    the machine's GPU list. *)
Theorem X2_recorded_indices_in_range (fuel : nat) (s : machine_info) (a : args)
    (l : list nat) :
  get_process_limit fuel s a = Some (Ok l) ->
  forall i, i ∈ l ->
    if no_gpu_required a then i = 0%nat else (i < length (mi_gpus s))%nat.
Proof.
  intros Hl i Hin. apply get_process_limit_in_range in Hl.
  rewrite Forall_forall in Hl. exact (Hl i Hin).
Qed.

Lemma X2_recorded_indices_in_range_witness :
  get_process_limit 3 (example_info "a" "b") default_args = Some (Ok [0%nat; 1%nat])
  /\ forall i, i ∈ [0%nat; 1%nat] ->
       if no_gpu_required default_args then i = 0%nat
       else (i < length (mi_gpus (example_info "a" "b")))%nat.
Proof.
  split; [vm_compute; reflexivity|].
  apply (X2_recorded_indices_in_range 3 (example_info "a" "b") default_args).
  vm_compute. reflexivity.
Defined.

(** *** Exclusive GPU reservation *)

Lemma machine_limit_over_within m g :
  machine_limit_over m = false -> g ∈ gpus m -> within g.
Proof.
  rewrite over_split. intros Ho. apply orb_false_iff in Ho as [_ Ho].
  now apply gpus_over_false.
Qed.

Lemma process_loop_exclusive (fuel : nat) :
  forall m a acc l,
    no_gpu_required a = false -> no_reserve_gpu a = false ->
    process_loop fuel m a acc = Some (Ok l) ->
    NoDup acc ->
    (forall i g, gpus m !! i = Some g ->
       0 <= g_reserved g /\ (i ∈ acc -> 1 <= g_reserved g)) ->
    NoDup l.
Proof.
  induction fuel as [|fuel IH]; intros m a acc l Hg Hr; simpl; [discriminate|].
  destruct (subtract_process_req m a) as [[m' idx]|e] eqn:Hs; [|discriminate].
  destruct (subtract_process_req_gpu m a m' idx Hg Hs) as (c & Hscan & Hgpus).
  apply spec_scan_lookup in Hscan as Hc.
  destruct (machine_limit_over m') eqn:Ho; [now intros [= <-]|].
  intros Hl Hnd Hinv.
  assert (Hidx : gpus m' !! idx = Some (charge_gpu a c)).
  { rewrite Hgpus. apply list_lookup_insert_eq. now apply lookup_lt_Some in Hc. }
  pose proof (machine_limit_over_within m' _ Ho (list_elem_of_lookup_2 _ _ _ Hidx))
    as (_ & _ & Hle).
  rewrite charge_gpu_reserved, Hr in Hle.
  destruct (Hinv idx c Hc) as [H0 Hin].
  apply (IH m' a (acc ++ [idx]) l Hg Hr Hl).
  - apply NoDup_app. split; [exact Hnd|]. split; [|apply NoDup_singleton].
    intros x Hx Hx'. apply list_elem_of_singleton in Hx'. subst x.
    specialize (Hin Hx). lia.
  - intros i g Hi. rewrite Hgpus in Hi.
    destruct (decide (i = idx)) as [->|Hne].
    + rewrite list_lookup_insert_eq in Hi by (now apply lookup_lt_Some in Hc).
      injection Hi as <-. rewrite charge_gpu_reserved, Hr. split; [lia|]. intros _. lia.
    + rewrite list_lookup_insert_ne in Hi by lia.
      destruct (Hinv i g Hi) as [H0' Hin']. split; [exact H0'|].
      intros Hx. apply elem_of_app in Hx as [Hx|Hx]; [auto|].
      apply list_elem_of_singleton in Hx. contradiction.
Qed.

(** X3 ([get_process_limit] with [subtract_process_req] and
    [machine_limit_over]).  When jobs need a GPU and reserve it, the planner
    records no GPU twice, so a machine gets at most as many slots as it has
    GPUs. *)
Theorem X3_exclusive_gpus_used_once (fuel : nat) (s : machine_info) (a : args)
    (l : list nat) :
  no_gpu_required a = false -> no_reserve_gpu a = false ->
  get_process_limit fuel s a = Some (Ok l) ->
  NoDup l /\ (length l <= length (mi_gpus s))%nat.
Proof.
  intros Hg Hr Hl.
  pose proof (get_process_limit_in_range fuel s a l Hl) as Hidx.
  rewrite Forall_forall in Hidx. unfold index_ok in Hidx. rewrite Hg in Hidx.
  assert (Hnd : NoDup l).
  { revert Hl. unfold get_process_limit.
    destruct (_ && _); [intros [= <-]; apply NoDup_nil_2|].
    destruct (init_machine_limit s) as [m0|e] eqn:Hinit; [|discriminate].
    intros Hl. apply (process_loop_exclusive fuel m0 a [] l Hg Hr Hl); [apply NoDup_nil_2|].
    intros i g Hi. rewrite (init_machine_limit_gpus s m0 Hinit) in Hi.
    change (map init_gpu (mi_gpus s)) with (init_gpu <$> mi_gpus s) in Hi.
    rewrite list_lookup_fmap in Hi.
    destruct (mi_gpus s !! i); [|discriminate]. injection Hi as <-. simpl.
    split; [lia|]. intros Hin. now apply elem_of_nil in Hin. }
  split; [exact Hnd|].
  assert (Hsub : l ⊆+ seq 0%nat (length (mi_gpus s))).
  { apply NoDup_submseteq; [exact Hnd|].
    intros x Hx. apply elem_of_seq. specialize (Hidx x Hx). lia. }
  apply submseteq_length in Hsub. now rewrite length_seq in Hsub.
Qed.

Lemma X3_exclusive_gpus_used_once_witness :
  get_process_limit 3 (example_info "a" "b") default_args = Some (Ok [0%nat; 1%nat])
  /\ NoDup [0%nat; 1%nat]
  /\ (length [0%nat; 1%nat] <= length (mi_gpus (example_info "a" "b")))%nat.
Proof.
  split; [vm_compute; reflexivity|].
  apply (X3_exclusive_gpus_used_once 3 (example_info "a" "b") default_args);
    [reflexivity|reflexivity|vm_compute; reflexivity].
Defined.

(** *** The loop ends when memory is asked for *)

Lemma subtract_process_req_mem_free m a m' idx :
  subtract_process_req m a = Ok (m', idx) ->
  mem_free m' = mem_free m - memory_required a.
Proof.
  unfold subtract_process_req.
  destruct (float_of_int (num_cpus a)) as [n|]; simpl; [|discriminate].
  destruct (no_gpu_required a).
  - now intros [= <- <-].
  - destruct (gpu_scan a (gpus m) 0 None 0) as [[c|] i]; [|discriminate].
    now intros [= <- <-].
Qed.

Lemma machine_limit_over_mem_free m :
  mem_free m < 0 -> machine_limit_over m = true.
Proof.
  intros H. unfold machine_limit_over.
  replace (mem_free m <? 0) with true by (symmetry; now apply Z.ltb_lt).
  now rewrite orb_true_r.
Qed.

Lemma process_loop_memory_bound (fuel : nat) :
  forall m a acc,
    0 < memory_required a ->
    (1 <= fuel)%nat -> mem_free m < Z.of_nat fuel * memory_required a ->
    exists r, process_loop fuel m a acc = Some r
      /\ forall l, r = Ok l ->
           (length l <= length acc + Z.to_nat (mem_free m / memory_required a))%nat.
Proof.
  induction fuel as [|fuel IH]; intros m a acc Hr H1 Hm; [lia|]. simpl.
  destruct (subtract_process_req m a) as [[m' idx]|e] eqn:Hs;
    [|exists (Raise e); split; [reflexivity|discriminate]].
  pose proof (subtract_process_req_mem_free m a m' idx Hs) as Hmem.
  destruct (machine_limit_over m') eqn:Ho.
  - exists (Ok acc). split; [reflexivity|]. intros l [= <-]. lia.
  - assert (Hge : 0 <= mem_free m').
    { destruct (Z_lt_le_dec (mem_free m') 0) as [Hlt|Hge]; [|exact Hge].
      rewrite (machine_limit_over_mem_free m' Hlt) in Ho. discriminate. }
    destruct (IH m' a (acc ++ [idx]) Hr) as (r & Hl & Hlen); [nia|nia|].
    exists r. split; [exact Hl|]. intros l Hrl. specialize (Hlen l Hrl).
    rewrite length_app in Hlen. simpl in Hlen.
    assert (Hdiv : mem_free m / memory_required a
                   = mem_free m' / memory_required a + 1).
    { replace (mem_free m) with (mem_free m' + 1 * memory_required a) by lia.
      rewrite Z.div_add by lia. reflexivity. }
    assert (0 <= mem_free m' / memory_required a) by (apply Z.div_pos; lia).
    rewrite Hdiv. lia.
Qed.

(** X4 ([get_process_limit], lines 90-96).  With a positive memory
    requirement the loop ends within [mem_free / memory_required + 1] rounds
    (integer division), and it gives at most [mem_free / memory_required]
    slots. *)
Theorem X4_memory_bounds_the_loop (fuel : nat) (s : machine_info) (a : args) :
  0 < memory_required a ->
  (Z.to_nat (mi_mem_free s / memory_required a) < fuel)%nat ->
  exists r, get_process_limit fuel s a = Some r
    /\ forall l, r = Ok l ->
         (length l <= Z.to_nat (mi_mem_free s / memory_required a))%nat.
Proof.
  intros Hr Hfuel. unfold get_process_limit.
  destruct (_ && _).
  { exists (Ok []). split; [reflexivity|]. intros l [= <-]. simpl. lia. }
  destruct (init_machine_limit s) as [m0|e] eqn:Hinit;
    [|exists (Raise e); split; [reflexivity|discriminate]].
  assert (Hm : mem_free m0 = mi_mem_free s).
  { unfold init_machine_limit in Hinit.
    destruct (float_of_int (mi_cpu_count s)); [|discriminate]. now injection Hinit as <-. }
  destruct (process_loop_memory_bound fuel m0 a [] Hr) as (r & Hl & Hlen); [lia| |].
  - rewrite Hm.
    destruct (Z_lt_le_dec (mi_mem_free s) 0) as [Hneg|Hpos]; [nia|].
    pose proof (Z.mul_succ_div_gt (mi_mem_free s) (memory_required a) Hr) as Hgt.
    assert (0 <= mi_mem_free s / memory_required a) by (apply Z.div_pos; lia).
    nia.
  - exists r. split; [exact Hl|]. intros l Hrl. specialize (Hlen l Hrl).
    rewrite Hm in Hlen. simpl in Hlen. exact Hlen.
Qed.

Lemma X4_memory_bounds_the_loop_witness :
  0 < memory_required default_args
  /\ (Z.to_nat (mi_mem_free (example_info "a" "b") / memory_required default_args) < 5)%nat
  /\ exists r, get_process_limit 5 (example_info "a" "b") default_args = Some r
       /\ forall l, r = Ok l ->
            (length l <= Z.to_nat (mi_mem_free (example_info "a" "b")
                                   / memory_required default_args))%nat.
Proof.
  split; [reflexivity|]. split; [vm_compute; lia|].
  apply (X4_memory_bounds_the_loop 5 (example_info "a" "b") default_args);
    [reflexivity|vm_compute; lia].
Defined.

(** *** What the planner can raise *)

Lemma float_max_rounds :
  rnd (float_max * 2 ^ 1074) = Fin (float_max * 2 ^ 1074).
Proof. vm_compute. reflexivity. Qed.

Lemma rnd_opp (N : Z) : rnd (- N) = xopp (rnd N).
Proof.
  destruct N as [|p|p]; cbn [rnd Z.opp xopp]; try reflexivity.
  change (- Z.neg p) with (Z.pos p). cbn [rnd].
  generalize (cap (round_pos (Z.pos p))).
  intros []; cbn [xopp]; rewrite ?Z.opp_involutive; reflexivity.
Qed.

Lemma rnd_in_range (z : Z) :
  Z.abs z <= float_max -> exists v, rnd (z * 2 ^ 1074) = Fin v.
Proof.
  intros Hz.
  assert (Hp : 0 < 2 ^ 1074) by (apply pow2_pos; lia).
  assert (Hhi : xle (rnd (z * 2 ^ 1074)) (Fin (float_max * 2 ^ 1074))).
  { rewrite <- float_max_rounds. apply rnd_mono. nia. }
  assert (Hlo : xle (Fin (- (float_max * 2 ^ 1074))) (rnd (z * 2 ^ 1074))).
  { change (Fin (- (float_max * 2 ^ 1074))) with (xopp (Fin (float_max * 2 ^ 1074))).
    rewrite <- float_max_rounds, <- rnd_opp. apply rnd_mono. nia. }
  destruct (rnd (z * 2 ^ 1074)) as [|v|]; [contradiction|eauto|contradiction].
Qed.

Lemma float_of_int_in_range (z : Z) :
  Z.abs z <= float_max -> exists f, float_of_int z = Ok f.
Proof.
  intros Hz. destruct (rnd_in_range z Hz) as [v Hv].
  unfold float_of_int.
  destruct (binary_normalize_spec z 0 false ltac:(lia)) as [Hvalid Hval].
  replace (0 + 1074) with 1074 in Hval by lia. rewrite Hv in Hval.
  assert (Hinf : is_infinity (SF2Prim (binary_normalize prec emax z 0 false)) = false).
  { unfold is_infinity. rewrite FloatAxioms.eqb_spec, abs_spec, (Prim2SF_SF2Prim _ Hvalid).
    destruct (binary_normalize prec emax z 0 false) as [[|]|[|]| |[|] m e];
      try discriminate; reflexivity. }
  rewrite Hinf. eauto.
Qed.

Lemma process_loop_raises (fuel : nat) :
  forall m a acc e,
    (no_gpu_required a = false -> gpus m <> []) ->
    process_loop fuel m a acc = Some (Raise e) ->
    e = OverflowError /\ float_of_int (num_cpus a) = Raise OverflowError.
Proof.
  induction fuel as [|fuel IH]; intros m a acc e Hne; simpl; [discriminate|].
  destruct (subtract_process_req m a) as [[m' idx]|e'] eqn:Hs.
  - destruct (machine_limit_over m'); [discriminate|].
    apply IH. intros Hg. specialize (Hne Hg).
    destruct (subtract_process_req_index m a m' idx Hs) as [Hlen _].
    intros He. rewrite He in Hlen. destruct (gpus m); [contradiction|discriminate].
  - intros [= <-]. unfold subtract_process_req in Hs.
    destruct (float_of_int (num_cpus a)) as [n|e0] eqn:Hn.
    + simpl in Hs. destruct (no_gpu_required a) eqn:Hg; [discriminate|].
      destruct (gpu_scan_some a (gpus m) (Hne eq_refl)) as (c & idx & Hscan).
      rewrite Hscan in Hs. discriminate.
    + simpl in Hs. injection Hs as <-.
      apply float_of_int_raises in Hn as He. subst e0. auto.
Qed.

(** X5 ([get_process_limit], [init_machine_limit],
    [subtract_process_req]).  The only exception the planner raises is
    [OverflowError], and only when the absolute value of the machine's CPU
    count or of the requested CPU number is above the largest finite float;
    in particular the scan never leaves [gpu_choice] at [None]. *)
Theorem X5_planner_raises_only_overflow (fuel : nat) (s : machine_info) (a : args)
    (e : exn) :
  get_process_limit fuel s a = Some (Raise e) ->
  e = OverflowError
  /\ (float_max < Z.abs (mi_cpu_count s) \/ float_max < Z.abs (num_cpus a)).
Proof.
  unfold get_process_limit.
  destruct (_ && _) eqn:Hearly; [discriminate|].
  destruct (init_machine_limit s) as [m0|e0] eqn:Hinit.
  - intros Hl. apply process_loop_raises in Hl as [-> Hn].
    + split; [reflexivity|right].
      destruct (Z_lt_le_dec float_max (Z.abs (num_cpus a))) as [Hlt|Hle]; [exact Hlt|].
      destruct (float_of_int_in_range _ Hle) as [f Hf]. congruence.
    + intros Hg. rewrite Hg, andb_true_r in Hearly.
      rewrite (init_machine_limit_gpus s m0 Hinit).
      destruct (mi_gpus s); [discriminate|discriminate].
  - intros [= <-]. unfold init_machine_limit in Hinit.
    destruct (float_of_int (mi_cpu_count s)) as [c|e1] eqn:Hc; [discriminate|].
    injection Hinit as <-. apply float_of_int_raises in Hc as He. subst e1.
    split; [reflexivity|left].
    destruct (Z_lt_le_dec float_max (Z.abs (mi_cpu_count s))) as [Hlt|Hle]; [exact Hlt|].
    destruct (float_of_int_in_range _ Hle) as [f Hf]. congruence.
Qed.

Lemma X5_planner_raises_only_overflow_witness :
  get_process_limit 1 too_many_cpus default_args = Some (Raise OverflowError)
  /\ OverflowError = OverflowError
  /\ (float_max < Z.abs (mi_cpu_count too_many_cpus)
      \/ float_max < Z.abs (num_cpus default_args)).
Proof.
  split; [vm_compute; reflexivity|].
  apply (X5_planner_raises_only_overflow 1 too_many_cpus default_args OverflowError).
  vm_compute. reflexivity.
Defined.

(** *** A request that takes nothing *)

Lemma float_sub_zero (c : float) : (c - 0)%float = c.
Proof.
  apply Prim2SF_inj. rewrite sub_spec.
  change (Prim2SF 0) with (S754_zero false).
  destruct (Prim2SF c) as [[|]|[|]| |s m e]; reflexivity.
Qed.

Lemma free_request_step m a :
  free_request a -> subtract_process_req m a = Ok (m, 0%nat).
Proof.
  intros (Hg & Hr & Hn & Hm). unfold subtract_process_req.
  rewrite Hn, Hm, Hr, Hg.
  change (float_of_int 0) with (Ok 0%float : result float). cbn [rbind].
  rewrite float_sub_zero, Z.sub_0_r. now destruct m.
Qed.

Lemma free_request_loop (fuel : nat) m a acc :
  free_request a ->
  process_loop fuel m a acc
  = if machine_limit_over m
    then match fuel with O => None | S _ => Some (Ok acc) end
    else None.
Proof.
  intros Hfree. revert acc. induction fuel as [|fuel IH]; intros acc; cbn [process_loop].
  - now destruct (machine_limit_over m).
  - rewrite (free_request_step m a Hfree).
    destruct (machine_limit_over m) eqn:Ho; [reflexivity|].
    apply IH.
Qed.

(** X6 ([get_process_limit], lines 90-96).  For a request that needs no
    GPU, does not reserve the machine and asks for no CPU and no memory, on a
    machine that is within its limits at the start, the loop never ends:
    whatever the number of rounds allowed, it has not returned. *)
Theorem X6_free_request_never_returns (s : machine_info) (a : args) m0 :
  free_request a ->
  init_machine_limit s = Ok m0 ->
  machine_limit_over m0 = false ->
  forall fuel, get_process_limit fuel s a = None.
Proof.
  intros Hfree Hinit Ho fuel. unfold get_process_limit.
  destruct Hfree as (Hg & Hrest). rewrite Hg, andb_false_r, Hinit.
  rewrite free_request_loop by (split; [exact Hg|exact Hrest]).
  now rewrite Ho.
Qed.

Lemma X6_free_request_never_returns_witness :
  free_request nothing_args
  /\ init_machine_limit (example_info "a" "b") = Ok (example_limit "a" "b")
  /\ machine_limit_over (example_limit "a" "b") = false
  /\ forall fuel, get_process_limit fuel (example_info "a" "b") nothing_args = None.
Proof.
  assert (H1 : free_request nothing_args) by (repeat split).
  assert (H2 : init_machine_limit (example_info "a" "b") = Ok (example_limit "a" "b"))
    by (vm_compute; reflexivity).
  assert (H3 : machine_limit_over (example_limit "a" "b") = false)
    by (vm_compute; reflexivity).
  split; [exact H1|]. split; [exact H2|]. split; [exact H3|].
  exact (X6_free_request_never_returns (example_info "a" "b") nothing_args
           (example_limit "a" "b") H1 H2 H3).
Defined.

Lemma py_split_from_nil (w : string) : py_split_from w "" = flush w.
Proof. reflexivity. Qed.

Lemma py_split_from_space (w : string) (c : ascii) (rest : string) :
  py_isspace c = true ->
  py_split_from w (String c rest) = flush w ++ py_split_from "" rest.
Proof.
  intros Hc. cbn [py_split_from]. rewrite Hc. unfold flush.
  now destruct (String.eqb w "").
Qed.

Lemma py_split_from_word (x : string) :
  no_space x = true ->
  forall w rest, py_split_from w (x +:+ rest) = py_split_from (w +:+ x) rest.
Proof.
  induction x as [|c x IH]; intros Hx w rest.
  - now rewrite string_app_nil_r.
  - cbn [no_space] in Hx. apply andb_true_iff in Hx as [Hc Hx].
    apply negb_true_iff in Hc.
    rewrite append_cons. cbn [py_split_from]. rewrite Hc, (IH Hx).
    f_equal. rewrite string_app_assoc. reflexivity.
Qed.

Lemma flush_word (x : string) : x <> "" -> flush x = [x].
Proof.
  intros Hx. unfold flush. destruct (String.eqb_spec x ""); [contradiction|reflexivity].
Qed.

Lemma no_space_app (x y : string) :
  no_space (x +:+ y) = no_space x && no_space y.
Proof.
  induction x as [|c x IH]; [reflexivity|].
  rewrite append_cons. cbn [no_space]. now rewrite IH, andb_assoc.
Qed.

(** Splitting the words of a list joined by single spaces, up to the next
    space. *)
Lemma py_split_from_join (l : list string) (rest : string) :
  Forall py_word l ->
  py_split_from "" (py_join " " l +:+ String " " rest) = l ++ py_split_from "" rest.
Proof.
  induction l as [|x l IH]; intros Hl.
  - change (py_join " " [] +:+ String " " rest) with (String " " rest).
    now rewrite py_split_from_space.
  - apply Forall_cons in Hl as [[Hne Hx] Hl].
    destruct l as [|y l].
    + change (py_join " " [x]) with x.
      rewrite (py_split_from_word x Hx), py_split_from_space by reflexivity.
      change ("" +:+ x) with x. now rewrite flush_word.
    + change (py_join " " (x :: y :: l)) with (x +:+ String " " (py_join " " (y :: l))).
      rewrite string_app_assoc, (py_split_from_word x Hx).
      rewrite append_cons, py_split_from_space by reflexivity.
      change ("" +:+ x) with x. rewrite flush_word by exact Hne.
      rewrite (IH Hl). reflexivity.
Qed.

(** Everything [split] returns is a word. *)
Lemma py_split_from_words (s : string) :
  forall w, no_space w = true -> Forall py_word (py_split_from w s).
Proof.
  assert (Hflush : forall w, no_space w = true -> Forall py_word (flush w)).
  { intros w Hw. unfold flush. destruct (String.eqb_spec w ""); constructor; [|constructor].
    split; assumption. }
  induction s as [|c s IH]; intros w Hw; [now apply Hflush|].
  destruct (py_isspace c) eqn:Hc.
  - rewrite py_split_from_space by exact Hc. apply Forall_app. split; [now apply Hflush|].
    now apply IH.
  - cbn [py_split_from]. rewrite Hc. apply IH.
    rewrite no_space_app, Hw. cbn [no_space]. now rewrite Hc.
Qed.

Section Builder.
Context `{Library}.

(** X7 ([make_basic_run_command], lines 98-101).  When the path of
    [basic_run.py], the files to copy, the machine and the job name hold no
    whitespace (the path and the files being non-empty), the command is
    [python -u], the path, the two copy options with their files, the
    machine and job-name options, [--verbose] if asked for, and last the
    export prefix, a space and the job text as one argument. *)
Theorem X7_basic_command_words {A} `{RunArgs A}
    (machine job_name export_prefix command : string) (gpu_choice : nat) (a : A) :
  py_word basic_run_py ->
  Forall py_word (copy_forward a) -> Forall py_word (copy_backwards a) ->
  no_space machine = true -> no_space job_name = true ->
  make_basic_run_command machine job_name export_prefix command gpu_choice a
  = basic_argv machine job_name (copy_forward a) (copy_backwards a) (verbose a)
    ++ [export_prefix +:+ " " +:+ command].
Proof.
  intros [Hpne Hp] Hcf Hcb Hm Hj. unfold make_basic_run_command, basic_argv, py_split.
  f_equal.
  change ("python -u " +:+ ?x) with ("python" +:+ String " " ("-u" +:+ String " " x)).
  rewrite (py_split_from_word "python") by reflexivity.
  rewrite py_split_from_space by reflexivity.
  rewrite (py_split_from_word "-u") by reflexivity.
  rewrite py_split_from_space by reflexivity.
  rewrite (py_split_from_word basic_run_py) by exact Hp.
  change (" --copy-forward " +:+ ?x)
    with (String " " ("--copy-forward" +:+ String " " x)).
  rewrite py_split_from_space by reflexivity.
  rewrite (py_split_from_word "--copy-forward") by reflexivity.
  rewrite py_split_from_space by reflexivity.
  change ("  --copy-backwards " +:+ ?x)
    with (String " " (String " " ("--copy-backwards" +:+ String " " x))).
  rewrite (py_split_from_join _ _ Hcf).
  rewrite py_split_from_space by reflexivity.
  rewrite (py_split_from_word "--copy-backwards") by reflexivity.
  rewrite py_split_from_space by reflexivity.
  change (" --machine=" +:+ ?x) with (String " " ("--machine=" +:+ x)).
  rewrite (py_split_from_join _ _ Hcb).
  change ("--machine=" +:+ machine +:+ ?x) with (("--machine=" +:+ machine) +:+ x).
  rewrite (py_split_from_word ("--machine=" +:+ machine))
    by (rewrite no_space_app; exact Hm).
  change (" --job-name=" +:+ ?x) with (String " " ("--job-name=" +:+ x)).
  rewrite py_split_from_space by reflexivity.
  change ("--job-name=" +:+ job_name +:+ ?x) with (("--job-name=" +:+ job_name) +:+ x).
  rewrite (py_split_from_word ("--job-name=" +:+ job_name))
    by (rewrite no_space_app; exact Hj).
  change (" " +:+ ?x) with (String " " x).
  rewrite py_split_from_space by reflexivity.
  change (flush ("" +:+ "python")) with ["python"].
  change (flush ("" +:+ "-u")) with ["-u"].
  change (flush ("" +:+ "--copy-forward")) with ["--copy-forward"].
  change (flush ("" +:+ "--copy-backwards")) with ["--copy-backwards"].
  change (flush "") with (@nil string).
  change ("" +:+ ?x) with x.
  rewrite (flush_word basic_run_py) by exact Hpne.
  rewrite (flush_word ("--machine=" +:+ machine)) by discriminate.
  rewrite (flush_word ("--job-name=" +:+ job_name)) by discriminate.
  destruct (verbose a); reflexivity.
Qed.

(** X8 ([make_basic_run_command], lines 98-101).  Whatever the arguments
    hold, the command starts with [python -u], its last argument is the
    export prefix, a space and the job text, unsplit, and every argument in
    between is non-empty and free of whitespace. *)
Theorem X8_job_text_is_one_argument {A} `{RunArgs A}
    (machine job_name export_prefix command : string) (gpu_choice : nat) (a : A) :
  exists words,
    make_basic_run_command machine job_name export_prefix command gpu_choice a
    = ["python"; "-u"] ++ words ++ [export_prefix +:+ " " +:+ command]
    /\ Forall py_word words.
Proof.
  unfold make_basic_run_command, py_split.
  change ("python -u " +:+ ?x) with ("python" +:+ String " " ("-u" +:+ String " " x)).
  rewrite (py_split_from_word "python") by reflexivity.
  rewrite py_split_from_space by reflexivity.
  rewrite (py_split_from_word "-u") by reflexivity.
  rewrite py_split_from_space by reflexivity.
  change (flush ("" +:+ "python")) with ["python"].
  change (flush ("" +:+ "-u")) with ["-u"].
  match goal with
  | |- exists words, (_ ++ _ ++ ?rest) ++ _ = _ /\ _ => exists rest
  end.
  split; [cbn [app]; reflexivity|].
  now apply py_split_from_words.
Qed.

End Builder.

Lemma X7_basic_command_words_witness :
  @make_basic_run_command args _ plain_library "beta" "jobs.txt.1"
    "export CUDA_VISIBLE_DEVICES=0 &&" "echo one" 0 verbose_args
  = ["python"; "-u"; "/opt/kabuki/basic_run.py"; "--copy-forward"; "data";
     "--copy-backwards"; "out"; "--machine=beta"; "--job-name=jobs.txt.1";
     "--verbose"; "export CUDA_VISIBLE_DEVICES=0 && echo one"].
Proof.
  rewrite (@X7_basic_command_words plain_library args _ "beta" "jobs.txt.1"
             "export CUDA_VISIBLE_DEVICES=0 &&" "echo one" 0 verbose_args).
  - reflexivity.
  - split; [discriminate|reflexivity].
  - repeat constructor; discriminate.
  - repeat constructor; discriminate.
  - reflexivity.
  - reflexivity.
Defined.

(** *** Launching a job *)

Lemma set_slot_popens mi i v st : popens (set_slot mi i v st) = popens st.
Proof. unfold set_slot. now destruct (machine_procs st !! mi). Qed.

Lemma set_slot_frame mi i v st st' :
  machine_procs st' = machine_procs st ->
  machine_procs (set_slot mi i v st') = machine_procs (set_slot mi i v st).
Proof. intros Hm. unfold set_slot. rewrite Hm. now destruct (machine_procs st !! mi). Qed.

Lemma launch_or_skip_cases `{OS} (a : args) (mi i ln : nat) (job_cmd : list string)
    (job_name command : string) (st : state) :
  match launch_or_skip a mi i ln job_cmd job_name command st with
  | Return None st' =>
      popens st' = popens st /\ machine_procs st' = machine_procs st
      /\ opened st' = opened st
  | Return (Some (ln', h)) st' =>
      ln' = ln /\ h = length (popens st)
      /\ popens st' = popens st ++ [job_process job_cmd job_name]
      /\ machine_procs st' = machine_procs (set_slot mi i (Some (ln, h)) st)
      /\ dry_run a = false
  | Throw e st' =>
      machine_procs st' = machine_procs st
      /\ (popens st' = popens st
          \/ popens st' = popens st ++ [job_process job_cmd job_name])
  | Hang => False
  end.
Proof.
  unfold launch_or_skip, bind, os_path_exists, open_append, subprocess_Popen,
    time_sleep, syscall, print, modify, ret.
  destruct (raised (clock st)); [now auto|].
  destruct (path_exists (clock st) _); [now auto|].
  destruct (verbose a || dry_run a); destruct (dry_run a); simpl; auto;
    repeat match goal with
           | |- context [raised ?t] => destruct (raised t); simpl; auto
           end;
    repeat split; auto; try (rewrite set_slot_popens; reflexivity);
    try (apply set_slot_frame; reflexivity).
Qed.

(** *** The handler and the processes no slot holds *)

Lemma add_signal_other (h h' : nat) sg st :
  h' <> h -> popens (add_signal h sg st) !! h' = popens st !! h'.
Proof.
  intros Hne. unfold add_signal. destruct (popens st !! h); [|reflexivity].
  simpl. now rewrite list_lookup_insert_ne by lia.
Qed.

Lemma set_returncode_other (h h' : nat) rc st :
  h' <> h -> popens (set_returncode h rc st) !! h' = popens st !! h'.
Proof.
  intros Hne. unfold set_returncode. destruct (popens st !! h); [|reflexivity].
  simpl. now rewrite list_lookup_insert_ne by lia.
Qed.

Lemma add_signal_machine_procs h sg st :
  machine_procs (add_signal h sg st) = machine_procs st.
Proof. unfold add_signal. now destruct (popens st !! h). Qed.

Lemma send_all_spares (h' : nat) (l : list nat) :
  forall st, h' ∉ l ->
    exists st', for_each (fun h => popen_send_signal h SIGINT) l st = Return tt st'
      /\ popens st' !! h' = popens st !! h'
      /\ machine_procs st' = machine_procs st.
Proof.
  induction l as [|h l IH]; intros st Hnin; simpl.
  - exists st. auto.
  - apply not_elem_of_cons in Hnin as [Hne Hnin].
    unfold bind.
    change (popen_send_signal h SIGINT st)
      with (Return tt (set_clock (S (clock st)) (add_signal h SIGINT st))).
    cbv iota beta.
    destruct (IH (set_clock (S (clock st)) (add_signal h SIGINT st)) Hnin)
      as (st' & -> & Hp & Hm).
    exists st'. split; [reflexivity|]. split.
    + rewrite Hp. simpl. now apply add_signal_other.
    + rewrite Hm. simpl. apply add_signal_machine_procs.
Qed.

Lemma wait_all_spares `{OS} (h' : nat) (l : list nat) :
  forall st, h' ∉ l ->
    match for_each popen_wait l st with
    | Return _ st' => popens st' !! h' = popens st !! h'
    | Throw _ _ => False
    | Hang => True
    end.
Proof.
  induction l as [|h l IH]; intros st Hnin; simpl; [reflexivity|].
  apply not_elem_of_cons in Hnin as [Hne Hnin].
  unfold bind. destruct (popen_wait h st) as [[] st1|e st1|] eqn:Hw; [| |exact I].
  - assert (Hp1 : popens st1 !! h' = popens st !! h').
    { unfold popen_wait in Hw.
      destruct (popens st !! h) as [p|];
        [destruct (p_returncode p); [|destruct (wait_result _ _); [|discriminate]]|];
        injection Hw as <-; simpl; auto using set_returncode_other. }
    specialize (IH st1 Hnin).
    destruct (for_each popen_wait l st1); [|exact IH|exact I]. now rewrite IH.
  - unfold popen_wait in Hw.
    destruct (popens st !! h) as [p|];
      [destruct (p_returncode p); [|destruct (wait_result _ _)]|]; discriminate.
Qed.

Lemma drain_spares `{OS} (be : exn) (st : state) (h : nat) :
  h ∉ held st ->
  match drain be st with
  | Return _ _ => False
  | Throw e st' => e = be /\ popens st' !! h = popens st !! h
  | Hang => True
  end.
Proof.
  intros Hnin. unfold drain, bind, print, gets, throw, modify. cbv beta iota.
  set (st1 := set_stdout (stdout (set_sigint_ignored true st) ++ ["interrupting tasks"])
                (set_sigint_ignored true st)).
  assert (Hh1 : held st1 = held st) by reflexivity.
  destruct (send_all_spares h (held st1) st1) as (st2 & -> & Hp2 & Hm2);
    [now rewrite Hh1|].
  set (st3 := set_stdout (stdout st2 ++ ["waiting for tasks to terminate"]) st2).
  assert (Hh3 : held st3 = held st) by (unfold held; simpl; now rewrite Hm2).
  pose proof (wait_all_spares h (held st3) st3) as Hw.
  rewrite Hh3 in *. specialize (Hw Hnin).
  destruct (for_each popen_wait (held st) st3) as [[] st4|e st4|];
    [|contradiction|exact I].
  split; [reflexivity|]. rewrite Hw. simpl. rewrite Hp2. reflexivity.
Qed.

(** X9 ([main], lines 195-197 and 206-218).  If an exception leaves the
    launch after the process was started (it arrives in the [sleep] of line
    196), no slot holds the new process, and the handler ends by re-raising
    the same exception with that process neither signalled nor waited for. *)
Theorem X9_spawned_in_the_sleep_is_orphaned `{OS} (a : args) (mi i ln : nat)
    (job_cmd : list string) (job_name command : string) (st st1 : state) (e : exn) :
  handles_valid st ->
  launch_or_skip a mi i ln job_cmd job_name command st = Throw e st1 ->
  length (popens st1) = S (length (popens st)) ->
  popens st1 !! length (popens st) = Some (job_process job_cmd job_name)
  /\ (length (popens st) ∉ held st1)
  /\ match drain e st1 with
     | Return _ _ => False
     | Throw e' st2 =>
         e' = e
         /\ popens st2 !! length (popens st) = Some (job_process job_cmd job_name)
     | Hang => True
     end.
Proof.
  intros Hv Hl Hlen.
  pose proof (launch_or_skip_cases a mi i ln job_cmd job_name command st) as Ho.
  rewrite Hl in Ho. destruct Ho as [Hm [Hp|Hp]].
  { rewrite Hp in Hlen. lia. }
  assert (Hlook : popens st1 !! length (popens st) = Some (job_process job_cmd job_name)).
  { rewrite Hp. now rewrite list_lookup_middle. }
  assert (Hnin : length (popens st) ∉ held st1).
  { intros Hin. replace (held st1) with (held st) in Hin
      by (unfold held; now rewrite Hm).
    apply Hv in Hin. lia. }
  split; [exact Hlook|]. split; [exact Hnin|].
  pose proof (drain_spares e st1 (length (popens st)) Hnin) as Hd.
  destruct (drain e st1) as [[] st2|e' st2|]; auto.
  destruct Hd as [-> Hd]. split; [reflexivity|]. now rewrite Hd.
Qed.

Lemma X9_spawned_in_the_sleep_is_orphaned_witness :
  @launch_or_skip sleep_interrupted_os plain_args 0 0 0 ["echo"; "one"]
    "jobs.txt.1" "echo one" one_slot_state = Throw KeyboardInterrupt orphan_state
  /\ popens orphan_state !! length (popens one_slot_state)
     = Some (job_process ["echo"; "one"] "jobs.txt.1")
  /\ (length (popens one_slot_state) ∉ held orphan_state)
  /\ match @drain sleep_interrupted_os KeyboardInterrupt orphan_state with
     | Return _ _ => False
     | Throw e' st2 =>
         e' = KeyboardInterrupt
         /\ popens st2 !! length (popens one_slot_state)
            = Some (job_process ["echo"; "one"] "jobs.txt.1")
     | Hang => True
     end.
Proof.
  split; [vm_compute; reflexivity|].
  apply (@X9_spawned_in_the_sleep_is_orphaned sleep_interrupted_os plain_args
           0 0 0 ["echo"; "one"] "jobs.txt.1" "echo one" one_slot_state orphan_state
           KeyboardInterrupt).
  - intros h Hin. vm_compute in Hin. now apply elem_of_nil in Hin.
  - vm_compute. reflexivity.
  - reflexivity.
Defined.

(** *** What every step of the scheduler keeps *)

Section Invariant.
Context `{Library} `{OS}.
Variable a : args.
Variable lines : list string.
Variable P : state -> Prop.

Hypothesis P_clock : forall st n, P st -> P (set_clock n st).
Hypothesis P_stdout : forall st l, P st -> P (set_stdout l st).
Hypothesis P_all_done : forall st b, P st -> P (set_all_done b st).
Hypothesis P_waiting_only : forall st b, P st -> P (set_waiting_only b st).
Hypothesis P_line : forall st,
  P st -> (line_num st < length lines)%nat -> P (set_line_num (S (line_num st)) st).
Hypothesis P_names : forall st v,
  P st -> (line_num st < length lines)%nat ->
  P (set_job_names (<[line_num st := v]> (job_names st)) st).
Hypothesis P_free : forall st mi i, P st -> P (set_slot mi i None st).
Hypothesis P_exit : forall st h rc, P st -> P (set_returncode h rc st).
Hypothesis P_open : dry_run a = false ->
  forall st path, P st -> P (set_opened (opened st ++ [path]) st).
Hypothesis P_spawn : dry_run a = false ->
  forall st p, P st -> P (set_popens (popens st ++ [p]) st).
Hypothesis P_hold : dry_run a = false ->
  forall st mi i h, P st -> (h < length (popens st))%nat ->
    P (set_slot mi i (Some (line_num st, h)) st).

(** The invariant together with the line the scheduler stands at. *)
Local Abbreviation at_line ln := (fun st => P st /\ line_num st = ln).

Lemma inv_print ln s :
  triple (at_line ln) (print s) (fun _ => at_line ln) (fun _ => P).
Proof. apply triple_modify. intros st [HP Hl]. split; [now apply P_stdout|exact Hl]. Qed.

Lemma inv_tick ln :
  triple (at_line ln) (syscall (fun _ st => (tt, st))) (fun _ => at_line ln) (fun _ => P).
Proof.
  apply triple_syscall.
  - intros st [HP Hl] _. split; [now apply P_clock|exact Hl].
  - intros e st [HP Hl] _. now apply P_clock.
Qed.

Lemma inv_poll ln h :
  triple (at_line ln) (popen_poll h) (fun _ => at_line ln) (fun _ => P).
Proof.
  apply triple_syscall.
  - intros st [HP Hl] _.
    destruct (popens st !! h) as [p|]; [|split; [now apply P_clock|exact Hl]].
    destruct (p_returncode p); [split; [now apply P_clock|exact Hl]|].
    destruct (poll_result (clock st) h); [|split; [now apply P_clock|exact Hl]].
    simpl. split; [now apply P_clock, P_exit|].
    unfold set_returncode. now destruct (popens st !! h).
  - intros e st [HP Hl] _. now apply P_clock.
Qed.

Lemma inv_reap ln mi i proc :
  triple (at_line ln) (reap lines mi i proc) (fun _ => at_line ln) (fun _ => P).
Proof.
  unfold reap. destruct proc as [[finished_num h]|]; [|now apply triple_ret].
  apply triple_bind with (R := fun _ => at_line ln); [apply inv_poll|].
  intros [returncode|]; [|now apply triple_ret].
  apply triple_bind with (R := fun _ => at_line ln); [apply triple_gets; auto|]. intros r1.
  apply triple_bind with (R := fun _ => at_line ln);
    [apply triple_lift; [auto|now intros e st _ [HP _]]|]. intros job_name.
  apply triple_bind with (R := fun _ => at_line ln);
    [apply triple_lift; [auto|now intros e st _ [HP _]]|]. intros line.
  apply triple_bind with (R := fun _ => at_line ln); [apply inv_print|]. intros _.
  apply triple_bind with (R := fun _ => at_line ln).
  { apply triple_modify. intros st [HP Hl]. split; [now apply P_free|].
    unfold set_slot. now destruct (machine_procs st !! mi). }
  intros _. now apply triple_ret.
Qed.

Lemma inv_launch_or_skip mi i ln job_cmd job_name command :
  triple (at_line ln) (launch_or_skip a mi i ln job_cmd job_name command)
    (fun _ => at_line ln) (fun _ => P).
Proof.
  unfold launch_or_skip.
  apply triple_bind with (R := fun _ => at_line ln).
  { apply triple_syscall.
    - intros st [HP Hl] _. split; [now apply P_clock|exact Hl].
    - intros e st [HP Hl] _. now apply P_clock. }
  intros [|].
  { apply triple_bind with (R := fun _ => at_line ln); [apply inv_print|].
    intros _. now apply triple_ret. }
  apply triple_bind with (R := fun _ => at_line ln).
  { destruct (verbose a || dry_run a); [apply inv_print|now apply triple_ret]. }
  intros _. destruct (dry_run a) eqn:Hdry; [now apply triple_ret|].
  apply triple_bind with (R := fun _ => at_line ln); [apply inv_print|]. intros _.
  apply triple_bind with (R := fun _ => at_line ln).
  { apply triple_syscall.
    - intros st [HP Hl] _. split; [now apply P_clock, P_open|exact Hl].
    - intros e st [HP Hl] _. now apply P_clock. }
  intros stdout_file.
  apply triple_bind with (R := fun _ => at_line ln).
  { apply triple_syscall.
    - intros st [HP Hl] _. split; [now apply P_clock, P_open|exact Hl].
    - intros e st [HP Hl] _. now apply P_clock. }
  intros stderr_file.
  apply triple_bind
    with (R := fun h st => at_line ln st /\ (h < length (popens st))%nat).
  { apply triple_syscall.
    - intros st [HP Hl] _. simpl. split; [split; [now apply P_clock, P_spawn|exact Hl]|].
      rewrite length_app. simpl. lia.
    - intros e st [HP Hl] _. now apply P_clock. }
  intros process.
  apply triple_bind
    with (R := fun _ st => at_line ln st /\ (process < length (popens st))%nat).
  { apply triple_syscall.
    - intros st [[HP Hl] Hlt] _. split; [split; [now apply P_clock|exact Hl]|exact Hlt].
    - intros e st [[HP Hl] Hlt] _. now apply P_clock. }
  intros [].
  apply triple_bind with (R := fun _ => at_line ln).
  { apply triple_modify. intros st [[HP Hl] Hlt]. split.
    - rewrite <- Hl. now apply P_hold.
    - unfold set_slot. now destruct (machine_procs st !! mi). }
  intros []. now apply triple_ret.
Qed.

Lemma inv_dispatch mac mi i gpu_choice :
  triple P (dispatch a lines mac mi i gpu_choice) (fun _ => P) (fun _ => P).
Proof.
  unfold dispatch.
  apply triple_bind with (R := fun ln st => P st /\ line_num st = ln);
    [apply triple_gets; auto|]. intros ln.
  apply triple_bind
    with (R := fun _ st => (P st /\ line_num st = ln) /\ (ln < length lines)%nat).
  { apply triple_lift; [|now intros e st _ [HP _]].
    intros line st Hline HP. split; [exact HP|].
    unfold py_index in Hline. destruct (lines !! ln) eqn:Hl; [|discriminate].
    now apply lookup_lt_Some in Hl. }
  intros line. apply triple_weaken
    with (P' := fun st => P st /\ line_num st = ln /\ (ln < length lines)%nat)
         (Q' := fun _ => P) (E' := fun _ => P); auto; [|now intros st [[? ?] ?]].
  apply triple_bind
    with (R := fun _ st => P st /\ line_num st = ln /\ (ln < length lines)%nat);
    [apply triple_gets; auto|]. intros names.
  apply triple_bind
    with (R := fun _ st => P st /\ line_num st = ln /\ (ln < length lines)%nat);
    [apply triple_lift; [auto|now intros e st _ [HP _]]|]. intros job_name.
  apply triple_bind
    with (R := fun _ st => P st /\ line_num st = ln /\ (ln < length lines)%nat);
    [apply triple_lift; [auto|now intros e st _ [HP _]]|].
  intros [[job_cmd new_job_name] command].
  apply triple_bind
    with (R := fun _ st => P st /\ line_num st = ln /\ (ln < length lines)%nat).
  { destruct (kabuki_commands a); [|now apply triple_ret].
    apply triple_modify. intros st (HP & Hl & Hlt). split; [|auto].
    rewrite <- Hl. apply P_names; [exact HP|lia]. }
  intros _.
  apply triple_bind
    with (R := fun _ st => P st /\ line_num st = ln /\ (ln < length lines)%nat).
  { apply triple_modify. intros st (HP & Hl & Hlt). split; [now apply P_stdout|auto]. }
  intros _.
  apply triple_bind
    with (R := fun _ st => P st /\ line_num st = ln /\ (ln < length lines)%nat).
  { intros st (HP & Hl & Hlt).
    pose proof (inv_launch_or_skip mi i ln job_cmd new_job_name command st
                  (conj HP Hl)) as Hls.
    destruct (launch_or_skip a mi i ln job_cmd new_job_name command st); auto.
    destruct Hls. auto. }
  intros proc.
  apply triple_bind with (R := fun _ => P).
  { apply triple_modify. intros st (HP & Hl & Hlt). rewrite <- Hl.
    apply P_line; [exact HP|lia]. }
  intros _.
  apply triple_bind with (R := fun _ => P);
    [apply triple_modify; intros; now apply P_all_done|]. intros _.
  apply triple_bind with (R := fun _ => P);
    [apply triple_modify; intros; now apply P_waiting_only|]. intros _.
  now apply triple_ret.
Qed.

Lemma inv_slot_body mac mi i gpu_choice proc :
  triple P (slot_body a lines mac mi i gpu_choice proc) (fun _ => P) (fun _ => P).
Proof.
  unfold slot_body.
  apply triple_bind with (R := fun _ => P).
  { intros st HP. pose proof (inv_reap (line_num st) mi i proc st (conj HP eq_refl)) as Hr.
    destruct (reap lines mi i proc st); auto. now destruct Hr. }
  intros proc1.
  apply triple_bind with (R := fun _ => P); [apply triple_gets; auto|]. intros ln.
  apply triple_bind with (R := fun _ => P).
  { destruct proc1; [now apply triple_ret|].
    destruct (ln <? length lines)%nat; [apply inv_dispatch|now apply triple_ret]. }
  intros [p|]; [apply triple_modify; intros; now apply P_all_done|now apply triple_ret].
Qed.

Lemma inv_slots_loop mac mi gpu_choices :
  forall i, triple P (slots_loop a lines mac mi i gpu_choices) (fun _ => P) (fun _ => P).
Proof.
  induction gpu_choices as [|gpu_choice rest IH]; intros i; simpl;
    [now apply triple_ret|].
  apply triple_bind with (R := fun _ => P); [apply triple_gets; auto|].
  intros [proc|]; [|now apply triple_ret].
  apply triple_bind with (R := fun _ => P); [apply inv_slot_body|]. intros _. apply IH.
Qed.

Lemma inv_machines_loop macs :
  forall mi machine_gpu_choices,
    triple P (machines_loop a lines mi macs machine_gpu_choices)
      (fun _ => P) (fun _ => P).
Proof.
  induction macs as [|mac macs IH]; intros mi [|gpu_choices rest]; simpl;
    try (now apply triple_ret).
  apply triple_bind with (R := fun _ => P); [apply triple_gets; auto|]. intros n.
  destruct (mi <? n)%nat; [|now apply triple_ret].
  apply triple_bind with (R := fun _ => P); [apply inv_slots_loop|]. intros _. apply IH.
Qed.

Lemma inv_pass machine_gpu_choices :
  triple P (pass a lines machine_gpu_choices) (fun _ => P) (fun _ => P).
Proof.
  unfold pass.
  apply triple_bind with (R := fun _ => P);
    [apply triple_modify; intros; now apply P_all_done|]. intros _.
  apply triple_bind with (R := fun _ => P);
    [apply triple_modify; intros; now apply P_waiting_only|]. intros _.
  apply triple_bind with (R := fun _ => P); [apply inv_machines_loop|]. intros _.
  apply triple_bind with (R := fun _ => P); [apply triple_gets; auto|].
  intros [|]; [|now apply triple_ret].
  apply triple_syscall; intros; now apply P_clock.
Qed.

(** Whatever way the loop ends, it ends in a state that satisfies the
    invariant, and it never blocks. *)
Lemma inv_sched_loop fuel machine_gpu_choices :
  forall st o,
    P st ->
    sched_loop a lines fuel machine_gpu_choices st = Some o ->
    exists st', final_state o = Some st' /\ P st'.
Proof.
  induction fuel as [|fuel IH]; intros st o HP; simpl.
  - destruct (all_done st); [|discriminate]. intros [= <-]. eauto.
  - destruct (all_done st); [intros [= <-]; eauto|].
    pose proof (inv_pass machine_gpu_choices st HP) as Hp.
    destruct (pass a lines machine_gpu_choices st) as [[] st'|e st'|].
    + now apply IH.
    + intros [= <-]. eauto.
    + contradiction.
Qed.

End Invariant.

(** *** What the handler leaves alone *)

Section DrainFrame.
Context `{OS} {A : Type}.
Variable f : state -> A.
Hypothesis f_clock : forall st n, f (set_clock n st) = f st.
Hypothesis f_stdout : forall st l, f (set_stdout l st) = f st.
Hypothesis f_ignore : forall st b, f (set_sigint_ignored b st) = f st.
Hypothesis f_signal : forall st h sg, f (add_signal h sg st) = f st.
Hypothesis f_exit : forall st h rc, f (set_returncode h rc st) = f st.

Lemma send_all_frame (l : list nat) :
  forall st, exists st',
    for_each (fun h => popen_send_signal h SIGINT) l st = Return tt st'
    /\ f st' = f st.
Proof.
  induction l as [|h l IH]; intros st; simpl; [eauto|].
  unfold bind.
  change (popen_send_signal h SIGINT st)
    with (Return tt (set_clock (S (clock st)) (add_signal h SIGINT st))).
  cbv iota beta.
  destruct (IH (set_clock (S (clock st)) (add_signal h SIGINT st))) as (st' & -> & Hf).
  exists st'. split; [reflexivity|]. now rewrite Hf, f_clock, f_signal.
Qed.

Lemma wait_all_frame (l : list nat) :
  forall st,
    match for_each popen_wait l st with
    | Return _ st' => f st' = f st
    | Throw _ _ => False
    | Hang => True
    end.
Proof.
  induction l as [|h l IH]; intros st; simpl; [reflexivity|].
  unfold bind. destruct (popen_wait h st) as [[] st1|e st1|] eqn:Hw; [| |exact I].
  - assert (Hf1 : f st1 = f st).
    { unfold popen_wait in Hw.
      destruct (popens st !! h) as [p|];
        [destruct (p_returncode p); [|destruct (wait_result _ _); [|discriminate]]|];
        injection Hw as <-; now rewrite f_clock, ?f_exit. }
    specialize (IH st1).
    destruct (for_each popen_wait l st1); [|exact IH|exact I]. now rewrite IH.
  - unfold popen_wait in Hw.
    destruct (popens st !! h) as [p|];
      [destruct (p_returncode p); [|destruct (wait_result _ _)]|]; discriminate.
Qed.

Lemma drain_frame (be : exn) (st : state) :
  match drain be st with
  | Return _ _ => False
  | Throw e st' => e = be /\ f st' = f st
  | Hang => True
  end.
Proof.
  unfold drain, bind, print, gets, throw, modify. cbv beta iota.
  set (st1 := set_stdout (stdout (set_sigint_ignored true st) ++ ["interrupting tasks"])
                (set_sigint_ignored true st)).
  destruct (send_all_frame (held st1) st1) as (st2 & -> & Hf2).
  set (st3 := set_stdout (stdout st2 ++ ["waiting for tasks to terminate"]) st2).
  pose proof (wait_all_frame (held st3) st3) as Hw.
  destruct (for_each popen_wait (held st3) st3) as [[] st4|e st4|];
    [|contradiction|exact I].
  split; [reflexivity|].
  rewrite Hw. unfold st3. rewrite f_stdout, Hf2. unfold st1.
  now rewrite f_stdout, f_ignore.
Qed.

End DrainFrame.

Lemma omap_length_le {A B} (f : A -> option B) (l : list A) :
  (length (omap f l) <= length l)%nat.
Proof.
  induction l as [|x l IH]; csimpl; [lia|]. destruct (f x); csimpl; lia.
Qed.

Lemma set_slot_lengths mi i v st :
  length <$> machine_procs (set_slot mi i v st) = length <$> machine_procs st.
Proof.
  unfold set_slot. destruct (machine_procs st !! mi) as [procs|] eqn:Hmi; [|reflexivity].
  simpl. apply list_eq. intros k. rewrite !list_lookup_fmap.
  destruct (decide (k = mi)) as [->|Hne].
  - rewrite list_lookup_insert_eq by (now apply lookup_lt_Some in Hmi).
    rewrite Hmi. simpl. now rewrite length_insert.
  - now rewrite list_lookup_insert_ne by lia.
Qed.

Lemma setup_frame `{OS} a lines machine_gpu_choices (P : state -> Prop) :
  (forall st n, P st -> P (set_clock n st)) ->
  (forall st l, P st -> P (set_stdout l st)) ->
  (forall st l, P st -> P (set_machine_procs l st)) ->
  (forall st l, P st -> P (set_job_names l st)) ->
  triple P (setup a lines machine_gpu_choices) (fun _ => P) (fun _ => P).
Proof.
  intros Hc Ho Hm Hn. unfold setup.
  apply triple_bind with (R := fun _ => P); [apply triple_modify; auto|]. intros _.
  apply triple_bind with (R := fun _ => P); [apply triple_modify; auto|]. intros _.
  apply triple_bind with (R := fun _ => P); [now apply warn_existing_frame|]. intros _.
  apply triple_syscall; intros; auto.
Qed.



Lemma set_slot_line_num mi i v st : line_num (set_slot mi i v st) = line_num st.
Proof. unfold set_slot. now destruct (machine_procs st !! mi). Qed.

Lemma set_slot_job_names mi i v st : job_names (set_slot mi i v st) = job_names st.
Proof. unfold set_slot. now destruct (machine_procs st !! mi). Qed.

Lemma set_returncode_line_num h rc st : line_num (set_returncode h rc st) = line_num st.
Proof. unfold set_returncode. now destruct (popens st !! h). Qed.

Lemma set_returncode_job_names h rc st : job_names (set_returncode h rc st) = job_names st.
Proof. unfold set_returncode. now destruct (popens st !! h). Qed.

Lemma names_kept_frame lines st0 st st1 :
  line_num st1 = line_num st -> job_names st1 = job_names st ->
  names_kept lines st0 st -> names_kept lines st0 st1.
Proof. unfold names_kept. intros -> ->. auto. Qed.

(** X11 ([main], lines 160-218).  From any state, when the loop ends, the
    line counter has not gone back, is not past the number of lines if it
    was not before, and the job names of the lines taken before are
    unchanged. *)
Theorem X11_taken_lines_keep_their_names `{Library} `{OS} (a : args)
    (lines : list string) (fuel : nat) (machine_gpu_choices : list (list nat))
    (st : state) (o : outcome unit) :
  sched_loop a lines fuel machine_gpu_choices st = Some o ->
  exists st', final_state o = Some st' /\ names_kept lines st st'.
Proof.
  intros Hloop.
  apply (inv_sched_loop a lines (names_kept lines st))
    with (fuel := fuel) (machine_gpu_choices := machine_gpu_choices) (st := st);
    try exact Hloop;
    try (intros; eapply names_kept_frame; [| |eassumption];
         first [reflexivity|apply set_slot_line_num|apply set_slot_job_names
               |apply set_returncode_line_num|apply set_returncode_job_names]).
  - intros s (Hle & Hb & Hn) Hlt. split; [simpl; lia|]. split; [simpl; lia|exact Hn].
  - intros s v (Hle & Hb & Hn) Hlt. split; [exact Hle|]. split; [exact Hb|].
    intros n Hlt'. simpl. rewrite list_lookup_insert_ne by lia. now apply Hn.
  - split; [lia|]. split; auto.
Qed.

Lemma X11_taken_lines_keep_their_names_witness :
  @sched_loop plain_library interrupted_os plain_args two_lines 5 [[0%nat]]
    second_line_state = Some (Throw KeyboardInterrupt second_line_final)
  /\ exists st', final_state (Throw (A := unit) KeyboardInterrupt second_line_final)
                  = Some st'
               /\ names_kept two_lines second_line_state st'.
Proof.
  split; [vm_compute; reflexivity|].
  apply (@X11_taken_lines_keep_their_names plain_library interrupted_os plain_args
           two_lines 5 [[0%nat]] second_line_state).
  vm_compute. reflexivity.
Defined.

(** *** Machines without a slot *)

Section NoSlots.
Context `{Library} `{OS}.
Variable a : args.
Variable lines : list string.

Lemma machines_loop_no_slots macs :
  forall mi machine_gpu_choices st,
    Forall (fun c => c = []) machine_gpu_choices ->
    machines_loop a lines mi macs machine_gpu_choices st = Return tt st.
Proof.
  induction macs as [|mac macs IH]; intros mi [|gpu_choices rest] st Hall; simpl;
    try reflexivity.
  apply Forall_cons in Hall as [-> Hall].
  unfold bind, gets. destruct (mi <? length (machine_procs st))%nat; [|reflexivity].
  simpl. now apply IH.
Qed.

Lemma drain_nothing_held (be : exn) (st : state) :
  held st = [] ->
  drain be st
  = Throw be (set_stdout (stdout st ++ ["interrupting tasks";
                                        "waiting for tasks to terminate"])
                (set_sigint_ignored true st)).
Proof.
  intros Hheld. unfold drain, bind, print, gets, throw, modify. cbv beta iota.
  replace (held (set_stdout _ (set_sigint_ignored true st))) with (held st)
    by reflexivity.
  rewrite Hheld. cbn [for_each]. unfold ret. cbv beta iota.
  replace (held (set_stdout _ (set_stdout _ (set_sigint_ignored true st))))
    with (held st) by reflexivity.
  rewrite Hheld. cbn [for_each]. unfold ret. cbv beta iota.
  f_equal. unfold set_stdout. simpl. now rewrite <- app_assoc.
Qed.

(** X12 ([main], lines 152-218).  When the planner gave no machine a slot,
    the run ends after one turn of the loop, having started no process,
    opened no file and taken no line, whatever the batch holds. *)
Theorem X12_no_slot_no_job (machine_gpu_choices : list (list nat)) (fuel : nat)
    (t0 : nat) (out : list string) :
  Forall (fun c => c = []) machine_gpu_choices ->
  exists o st',
    schedule a lines (S fuel) machine_gpu_choices (boot t0 out) = Some o
    /\ final_state o = Some st'
    /\ popens st' = [] /\ opened st' = [] /\ line_num st' = 0%nat.
Proof.
  intros Hall. unfold schedule.
  pose proof (setup_spec a lines machine_gpu_choices [] (boot t0 out) eq_refl) as Hs.
  pose proof (setup_frame a lines machine_gpu_choices
                (fun st => opened st = [] /\ line_num st = 0%nat)
                ltac:(auto) ltac:(auto) ltac:(auto) ltac:(auto)
                (boot t0 out) (conj eq_refl eq_refl)) as Hf.
  destruct (setup a lines machine_gpu_choices (boot t0 out)) as [[] st|e st|];
    [| |contradiction].
  - destruct Hs as (Hprocs & _ & Hpop). destruct Hf as [Hop Hln].
    pose proof (held_all_None _ _ Hprocs) as Hheld.
    unfold run_loop. cbn [sched_loop all_done set_all_done].
    unfold pass, bind, modify, gets. cbv beta iota.
    rewrite machines_loop_no_slots by exact Hall. cbn [waiting_only set_waiting_only].
    unfold time_sleep, syscall. cbn [clock set_waiting_only set_all_done set_line_num].
    destruct (raised (clock st)) as [e|].
    + rewrite drain_nothing_held by exact Hheld.
      eexists _, _. split; [reflexivity|]. split; [reflexivity|]. auto.
    + cbv beta iota.
      eexists _, _. split; [destruct fuel; reflexivity|]. split; [reflexivity|]. auto.
  - destruct Hs as (_ & _ & Hpop). destruct Hf as [Hop Hln].
    exists (Throw e st), st. auto.
Qed.

End NoSlots.

Lemma X12_no_slot_no_job_witness :
  Forall (fun c : list nat => c = []) [[]]
  /\ exists o st',
       @schedule plain_library unmarked_os plain_args two_lines 1 [[]] (boot 0 [])
         = Some o
       /\ final_state o = Some st'
       /\ popens st' = [] /\ opened st' = [] /\ line_num st' = 0%nat.
Proof.
  assert (Hall : Forall (fun c : list nat => c = []) [[]]) by (now constructor).
  split; [exact Hall|].
  apply (@X12_no_slot_no_job plain_library unmarked_os plain_args two_lines [[]]
           0%nat 0%nat [] Hall).
Defined.

(** *** Dry runs *)

Lemma launch_or_skip_dry `{OS} (a : args) (mi i ln : nat) job_cmd job_name command st :
  dry_run a = true ->
  match launch_or_skip a mi i ln job_cmd job_name command st with
  | Return proc st' =>
      proc = None /\ popens st' = popens st
      /\ machine_procs st' = machine_procs st /\ opened st' = opened st
      /\ line_num st' = line_num st
  | Throw _ st' =>
      popens st' = popens st /\ machine_procs st' = machine_procs st
      /\ opened st' = opened st
  | Hang => False
  end.
Proof.
  intros Hdry. unfold launch_or_skip, bind, os_path_exists, syscall, print, modify, ret.
  rewrite Hdry, orb_true_r.
  destruct (raised (clock st)); [now auto|].
  destruct (path_exists (clock st) _); simpl; auto 10.
Qed.

Section DryRun.
Context `{Library} `{OS}.
Variable a : args.
Variable lines : list string.
Hypothesis Hdry : dry_run a = true.

Lemma quiet_frame st st' :
  popens st' = popens st -> machine_procs st' = machine_procs st ->
  opened st' = opened st -> quiet st -> quiet st'.
Proof.
  intros Hp Hm Ho (Hpop & Hheld & Hop). repeat split; try congruence.
  unfold held in *. now rewrite Hm.
Qed.

Lemma dispatch_dry mac mi i gpu_choice st :
  quiet st ->
  match dispatch a lines mac mi i gpu_choice st with
  | Return proc st' =>
      proc = None /\ quiet st'
      /\ line_num st' = S (line_num st) /\ (line_num st < length lines)%nat
  | Throw _ st' => quiet st'
  | Hang => False
  end.
Proof.
  intros Hq.
  unfold dispatch, bind, gets, lift, py_index.
  destruct (lines !! line_num st) as [line|] eqn:Hline; [|exact Hq].
  simpl.
  destruct (job_names st !! line_num st) as [job_name|] eqn:Hname; [|exact Hq].
  simpl.
  destruct (build_job a mac gpu_choice job_name line) as [[[job_cmd nm] command]|e]
    eqn:Hjob; [|exact Hq].
  simpl.
  apply lookup_lt_Some in Hline as Hlt.
  set (st1 := match (if kabuki_commands a
                     then modify (fun st => set_job_names (<[line_num st := nm]> (job_names st)) st)
                     else ret tt) st with
              | Return _ s => s | Throw _ s => s | Hang => st end).
  assert (H1 : (if kabuki_commands a
                then modify (fun st0 => set_job_names (<[line_num st := nm]> (job_names st0)) st0)
                else ret tt) st = Return tt st1).
  { unfold st1. now destruct (kabuki_commands a). }
  rewrite H1. unfold print, modify.
  set (st2 := set_stdout (stdout st1 ++ [nm]) st1).
  assert (Hp2 : popens st2 = popens st) by (unfold st2, st1; now destruct (kabuki_commands a)).
  assert (Hm2 : machine_procs st2 = machine_procs st)
    by (unfold st2, st1; now destruct (kabuki_commands a)).
  assert (Ho2 : opened st2 = opened st)
    by (unfold st2, st1; now destruct (kabuki_commands a)).
  assert (Hl2 : line_num st2 = line_num st)
    by (unfold st2, st1; now destruct (kabuki_commands a)).
  pose proof (launch_or_skip_dry a mi i (line_num st) job_cmd nm command st2 Hdry) as Hls.
  destruct (launch_or_skip a mi i (line_num st) job_cmd nm command st2)
    as [proc st3|e st3|]; [| |contradiction].
  - destruct Hls as (-> & Hp3 & Hm3 & Ho3 & Hl3). simpl.
    split; [reflexivity|]. split; [|split; [reflexivity|exact Hlt]].
    apply (quiet_frame st); simpl; congruence.
  - destruct Hls as (Hp3 & Hm3 & Ho3).
    apply (quiet_frame st); congruence.
Qed.

Lemma quiet_slot st mi i (proc : slot) :
  quiet st -> get_slot mi i st = Some proc -> proc = None.
Proof.
  intros (_ & Hheld & _) Hs. destruct proc as [[ln h]|]; [|reflexivity].
  assert (Hin : h ∈ held st) by (apply elem_of_held; eauto).
  rewrite Hheld in Hin. now apply elem_of_nil in Hin.
Qed.

Lemma slot_body_dry ln0 mac mi i gpu_choice :
  triple (rehearsing lines ln0) (slot_body a lines mac mi i gpu_choice None)
    (fun _ => rehearsing lines ln0) (fun _ => quiet).
Proof.
  intros st (Hq & Hb & Hle & Hprog).
  unfold slot_body, bind, reap, ret, gets.
  destruct (line_num st <? length lines)%nat.
  - pose proof (dispatch_dry mac mi i gpu_choice st Hq) as Hd.
    destruct (dispatch a lines mac mi i gpu_choice st) as [proc st'|e st'|];
      [|exact Hd|contradiction].
    destruct Hd as (-> & Hq' & Hln & Hlt).
    split; [exact Hq'|]. split; [lia|]. split; [lia|right; lia].
  - split; [exact Hq|]. auto.
Qed.

Lemma slots_loop_dry ln0 mac mi gpu_choices :
  forall i,
    triple (rehearsing lines ln0) (slots_loop a lines mac mi i gpu_choices)
      (fun _ => rehearsing lines ln0) (fun _ => quiet).
Proof.
  induction gpu_choices as [|gpu_choice rest IH]; intros i; simpl;
    [now apply triple_ret|].
  apply triple_bind
    with (R := fun proc st => rehearsing lines ln0 st /\ get_slot mi i st = proc).
  { apply triple_gets. auto. }
  intros [proc|]; [|apply triple_ret; now intros st [HJ _]].
  intros st [HJ Hs].
  assert (proc = None) as -> by (eapply quiet_slot; [apply HJ|exact Hs]).
  exact (triple_bind (rehearsing lines ln0) _ _
           (fun _ => rehearsing lines ln0) _ _
           (slot_body_dry ln0 mac mi i gpu_choice) (fun _ => IH (S i)) st HJ).
Qed.

Lemma machines_loop_dry ln0 macs :
  forall mi machine_gpu_choices,
    triple (rehearsing lines ln0)
      (machines_loop a lines mi macs machine_gpu_choices)
      (fun _ => rehearsing lines ln0) (fun _ => quiet).
Proof.
  induction macs as [|mac macs IH]; intros mi [|gpu_choices rest]; simpl;
    try (now apply triple_ret).
  apply triple_bind with (R := fun _ => rehearsing lines ln0);
    [apply triple_gets; auto|]. intros n.
  destruct (mi <? n)%nat; [|now apply triple_ret].
  apply triple_bind with (R := fun _ => rehearsing lines ln0);
    [apply slots_loop_dry|]. intros _. apply IH.
Qed.

Lemma pass_dry machine_gpu_choices st :
  quiet st -> (line_num st <= length lines)%nat ->
  match pass a lines machine_gpu_choices st with
  | Return _ st' =>
      quiet st' /\ (line_num st' <= length lines)%nat
      /\ (all_done st' = true \/ (line_num st < line_num st')%nat)
  | Throw _ st' => quiet st'
  | Hang => False
  end.
Proof.
  intros Hq Hb.
  assert (Ht : triple (fun s => s = st) (pass a lines machine_gpu_choices)
                 (fun _ => rehearsing lines (line_num st)) (fun _ => quiet)).
  { unfold pass.
    apply triple_bind with (R := fun _ s => s = set_all_done true st);
      [apply triple_modify; now intros s ->|]. intros _.
    apply triple_bind with (R := fun _ => rehearsing lines (line_num st)).
    { apply triple_modify. intros s ->. split; [exact Hq|]. split; [exact Hb|].
      split; [simpl; lia|now left]. }
    intros _.
    apply triple_bind with (R := fun _ => rehearsing lines (line_num st));
      [apply machines_loop_dry|]. intros _.
    apply triple_bind
      with (R := fun _ => rehearsing lines (line_num st));
      [apply triple_gets; auto|].
    intros [|]; [|now apply triple_ret].
    apply triple_syscall.
    - intros s HJ _. exact HJ.
    - intros e s HJ _. apply HJ. }
  specialize (Ht st eq_refl).
  destruct (pass a lines machine_gpu_choices st) as [[] st'|e st'|]; [|exact Ht|].
  - destruct Ht as (? & ? & ? & ?). auto.
  - exact Ht.
Qed.

Lemma sched_loop_dry machine_gpu_choices :
  forall fuel st,
    quiet st -> (line_num st <= length lines)%nat ->
    (length lines - line_num st < fuel)%nat ->
    exists o st',
      sched_loop a lines fuel machine_gpu_choices st = Some o
      /\ final_state o = Some st' /\ quiet st'.
Proof.
  induction fuel as [|fuel IH]; intros st Hq Hb Hfuel; [lia|].
  simpl. destruct (all_done st) eqn:Hdone; [exists (Return tt st), st; auto|].
  pose proof (pass_dry machine_gpu_choices st Hq Hb) as Hp.
  destruct (pass a lines machine_gpu_choices st) as [[] st'|e st'|];
    [|exists (Throw e st'), st'; auto|contradiction].
  destruct Hp as (Hq' & Hb' & [Hdone'|Hlt]).
  - exists (Return tt st'), st'. split; [|auto].
    destruct fuel; simpl; now rewrite Hdone'.
  - apply IH; [exact Hq'|exact Hb'|lia].
Qed.

(** X13 ([main], lines 152-218, with [--dry-run]).  A dry run ends,
    within one turn per line and one more, having started no process,
    opened no file and filled no slot. *)
Theorem X13_dry_run_starts_nothing (machine_gpu_choices : list (list nat))
    (fuel : nat) (t0 : nat) (out : list string) :
  (length lines < fuel)%nat ->
  exists o st',
    schedule a lines fuel machine_gpu_choices (boot t0 out) = Some o
    /\ final_state o = Some st'
    /\ popens st' = [] /\ opened st' = [] /\ held st' = [].
Proof.
  intros Hfuel. unfold schedule.
  pose proof (setup_spec a lines machine_gpu_choices [] (boot t0 out) eq_refl) as Hs.
  pose proof (setup_frame a lines machine_gpu_choices
                (fun st => opened st = [])
                ltac:(auto) ltac:(auto) ltac:(auto) ltac:(auto)
                (boot t0 out) eq_refl) as Hf.
  destruct (setup a lines machine_gpu_choices (boot t0 out)) as [[] st|e st|];
    [| |contradiction].
  - destruct Hs as (Hprocs & _ & Hpop).
    pose proof (held_all_None _ _ Hprocs) as Hheld.
    assert (Hq : quiet (set_all_done false (set_line_num 0 st)))
      by (repeat split; assumption).
    destruct (sched_loop_dry machine_gpu_choices fuel _ Hq) as (o & st' & Hloop & Hfin & Hq');
      [simpl; lia|simpl; lia|].
    unfold run_loop. rewrite Hloop.
    destruct o as [[] st1|be st1|]; [| |discriminate]; injection Hfin as ->.
    + exists (Return tt st'), st'. destruct Hq' as (? & ? & ?). auto.
    + destruct Hq' as (Hp' & Hh' & Ho').
      rewrite (drain_nothing_held be st' Hh').
      eexists _, _. split; [reflexivity|]. split; [reflexivity|]. auto.
  - destruct Hs as (Hprocs & _ & Hpop).
    exists (Throw e st), st. split; [reflexivity|]. split; [reflexivity|].
    split; [exact Hpop|]. split; [exact Hf|]. apply (held_all_None _ _ Hprocs).
Qed.

End DryRun.

Lemma X13_dry_run_starts_nothing_witness :
  dry_run dry_args = true
  /\ (length two_lines < 3)%nat
  /\ exists o st',
       @schedule plain_library unmarked_os dry_args two_lines 3 [[0%nat]] (boot 0 [])
         = Some o
       /\ final_state o = Some st'
       /\ popens st' = [] /\ opened st' = [] /\ held st' = [].
Proof.
  split; [reflexivity|]. split; [simpl; lia|].
  apply (@X13_dry_run_starts_nothing plain_library unmarked_os dry_args two_lines
           eq_refl [[0%nat]] 3%nat 0%nat []).
  simpl. lia.
Defined.

(** *** Leaving the loop *)

Lemma triple_conj {A} (P P' : state -> Prop) (c : M A) Q Q' E E' :
  triple P c Q E -> triple P' c Q' E' ->
  triple (fun st => P st /\ P' st) c
    (fun x st => Q x st /\ Q' x st) (fun e st => E e st /\ E' e st).
Proof.
  intros H1 H2 st [HP HP']. specialize (H1 st HP). specialize (H2 st HP').
  destruct (c st); auto.
Qed.

Lemma settled_frame lines st st' mi i :
  machine_procs st' = machine_procs st -> (line_num st <= line_num st')%nat ->
  settled lines st mi i -> settled lines st' mi i.
Proof.
  unfold settled, get_slot. intros -> Hle.
  destruct (machine_procs st !! mi ≫= _) as [[x|]|]; auto. lia.
Qed.

Lemma done_upto_frame lines mi i st st' :
  machine_procs st' = machine_procs st -> (line_num st <= line_num st')%nat ->
  (all_done st' = true -> all_done st = true) ->
  done_upto lines mi i st -> done_upto lines mi i st'.
Proof.
  intros Hm Hl Ha Hd Hdone mi' i' Hb.
  apply (settled_frame lines st); auto.
Qed.

Lemma done_upto_clear lines mi i st :
  done_upto lines mi i st -> done_upto lines mi i (set_slot mi i None st).
Proof.
  intros Hd Hdone mi' i' Hb.
  assert (Hdone' : all_done st = true).
  { rewrite <- Hdone. unfold set_slot. now destruct (machine_procs st !! mi). }
  specialize (Hd Hdone' mi' i' Hb). unfold settled in *.
  rewrite set_slot_line_num.
  destruct (get_slot mi' i' (set_slot mi i None st)) as [s|] eqn:Hs; [|exact I].
  apply get_slot_set_slot in Hs as [(-> & -> & _)|Hs]; [lia|].
  now rewrite Hs in Hd.
Qed.

Lemma get_slot_None_above mi i i' st :
  get_slot mi i st = None -> (i <= i')%nat -> get_slot mi i' st = None.
Proof.
  unfold get_slot. destruct (machine_procs st !! mi) as [procs|]; [|reflexivity].
  simpl. intros Hn Hle. apply lookup_ge_None in Hn. apply lookup_ge_None. lia.
Qed.

Section Leaving.
Context `{Library} `{OS}.
Variable a : args.
Variable lines : list string.
Variable machine_gpu_choices : list (list nat).

Local Abbreviation planned := (slots_as_planned machine_gpu_choices).

Lemma planned_invariant {A} (c : M A) :
  (forall P : state -> Prop,
     (forall st n, P st -> P (set_clock n st)) ->
     (forall st l, P st -> P (set_stdout l st)) ->
     (forall st b, P st -> P (set_all_done b st)) ->
     (forall st b, P st -> P (set_waiting_only b st)) ->
     (forall st, P st -> (line_num st < length lines)%nat ->
        P (set_line_num (S (line_num st)) st)) ->
     (forall st v, P st -> (line_num st < length lines)%nat ->
        P (set_job_names (<[line_num st := v]> (job_names st)) st)) ->
     (forall st mi i, P st -> P (set_slot mi i None st)) ->
     (forall st h rc, P st -> P (set_returncode h rc st)) ->
     (dry_run a = false ->
        forall st path, P st -> P (set_opened (opened st ++ [path]) st)) ->
     (dry_run a = false ->
        forall st p, P st -> P (set_popens (popens st ++ [p]) st)) ->
     (dry_run a = false ->
        forall st mi i h, P st -> (h < length (popens st))%nat ->
          P (set_slot mi i (Some (line_num st, h)) st)) ->
     triple P c (fun _ => P) (fun _ => P)) ->
  triple planned c (fun _ => planned) (fun _ => planned).
Proof.
  intros Hc. apply Hc; unfold slots_as_planned; intros; simpl;
    rewrite ?set_slot_lengths, ?set_returncode_machine_procs; assumption.
Qed.

Lemma planned_slot_body mac mi i gpu_choice proc :
  triple planned (slot_body a lines mac mi i gpu_choice proc)
    (fun _ => planned) (fun _ => planned).
Proof.
  apply planned_invariant. intros P. intros. now apply (inv_slot_body a lines P).
Qed.

Lemma reap_settles mi i proc :
  triple (fun st => done_upto lines mi i st /\ get_slot mi i st = Some proc)
    (reap lines mi i proc)
    (fun proc1 st => done_upto lines mi i st
                     /\ (proc1 = None -> get_slot mi i st = Some None))
    (fun _ _ => True).
Proof.
  unfold reap. destruct proc as [[finished_num h]|];
    [|apply triple_ret; intros st [Hd Hs]; auto].
  set (J := fun st => done_upto lines mi i st
                      /\ get_slot mi i st = Some (Some (finished_num, h))).
  apply triple_bind with (R := fun _ => J).
  { apply triple_syscall; [|auto].
    intros st [Hd Hs] _.
    assert (Hm : machine_procs
                   (snd match popens st !! h with
                        | Some p =>
                            match p_returncode p with
                            | Some rc => (Some rc, st)
                            | None =>
                                match poll_result (clock st) h with
                                | Some rc => (Some rc, set_returncode h rc st)
                                | None => (None, st)
                                end
                            end
                        | None => (None, st)
                        end) = machine_procs st
                 /\ line_num
                      (snd match popens st !! h with
                           | Some p =>
                               match p_returncode p with
                               | Some rc => (Some rc, st)
                               | None =>
                                   match poll_result (clock st) h with
                                   | Some rc => (Some rc, set_returncode h rc st)
                                   | None => (None, st)
                                   end
                               end
                           | None => (None, st)
                           end) = line_num st
                 /\ all_done
                      (snd match popens st !! h with
                           | Some p =>
                               match p_returncode p with
                               | Some rc => (Some rc, st)
                               | None =>
                                   match poll_result (clock st) h with
                                   | Some rc => (Some rc, set_returncode h rc st)
                                   | None => (None, st)
                                   end
                               end
                           | None => (None, st)
                           end) = all_done st).
    { destruct (popens st !! h) as [p|] eqn:Hp; [|auto].
      destruct (p_returncode p); [auto|].
      destruct (poll_result (clock st) h); [|auto]. simpl.
      unfold set_returncode. rewrite Hp. auto. }
    destruct Hm as (Hm & Hl & Ha). split.
    - eapply done_upto_frame; [| | |exact Hd]; simpl; try congruence. lia.
    - unfold get_slot in *. simpl. now rewrite Hm. }
  intros [returncode|]; [|apply triple_ret; intros st [Hd Hs]; split; [exact Hd|discriminate]].
  apply triple_bind with (R := fun _ => J); [apply triple_gets; auto|]. intros r1.
  apply triple_bind with (R := fun _ => J); [apply triple_lift; auto|]. intros job_name.
  apply triple_bind with (R := fun _ => J); [apply triple_lift; auto|]. intros line.
  apply triple_bind with (R := fun _ => J).
  { apply triple_modify. intros st [Hd Hs]. split; [|exact Hs].
    eapply done_upto_frame; [| | |exact Hd]; simpl; auto. }
  intros _.
  apply triple_bind
    with (R := fun _ st => done_upto lines mi i st /\ get_slot mi i st = Some None).
  { apply triple_modify. intros st [Hd Hs]. split; [now apply done_upto_clear|].
    apply get_slot_set_slot_eq. rewrite Hs. eauto. }
  intros _. apply triple_ret. intros st [Hd Hs]. auto.
Qed.

Lemma dispatch_clears_all_done mac mi i gpu_choice :
  triple (fun _ => True) (dispatch a lines mac mi i gpu_choice)
    (fun _ st => all_done st = false) (fun _ _ => True).
Proof.
  unfold dispatch.
  apply triple_bind with (R := fun _ _ => True); [apply triple_gets; auto|]. intros ln.
  apply triple_bind with (R := fun _ _ => True); [apply triple_lift; auto|]. intros line.
  apply triple_bind with (R := fun _ _ => True); [apply triple_gets; auto|]. intros names.
  apply triple_bind with (R := fun _ _ => True); [apply triple_lift; auto|]. intros job_name.
  apply triple_bind with (R := fun _ _ => True); [apply triple_lift; auto|].
  intros [[job_cmd new_job_name] command].
  apply triple_bind with (R := fun _ _ => True).
  { destruct (kabuki_commands a); [apply triple_modify|apply triple_ret]; auto. }
  intros _.
  apply triple_bind with (R := fun _ _ => True); [apply triple_modify; auto|]. intros _.
  apply triple_bind with (R := fun _ _ => True).
  { intros st _.
    pose proof (launch_or_skip_cases a mi i ln job_cmd new_job_name command st) as Ho.
    destruct (launch_or_skip a mi i ln job_cmd new_job_name command st); auto. }
  intros proc.
  apply triple_bind with (R := fun _ _ => True); [apply triple_modify; auto|]. intros _.
  apply triple_bind with (R := fun _ st => all_done st = false);
    [apply triple_modify; auto|]. intros _.
  apply triple_bind with (R := fun _ st => all_done st = false);
    [apply triple_modify; auto|]. intros _.
  now apply triple_ret.
Qed.

Lemma slot_body_settles mac mi i gpu_choice proc :
  triple (fun st => done_upto lines mi i st /\ get_slot mi i st = Some proc)
    (slot_body a lines mac mi i gpu_choice proc)
    (fun _ => done_upto lines mi (S i)) (fun _ _ => True).
Proof.
  unfold slot_body.
  apply triple_bind
    with (R := fun proc1 st => done_upto lines mi i st
                               /\ (proc1 = None -> get_slot mi i st = Some None));
    [apply reap_settles|]. intros proc1.
  apply triple_bind
    with (R := fun ln st => (done_upto lines mi i st
                             /\ (proc1 = None -> get_slot mi i st = Some None))
                            /\ line_num st = ln);
    [apply triple_gets; auto|]. intros ln.
  apply triple_bind
    with (R := fun p st =>
                 match p with
                 | Some _ => True
                 | None => all_done st = false
                           \/ (done_upto lines mi i st
                               /\ get_slot mi i st = Some None
                               /\ (length lines <= line_num st)%nat)
                 end).
  { destruct proc1 as [x|]; [now apply triple_ret|].
    destruct (ln <? length lines)%nat eqn:Hlt.
    - apply triple_weaken
        with (P' := fun _ => True) (Q' := fun _ st => all_done st = false)
             (E' := fun _ _ => True); [apply dispatch_clears_all_done|auto| |auto].
      intros p st Hd. destruct p; auto.
    - apply triple_ret. intros st [[Hd Hs] Hl]. right.
      apply Nat.ltb_ge in Hlt. split; [exact Hd|]. split; [auto|lia]. }
  intros [x|].
  - apply triple_modify. intros st _ Hdone. discriminate.
  - apply triple_ret. intros st [Hf|(Hd & Hs & Hl)] Hdone; [congruence|].
    intros mi' i' [Hlt|[-> Hlt]].
    + apply Hd; auto.
    + destruct (decide (i' = i)) as [->|Hne].
      * unfold settled. now rewrite Hs.
      * apply Hd; [exact Hdone|]. right. split; [reflexivity|lia].
Qed.

Lemma slots_loop_settles mac mi gpu_choices_mi gpu_choices :
  machine_gpu_choices !! mi = Some gpu_choices_mi ->
  forall i,
    (i + length gpu_choices = length gpu_choices_mi)%nat ->
    triple (fun st => done_upto lines mi i st /\ planned st)
      (slots_loop a lines mac mi i gpu_choices)
      (fun _ st => done_upto lines (S mi) 0 st /\ planned st) (fun _ _ => True).
Proof.
  intros Hmi. induction gpu_choices as [|gpu_choice rest IH]; intros i Hlen; simpl.
  - apply triple_ret. intros st [Hd Hp]. split; [|exact Hp].
    intros Hdone mi' i' [Hlt|[_ Hlt]]; [|lia].
    destruct (decide (mi' = mi)) as [->|Hne]; [|apply Hd; [exact Hdone|left; lia]].
    destruct (decide (i' < i)%nat) as [Hi|Hi]; [apply Hd; auto|].
    unfold settled.
    replace (get_slot mi i' st) with (@None slot); [exact I|].
    symmetry. unfold get_slot.
    destruct (machine_procs st !! mi) as [procs|] eqn:Hprocs; [|reflexivity].
    simpl. apply lookup_ge_None.
    unfold slots_as_planned in Hp. apply (f_equal (fun l => l !! mi)) in Hp.
    rewrite !list_lookup_fmap, Hprocs, Hmi in Hp. injection Hp as Hp.
    simpl in Hlen. lia.
  - apply triple_bind
      with (R := fun proc st => (done_upto lines mi i st /\ planned st)
                                /\ get_slot mi i st = proc);
      [apply triple_gets; auto|].
    intros [proc|].
    + apply triple_bind
        with (R := fun _ st => done_upto lines mi (S i) st /\ planned st).
      * eapply triple_weaken;
          [apply (triple_conj _ _ _ _ _ _ _ (slot_body_settles mac mi i gpu_choice proc)
                    (planned_slot_body mac mi i gpu_choice proc))| | |];
          [intros st [[Hd Hp] Hs]; auto|auto|auto].
      * intros _. apply IH. simpl in Hlen. lia.
    + apply triple_ret. intros st [[Hd Hp] Hs]. split; [|exact Hp].
      intros Hdone mi' i' [Hlt|[_ Hlt]]; [|lia].
      destruct (decide (mi' = mi)) as [->|Hne]; [|apply Hd; [exact Hdone|left; lia]].
      destruct (decide (i' < i)%nat) as [Hi|Hi]; [apply Hd; auto|].
      unfold settled. rewrite (get_slot_None_above mi i i' st Hs) by lia. exact I.
Qed.

Lemma machines_loop_settles macs :
  forall mi gone rest,
    machine_gpu_choices = gone ++ rest -> length gone = mi ->
    length macs = length rest ->
    triple (fun st => done_upto lines mi 0 st /\ planned st)
      (machines_loop a lines mi macs rest)
      (fun _ st => done_all lines st /\ planned st) (fun _ _ => True).
Proof.
  assert (Hend : forall mi st,
             (length (machine_procs st) <= mi)%nat ->
             done_upto lines mi 0 st -> done_all lines st).
  { intros mi st Hle Hd Hdone mi' i'.
    destruct (decide (mi' < mi)%nat) as [Hlt|Hge]; [apply Hd; auto|].
    unfold settled, get_slot.
    replace (machine_procs st !! mi') with (@None (list slot));
      [exact I|symmetry; apply lookup_ge_None; lia]. }
  induction macs as [|mac macs IH]; intros mi gone [|gpu_choices rest] Hsplit Hgone Hlen;
    simpl in *; try discriminate.
  - apply triple_ret. intros st [Hd Hp]. split; [|exact Hp].
    apply (Hend mi); [|exact Hd].
    unfold slots_as_planned in Hp. apply (f_equal length) in Hp.
    rewrite !length_fmap, Hsplit, app_nil_r in Hp. lia.
  - apply triple_bind
      with (R := fun n st => (done_upto lines mi 0 st /\ planned st)
                             /\ n = length (machine_procs st));
      [apply triple_gets; auto|]. intros n.
    destruct (mi <? n)%nat eqn:Hlt.
    + apply triple_bind
        with (R := fun _ st => done_upto lines (S mi) 0 st /\ planned st).
      * eapply triple_weaken;
          [apply (slots_loop_settles mac mi gpu_choices gpu_choices)| | |]; auto.
        -- rewrite Hsplit, <- Hgone. now rewrite list_lookup_middle.
        -- now intros st [? _].
      * intros _. apply (IH (S mi) (gone ++ [gpu_choices]) rest).
        -- now rewrite <- app_assoc.
        -- rewrite length_app. simpl. lia.
        -- lia.
    + apply triple_ret. intros st [[Hd Hp] ->]. split; [|exact Hp].
      apply Nat.ltb_ge in Hlt. now apply (Hend mi).
Qed.

Lemma pass_settles st :
  length (machines a) = length machine_gpu_choices ->
  planned st ->
  match pass a lines machine_gpu_choices st with
  | Return _ st' => done_all lines st' /\ planned st'
  | Throw _ _ => True
  | Hang => False
  end.
Proof.
  intros Hlen Hp.
  assert (Ht : triple planned (pass a lines machine_gpu_choices)
                 (fun _ st' => done_all lines st' /\ planned st') (fun _ _ => True)).
  { unfold pass.
    apply triple_bind with (R := fun _ => planned); [apply triple_modify; auto|].
    intros _.
    apply triple_bind with (R := fun _ => planned); [apply triple_modify; auto|].
    intros _.
    apply triple_bind with (R := fun _ st' => done_all lines st' /\ planned st').
    { eapply triple_weaken;
        [apply (machines_loop_settles (machines a) 0%nat [] machine_gpu_choices)| | |];
        auto.
      intros s Hs. split; [|exact Hs]. intros _ mi' i' [Hlt|[_ Hlt]]; lia. }
    intros _.
    apply triple_bind with (R := fun _ st' => done_all lines st' /\ planned st');
      [apply triple_gets; auto|].
    intros [|]; [|now apply triple_ret].
    apply triple_syscall; [|auto].
    intros s [Hd Hs] _. split; [|exact Hs].
    intros Hdone mi i. apply (settled_frame lines s); auto. }
  exact (Ht st Hp).
Qed.

Lemma sched_loop_settles :
  length (machines a) = length machine_gpu_choices ->
  forall fuel st st',
    planned st -> all_done st = false ->
    sched_loop a lines fuel machine_gpu_choices st = Some (Return tt st') ->
    forall mi i, settled lines st' mi i.
Proof.
  intros Hlen. induction fuel as [|fuel IH]; intros st st' Hp Hdone; simpl;
    rewrite Hdone; [discriminate|].
  pose proof (pass_settles st Hlen Hp) as Hpass.
  destruct (pass a lines machine_gpu_choices st) as [[] st1|e st1|];
    [|discriminate|contradiction].
  destruct Hpass as [Hd1 Hp1].
  destruct (all_done st1) eqn:Hdone1.
  - destruct fuel; simpl; rewrite Hdone1; intros [= <-]; now apply Hd1.
  - now apply IH.
Qed.


End Leaving.

(** *** The default job names *)

Lemma to_uint_nonnil (n : nat) : Nat.to_uint n <> Decimal.Nil.
Proof.
  rewrite <- (Unsigned.of_to n) at 1. rewrite Unsigned.to_of. apply unorm_nonnil.
Qed.

Lemma py_str_inj (n m : nat) : py_str n = py_str m -> n = m.
Proof.
  unfold py_str. intros Heq. apply Unsigned.to_uint_inj.
  pose proof (NilZero.usu _ (to_uint_nonnil n)) as Hn.
  pose proof (NilZero.usu _ (to_uint_nonnil m)) as Hm.
  rewrite Heq in Hn. congruence.
Qed.

Lemma string_app_inv_head (s x y : string) : s +:+ x = s +:+ y -> x = y.
Proof.
  induction s as [|c s IH]; [auto|]. rewrite !append_cons. intros [= Heq]. auto.
Qed.

Lemma py_in_slash_cons (c : ascii) (s : string) :
  py_in "/" (String c s) = Ascii.eqb "/" c || py_in "/" s.
Proof.
  cbn [py_in String.prefix]. destruct (Ascii.eqb_spec "/" c) as [<-|Hne].
  - destruct (ascii_dec "/" "/"); [|contradiction]. now destruct s.
  - destruct (ascii_dec "/" c); [contradiction|reflexivity].
Qed.

Lemma py_in_slash_app (s1 s2 : string) :
  py_in "/" (s1 +:+ s2) = py_in "/" s1 || py_in "/" s2.
Proof.
  induction s1 as [|c s1 IH].
  - change ("" +:+ s2) with s2. reflexivity.
  - rewrite append_cons, !py_in_slash_cons, IH. now rewrite orb_assoc.
Qed.

Lemma py_replace_char_no_slash (s : string) :
  py_in "/" (py_replace_char "/" "_" s) = false.
Proof.
  induction s as [|c s IH]; [reflexivity|].
  cbn [py_replace_char]. rewrite py_in_slash_app, IH, orb_false_r.
  destruct (Ascii.eqb_spec c "/") as [->|Hne]; [reflexivity|].
  rewrite py_in_slash_cons. destruct (Ascii.eqb_spec "/" c); [congruence|reflexivity].
Qed.

Lemma string_of_uint_no_slash (d : Decimal.uint) :
  py_in "/" (NilEmpty.string_of_uint d) = false.
Proof.
  induction d; cbn [NilEmpty.string_of_uint]; [reflexivity|..];
    rewrite py_in_slash_cons, IHd; reflexivity.
Qed.

Lemma py_str_no_slash (n : nat) : py_in "/" (py_str n) = false.
Proof.
  unfold py_str, NilZero.string_of_uint.
  destruct (Nat.to_uint n) eqn:Hd; [reflexivity|..]; rewrite <- Hd;
    apply string_of_uint_no_slash.
Qed.

(** X15 ([main], lines 153-154).  The default job names are one per line,
    pairwise different, and free of ["/"]. *)
Theorem X15_default_names_distinct (a : args) (lines : list string) :
  length (initial_job_names a lines) = length lines
  /\ NoDup (initial_job_names a lines)
  /\ forall name, name ∈ initial_job_names a lines -> py_in "/" name = false.
Proof.
  unfold initial_job_names. split; [now rewrite length_map, length_seq|]. split.
  - change (map ?f ?l) with (f <$> l). apply NoDup_fmap_2; [|apply NoDup_seq].
    intros n m Heq. apply string_app_inv_head, string_app_inv_head in Heq.
    apply py_str_inj in Heq. lia.
  - intros name Hin. apply list_elem_of_In, in_map_iff in Hin as (n & <- & _).
    now rewrite !py_in_slash_app, py_replace_char_no_slash, py_str_no_slash.
Qed.


Section ProbingFacts.
Context `{Probe}.

Lemma collect_returned (procs : list (list string)) :
  forall k outputs err outputs' err',
    collect k procs outputs err = Returned outputs' err' ->
    exists new,
      outputs' = outputs ++ new /\ length new = length procs
      /\ forall j command, procs !! j = Some command ->
           exists f, communicate (k + j) command = Exits f
             /\ new !! j = Some (recorded f)
             /\ (f_returncode f = 0 -> is_Some (decode_utf8 (f_stdout f))).
Proof.
  induction procs as [|command rest IH]; intros k outputs err outputs' err'; simpl.
  - intros [= <- <-]. exists []. rewrite app_nil_r. repeat split. intros j c Hj.
    discriminate.
  - destruct (communicate k command) as [f|e|] eqn:Hc; try discriminate.
    assert (Hstep : forall out err1,
              collect (S k) rest (outputs ++ [out]) err1 = Returned outputs' err' ->
              recorded f = out ->
              (f_returncode f = 0 -> is_Some (decode_utf8 (f_stdout f))) ->
              exists new,
                outputs' = outputs ++ new /\ length new = S (length rest)
                /\ forall j c, (command :: rest) !! j = Some c ->
                     exists f', communicate (k + j) c = Exits f'
                       /\ new !! j = Some (recorded f')
                       /\ (f_returncode f' = 0 -> is_Some (decode_utf8 (f_stdout f')))).
    { intros out err1 Hcol Hrec Hdec.
      destruct (IH _ _ _ _ _ Hcol) as (new & -> & Hlen & Hall).
      exists (out :: new). rewrite <- app_assoc. split; [reflexivity|].
      split; [simpl; lia|]. intros [|j] c Hj; simpl in Hj.
      - injection Hj as <-. rewrite Nat.add_0_r. exists f. rewrite Hrec. auto.
      - destruct (Hall j c Hj) as (f' & Hc' & Hn & Hd).
        exists f'. replace (k + S j)%nat with (S k + j)%nat by lia. auto. }
    destruct (f_returncode f =? 0) eqn:Hrc; simpl.
    + destruct (decode_utf8 (f_stdout f)) as [out|] eqn:Hd; [|discriminate].
      intros Hcol. apply (Hstep _ _ Hcol); [unfold recorded; now rewrite Hrc|eauto].
    + intros Hcol. apply (Hstep _ _ Hcol); [unfold recorded; now rewrite Hrc|].
      intros H0. apply Z.eqb_neq in Hrc. contradiction.
Qed.

Lemma spawn_all_none (commands : list (list string)) :
  forall k, spawn_all k commands = None <->
    forall j command, commands !! j = Some command ->
      popen_raises (k + j) command = None.
Proof.
  induction commands as [|command rest IH]; intros k; simpl.
  - split; [intros _ j c Hj; discriminate|reflexivity].
  - destruct (popen_raises k command) eqn:Hp.
    + split; [discriminate|]. intros Hall.
      specialize (Hall 0%nat command eq_refl). rewrite Nat.add_0_r in Hall. congruence.
    + rewrite IH. split.
      * intros Hall [|j] c Hj; simpl in Hj.
        -- injection Hj as <-. now rewrite Nat.add_0_r.
        -- replace (k + S j)%nat with (S k + j)%nat by lia. auto.
      * intros Hall j c Hj. replace (S k + j)%nat with (k + S j)%nat by lia.
        now apply Hall.
Qed.

Lemma run_all_returned (commands : list (list string))
    (outputs : list (option string)) (err : list string) :
  run_all commands = Returned outputs err ->
  length outputs = length commands
  /\ forall k command, commands !! k = Some command ->
       popen_raises k command = None
       /\ exists f, communicate k command = Exits f
            /\ outputs !! k = Some (recorded f)
            /\ (f_returncode f = 0 -> is_Some (decode_utf8 (f_stdout f))).
Proof.
  unfold run_all. destruct (spawn_all 0 commands) eqn:Hsp; [discriminate|].
  intros Hcol. apply collect_returned in Hcol as (new & -> & Hlen & Hall).
  split; [exact Hlen|]. intros k command Hk. split.
  { apply (proj1 (spawn_all_none commands 0) Hsp k command Hk). }
  destruct (Hall k command Hk) as (f & Hc & Hn & Hd).
  exists f. simpl in *. auto.
Qed.

Lemma recorded_None (f : finished) :
  (f_returncode f = 0 -> is_Some (decode_utf8 (f_stdout f))) ->
  recorded f = None <-> f_returncode f <> 0.
Proof.
  intros Hd. unfold recorded. destruct (Z.eqb_spec (f_returncode f) 0) as [H0|H0].
  - destruct (Hd H0) as [s ->]. split; [discriminate|contradiction].
  - split; auto.
Qed.

(** X16 ([run_all], lines 20-35).  When [run_all] returns, it returns
    one output per command, in order: [None] for a process that exited with
    a code other than 0, the decoded standard output for one that exited
    with 0. *)
Theorem X16_run_all_outputs (commands : list (list string))
    (outputs : list (option string)) (err : list string) :
  run_all commands = Returned outputs err ->
  length outputs = length commands
  /\ forall k command, commands !! k = Some command ->
       exists f, communicate k command = Exits f
         /\ (f_returncode f <> 0 -> outputs !! k = Some None)
         /\ (f_returncode f = 0 ->
             exists out, decode_utf8 (f_stdout f) = Some out
                         /\ outputs !! k = Some (Some out)).
Proof.
  intros Hrun. apply run_all_returned in Hrun as [Hlen Hall].
  split; [exact Hlen|]. intros k command Hk.
  destruct (Hall k command Hk) as (_ & f & Hc & Hn & Hd).
  exists f. split; [exact Hc|]. rewrite Hn. unfold recorded. split.
  - intros H0. apply Z.eqb_neq in H0. now rewrite H0.
  - intros H0. destruct (Hd H0) as [out Hout]. exists out.
    rewrite H0, Hout. auto.
Qed.

Lemma collect_all_exit (procs : list (list string)) :
  forall k outputs err,
    (forall j command, procs !! j = Some command ->
       exists f, communicate (k + j) command = Exits f
         /\ (f_returncode f = 0 -> is_Some (decode_utf8 (f_stdout f)))) ->
    exists outputs' err', collect k procs outputs err = Returned outputs' err'.
Proof.
  induction procs as [|command rest IH]; intros k outputs err Hall; simpl.
  - eauto.
  - destruct (Hall 0%nat command eq_refl) as (f & Hc & Hd).
    rewrite Nat.add_0_r in Hc. rewrite Hc.
    assert (Hrest : forall j c, rest !! j = Some c ->
              exists f', communicate (S k + j) c = Exits f'
                /\ (f_returncode f' = 0 -> is_Some (decode_utf8 (f_stdout f')))).
    { intros j c Hj. replace (S k + j)%nat with (k + S j)%nat by lia.
      now apply Hall. }
    destruct (Z.eqb_spec (f_returncode f) 0) as [H0|H0]; simpl.
    + destruct (Hd H0) as [out ->]. now apply IH.
    + now apply IH.
Qed.

Lemma fail_machines_elem (g : machine_config -> list string)
    (outputs : list (option string)) :
  forall (machines : list machine_config) (x : machine_config * string),
    x ∈ fail_machines outputs machines (map g machines) <->
    exists k mac, outputs !! k = Some None /\ machines !! k = Some mac
                  /\ x = (mac, py_join " " (g mac)).
Proof.
  unfold fail_machines.
  induction outputs as [|out outputs IH]; intros machines x.
  - simpl. split; [intros Hin; inversion Hin|]. intros (k & mac & Hk & _). discriminate.
  - destruct machines as [|mac0 machines].
    { simpl. split; [intros Hin; inversion Hin|]. intros (k & mac & _ & Hk & _).
      discriminate. }
    cbn [map zip zip_with]. csimpl. cbn [fst snd].
    destruct out as [s|].
    + rewrite IH. split.
      * intros (k & mac & Ho & Hm & Hx). exists (S k), mac. auto.
      * intros ([|k] & mac & Ho & Hm & Hx); simpl in Ho, Hm; [discriminate|].
        exists k, mac. auto.
    + rewrite elem_of_cons, IH. split.
      * intros [->|(k & mac & Ho & Hm & Hx)].
        -- exists 0%nat, mac0. auto.
        -- exists (S k), mac. auto.
      * intros ([|k] & mac & Ho & Hm & Hx); simpl in Ho, Hm.
        -- injection Hm as <-. now left.
        -- right. exists k, mac. auto.
Qed.

Lemma fail_machines_nil (commands : list (list string))
    (outputs : list (option string)) :
  forall machines,
    Forall (fun out => out <> None) outputs ->
    fail_machines outputs machines commands = [].
Proof.
  unfold fail_machines. revert commands.
  induction outputs as [|out outputs IH]; intros commands machines Hall; [reflexivity|].
  destruct machines as [|mac machines]; [reflexivity|].
  destruct commands as [|c commands]; [reflexivity|].
  cbn [zip zip_with]. csimpl. cbn [fst snd].
  inversion Hall as [|? ? Hout Hrest]; subst.
  destruct out; [|contradiction]. now apply IH.
Qed.

Lemma parse_all_ok (outputs : list (option string)) :
  forall infos, parse_all outputs = Ok infos ->
    length infos = length outputs
    /\ forall k out, outputs !! k = Some out ->
         exists info, parse_full_output out = Ok info /\ infos !! k = Some info.
Proof.
  induction outputs as [|out outputs IH]; intros infos; simpl.
  - intros [= <-]. split; [reflexivity|]. intros k o Hk. discriminate.
  - destruct (parse_full_output out) as [info|e] eqn:Hp; [|discriminate]. simpl.
    destruct (parse_all outputs) as [rest|e] eqn:Hr; [|discriminate]. simpl.
    intros [= <-]. destruct (IH _ eq_refl) as [Hlen Hall].
    split; [simpl; lia|]. intros [|k] o Hk; simpl in Hk.
    + injection Hk as <-. exists info. auto.
    + apply Hall, Hk.
Qed.

Lemma forallb_truthy_lookup (outputs : list (option string)) :
  forallb truthy outputs = true ->
  forall k out, outputs !! k = Some out ->
    exists s, out = Some s /\ s <> "".
Proof.
  rewrite forallb_forall. intros Hall k out Hk.
  assert (Hin : In out outputs).
  { apply list_elem_of_In. eapply list_elem_of_lookup_2, Hk. }
  specialize (Hall _ Hin). destruct out as [s|]; [|discriminate].
  exists s. split; [reflexivity|]. simpl in Hall.
  intros ->. discriminate.
Qed.

Local Abbreviation ssh mac := (make_ssh_command mac get_full_command).

(** X17 ([find_all_machine_info], lines 37-45).  When a [RuntimeError]
    is raised, its message is the fixed text followed by the JSON of a list
    that holds exactly the machines whose process exited with a code other
    than 0, each with its command joined by spaces. *)
Theorem X17_reported_machines_exited_nonzero (machines : list machine_config)
    (message : string) (err : list string) :
  find_all_machine_info machines = Raised (RuntimeError message) err ->
  exists failed,
    message = "could not connect to machines: " +:+ json_dumps failed
    /\ forall mac text,
         (mac, text) ∈ failed <->
         exists k f, machines !! k = Some mac
                     /\ communicate k (ssh mac) = Exits f
                     /\ f_returncode f <> 0
                     /\ text = py_join " " (ssh mac).
Proof.
  unfold find_all_machine_info.
  destruct (run_all _) as [outputs err0|e err0|] eqn:Hrun; [| |discriminate].
  2: { intros [= -> _]. unfold run_all in Hrun.
       destruct (spawn_all 0 _); [discriminate|].
       exfalso. clear -Hrun. revert Hrun.
       generalize (@nil (option string)) (@nil string) 0%nat.
       induction (map _ machines) as [|c rest IH]; intros outs errs k; simpl;
         [discriminate|].
       destruct (communicate k c) as [f| |]; try discriminate.
       destruct (negb _); [apply IH|].
       destruct (decode_utf8 _); [apply IH|discriminate]. }
  apply run_all_returned in Hrun as [Hlen Hall]. rewrite length_map in Hlen.
  destruct (negb (forallb truthy outputs)).
  2: { destruct (parse_all outputs); discriminate. }
  intros [= <- _]. eexists. split; [reflexivity|].
  intros mac text. rewrite fail_machines_elem. split.
  - intros (k & mac' & Ho & Hm & [= <- ->]).
    destruct (Hall k (ssh mac)) as (_ & f & Hc & Hn & Hd).
    { rewrite list_lookup_fmap, Hm. reflexivity. }
    exists k, f. repeat split; auto.
    apply recorded_None; [exact Hd|]. congruence.
  - intros (k & f & Hm & Hc & Hrc & ->).
    exists k, mac. repeat split; auto.
    destruct (Hall k (ssh mac)) as (_ & f' & Hc' & Hn & Hd).
    { rewrite list_lookup_fmap, Hm. reflexivity. }
    rewrite Hn. f_equal. apply recorded_None; [exact Hd|]. congruence.
Qed.

(** X18 ([find_all_machine_info], lines 41-43).  If every process exits
    with code 0 and decodes, but one of them printed nothing, the function
    still raises the [RuntimeError], and the list of machines in its message
    is empty. *)
Theorem X18_silent_machine_reported_unreachable (machines : list machine_config) :
  (forall k mac, machines !! k = Some mac ->
     popen_raises k (ssh mac) = None
     /\ exists f, communicate k (ssh mac) = Exits f /\ f_returncode f = 0
                  /\ is_Some (decode_utf8 (f_stdout f))) ->
  (exists k mac f, machines !! k = Some mac
                   /\ communicate k (ssh mac) = Exits f
                   /\ decode_utf8 (f_stdout f) = Some "") ->
  exists err,
    find_all_machine_info machines
    = Raised (RuntimeError ("could not connect to machines: " +:+ json_dumps [])) err.
Proof.
  intros Hall (k0 & mac0 & f0 & Hm0 & Hc0 & Hd0).
  unfold find_all_machine_info.
  assert (Hrun : exists outputs err,
            run_all (map (fun mac => ssh mac) machines) = Returned outputs err).
  { unfold run_all.
    replace (spawn_all 0 _) with (@None exn).
    2: { symmetry. apply spawn_all_none. intros j c Hj. simpl.
         rewrite list_lookup_fmap in Hj.
         destruct (machines !! j) as [mac|] eqn:Hm; [|discriminate].
         injection Hj as <-. apply (Hall j mac Hm). }
    apply collect_all_exit. intros j c Hj. simpl.
    rewrite list_lookup_fmap in Hj.
    destruct (machines !! j) as [mac|] eqn:Hm; [|discriminate].
    injection Hj as <-. destruct (Hall j mac Hm) as (_ & f & Hc & _ & Hd).
    exists f. auto. }
  destruct Hrun as (outputs & err & Hrun). rewrite Hrun. exists err.
  apply run_all_returned in Hrun as [Hlen Hout]. rewrite length_map in Hlen.
  assert (Hfalse : forallb truthy outputs = false).
  { destruct (forallb truthy outputs) eqn:Ht; [|reflexivity]. exfalso.
    destruct (Hout k0 (ssh mac0)) as (_ & f & Hc & Hn & _).
    { rewrite list_lookup_fmap, Hm0. reflexivity. }
    rewrite Hc0 in Hc. injection Hc as <-.
    destruct (forallb_truthy_lookup _ Ht _ _ Hn) as (s & Hs & Hne).
    destruct (Hall k0 mac0 Hm0) as (_ & f & Hc & H0 & _).
    rewrite Hc0 in Hc. injection Hc as <-.
    unfold recorded in Hs. rewrite H0, Hd0 in Hs. simpl in Hs. congruence. }
  rewrite Hfalse. simpl. rewrite fail_machines_nil; [reflexivity|].
  apply Forall_forall. intros out Hin.
  apply list_elem_of_lookup_1 in Hin as [k Hk].
  assert (Hlt : (k < length machines)%nat).
  { rewrite <- Hlen. eapply lookup_lt_Some, Hk. }
  apply lookup_lt_is_Some_2 in Hlt as [mac Hm].
  destruct (Hout k (ssh mac)) as (_ & f & Hc & Hn & _).
  { rewrite list_lookup_fmap, Hm. reflexivity. }
  destruct (Hall k mac Hm) as (_ & f' & Hc' & H0 & [s Hs]).
  rewrite Hc in Hc'. injection Hc' as <-.
  rewrite Hk in Hn. injection Hn as ->. unfold recorded. rewrite H0, Hs. discriminate.
Qed.

(** X19 ([find_all_machine_info], lines 37-45).  When the function
    returns, it returns one parsed record per machine, in order, and every
    machine's process exited with code 0 and printed a non-empty text that
    the parser accepted. *)
Theorem X19_returned_infos_match_machines (machines : list machine_config)
    (infos : list machine_info) (err : list string) :
  find_all_machine_info machines = Returned infos err ->
  length infos = length machines
  /\ forall k mac, machines !! k = Some mac ->
       exists f out info,
         communicate k (ssh mac) = Exits f /\ f_returncode f = 0
         /\ decode_utf8 (f_stdout f) = Some out /\ out <> ""
         /\ parse_full_output (Some out) = Ok info
         /\ infos !! k = Some info.
Proof.
  unfold find_all_machine_info.
  destruct (run_all _) as [outputs err0|e err0|] eqn:Hrun; try discriminate.
  apply run_all_returned in Hrun as [Hlen Hall]. rewrite length_map in Hlen.
  destruct (forallb truthy outputs) eqn:Ht; [|discriminate]. simpl.
  destruct (parse_all outputs) as [parsed|e] eqn:Hp; [|discriminate].
  intros [= <- _]. apply parse_all_ok in Hp as [Hlen' Hparsed].
  split; [congruence|]. intros k mac Hm.
  destruct (Hall k (ssh mac)) as (_ & f & Hc & Hn & Hd).
  { rewrite list_lookup_fmap, Hm. reflexivity. }
  destruct (forallb_truthy_lookup _ Ht _ _ Hn) as (s & Hs & Hne).
  destruct (Hparsed _ _ Hn) as (info & Hpi & Hi).
  rewrite Hs in Hpi. unfold recorded in Hs.
  destruct (Z.eqb_spec (f_returncode f) 0) as [H0|H0]; [|discriminate].
  exists f, s, info. repeat split; assumption.
Qed.

End ProbingFacts.

Lemma X16_run_all_outputs_witness :
  @run_all lab_probe lab_commands
  = Returned [Some "cpus 24"; Some ""; None] ["b''"; "b''"; "b'denied'"; "b''"]
  /\ length [Some "cpus 24"; Some ""; @None string] = length lab_commands
  /\ forall k command, lab_commands !! k = Some command ->
       exists f, @communicate lab_probe k command = Exits f
         /\ (f_returncode f <> 0
             -> [Some "cpus 24"; Some ""; @None string] !! k = Some None)
         /\ (f_returncode f = 0 ->
             exists out, @decode_utf8 lab_probe (f_stdout f) = Some out
               /\ [Some "cpus 24"; Some ""; @None string] !! k = Some (Some out)).
Proof.
  split; [reflexivity|].
  apply (@X16_run_all_outputs lab_probe lab_commands
           [Some "cpus 24"; Some ""; None] ["b''"; "b''"; "b'denied'"; "b''"]).
  reflexivity.
Defined.

Lemma X17_reported_machines_exited_nonzero_witness :
  @find_all_machine_info lab_probe ["alpha"; "beta"; "gamma"]
  = Raised (RuntimeError "could not connect to machines: [gamma]")
      ["b''"; "b''"; "b'denied'"; "b''"]
  /\ exists failed,
       "could not connect to machines: [gamma]"
       = "could not connect to machines: " +:+ @json_dumps lab_probe failed
       /\ forall mac text,
            (mac, text) ∈ failed <->
            exists k f, ["alpha"; "beta"; "gamma"] !! k = Some mac
                        /\ @communicate lab_probe k
                             (@make_ssh_command lab_probe mac (@get_full_command lab_probe))
                           = Exits f
                        /\ f_returncode f <> 0
                        /\ text = py_join " "
                                    (@make_ssh_command lab_probe mac
                                       (@get_full_command lab_probe)).
Proof.
  split; [reflexivity|].
  apply (@X17_reported_machines_exited_nonzero lab_probe ["alpha"; "beta"; "gamma"]
           "could not connect to machines: [gamma]"
           ["b''"; "b''"; "b'denied'"; "b''"]).
  reflexivity.
Defined.

Lemma X18_silent_machine_reported_unreachable_witness :
  exists err,
    @find_all_machine_info lab_probe ["alpha"; "beta"]
    = Raised (RuntimeError ("could not connect to machines: "
                            +:+ @json_dumps lab_probe [])) err.
Proof.
  apply (@X18_silent_machine_reported_unreachable lab_probe ["alpha"; "beta"]).
  - intros [|[|k]] mac Hk; simpl in Hk; try discriminate.
    + split; [reflexivity|]. eexists. repeat split; eexists; reflexivity.
    + split; [reflexivity|]. eexists. repeat split; eexists; reflexivity.
  - exists 1%nat, "beta", (mk_finished "" "" 0). repeat split.
Defined.

Lemma X19_returned_infos_match_machines_witness :
  @find_all_machine_info lab_probe ["alpha"]
  = Returned [example_info "gpu0" "gpu1"] ["b''"]
  /\ length [example_info "gpu0" "gpu1"] = length ["alpha"]
  /\ forall k mac, ["alpha"] !! k = Some mac ->
       exists f out info,
         @communicate lab_probe k
           (@make_ssh_command lab_probe mac (@get_full_command lab_probe)) = Exits f
         /\ f_returncode f = 0
         /\ @decode_utf8 lab_probe (f_stdout f) = Some out /\ out <> ""
         /\ @parse_full_output lab_probe (Some out) = Ok info
         /\ [example_info "gpu0" "gpu1"] !! k = Some info.
Proof.
  split; [reflexivity|].
  apply (@X19_returned_infos_match_machines lab_probe ["alpha"]
           [example_info "gpu0" "gpu1"] ["b''"]).
  reflexivity.
Defined.
